(** * golsm: the write path of a log-structured storage engine

    A shallow embedding of the three Go packages of the repository

      - [src/wal]       the write-ahead log (records, varints, CRC32, iterator),
      - [src/skiplist]  the skip list and its comparators,
      - [src/memtable]  the memtable that composes both,

    followed by the theorems that relate the code to its written
    specification.

    Conventions of the embedding.

    - Go [byte] is [Byte.byte]; [uint32]/[uint64] values are [N] with the
      wrap-around written where the code can overflow (varint decoding).
    - Go [int]/[int64] quantities that measure live buffers and files
      (lengths, offsets, sizes, counters) are [nat] or [Z] without
      wrap-around: they are bounded by the address space of the process.
    - [*os.File] is a handle with its own position over a file system that
      maps names to byte strings; every system call may fail, which is
      driven by a script of faults kept in the state of the operating system.
    - [*Node] is an index into an arena of nodes; [nil] is [None].
    - a run-time panic, an [error] return and a loop that exceeds its fuel are
      three distinct results. *)

From Stdlib Require Import ZArith NArith Lia List Strings.Byte Sorted.
From stdpp Require Import gmap strings list sorting.

(** ** Results of Go calls *)

Inductive error : Type :=
| EOF                  (* io.EOF *)
| ErrUnexpectedEOF     (* io.ErrUnexpectedEOF *)
| ErrInvalidChecksum   (* wal.ErrInvalidChecksum *)
| ErrInvalidRecord     (* wal.ErrInvalidRecord *)
| ErrVarintOverflow    (* "binary: varint overflows 64 bits" *)
| ErrOS (errno : nat). (* *os.PathError and friends *)

Inductive result (A : Type) : Type :=
| Ok (a : A)
| Err (e : error)
| Panic (msg : string)
| OutOfFuel.

Arguments Ok {A} a.
Arguments Err {A} e.
Arguments Panic {A} msg.
Arguments OutOfFuel {A}.

Definition error_eqb (a b : error) : bool :=
  match a, b with
  | EOF, EOF | ErrUnexpectedEOF, ErrUnexpectedEOF
  | ErrInvalidChecksum, ErrInvalidChecksum
  | ErrInvalidRecord, ErrInvalidRecord
  | ErrVarintOverflow, ErrVarintOverflow => true
  | ErrOS m, ErrOS n => Nat.eqb m n
  | _, _ => false
  end.

(** ** Bytes and fixed-width words *)

Definition byte_of_N (n : N) : byte :=
  match Byte.of_N (n mod 256) with
  | Some b => b
  | None => x00
  end.

Definition wrap64 (n : N) : N := (n mod 2 ^ 64)%N.

(** [make([]byte, n)] *)
Definition make (n : nat) : list byte := replicate n x00.

(** [copy(dst[off:], src)]: copies [min (len dst - off) (len src)] bytes. *)
Definition copy (dst : list byte) (off : nat) (src : list byte) : list byte :=
  take off dst ++ take (length dst - off) src ++ drop (off + length src) dst.

(** ** hash/crc32 (Go standard library): the reflected CRC-32 of IEEE 802.3 *)

Module crc32.

Definition IEEE : N := 0xedb88320%N.

Definition shift1 (c : N) : N :=
  if N.odd c then N.lxor (N.shiftr c 1) IEEE else N.shiftr c 1.

Definition update (crc : N) (b : byte) : N :=
  Nat.iter 8 shift1 (N.lxor crc (Byte.to_N b)).

Definition ChecksumIEEE (data : list byte) : N :=
  N.lxor (fold_left update data 0xffffffff%N) 0xffffffff%N.

End crc32.

(** ** encoding/binary (Go standard library) *)

Module binary.

(** [binary.LittleEndian.PutUint32]: the four bytes written. *)
Definition PutUint32 (v : N) : list byte :=
  [ byte_of_N v; byte_of_N (N.shiftr v 8);
    byte_of_N (N.shiftr v 16); byte_of_N (N.shiftr v 24) ].

(** [binary.LittleEndian.Uint32] on a four byte slice. *)
Definition Uint32 (b : list byte) : N :=
  match b with
  | [b0; b1; b2; b3] =>
      N.lor (Byte.to_N b0)
        (N.lor (N.shiftl (Byte.to_N b1) 8)
           (N.lor (N.shiftl (Byte.to_N b2) 16) (N.shiftl (Byte.to_N b3) 24)))
  | _ => 0%N
  end.

(** [binary.PutUvarint]: [for x >= 0x80 { buf[i] = byte(x) | 0x80; x >>= 7;
    i++ }; buf[i] = byte(x)].  A [uint64] needs at most nine continuation
    bytes, which is the recursion depth given by [encodeVarint]. *)
Fixpoint PutUvarint (n : nat) (x : N) : list byte :=
  match n with
  | O => [byte_of_N x]
  | S n' =>
      if (0x80 <=? x)%N
      then byte_of_N (N.lor (x mod 256) 0x80) :: PutUvarint n' (N.shiftr x 7)
      else [byte_of_N x]
  end.

End binary.

(** ** The operating system: files, handles and faults *)

(** A scripted fault: the system call fails with [e]; a write may have
    transferred its first [n] bytes before failing. *)
Inductive fault : Type :=
| Fail (e : error)
| Short (n : nat) (e : error).

Definition fault_error (f : fault) : error :=
  match f with Fail e | Short _ e => e end.

Record OS : Type := mkOS {
  files : gmap string (list byte);
  script : list (option fault)      (* one entry per system call; [] = no more faults *)
}.

(** [*os.File] *)
Record File : Type := mkFile {
  name : string;
  pos : nat                         (* the file offset of the handle *)
}.

Definition contents (os : OS) (path : string) : list byte :=
  default [] (files os !! path).

Definition next_fault (os : OS) : option fault * OS :=
  match script os with
  | [] => (None, os)
  | x :: s => (x, mkOS (files os) s)
  end.

Definition set_contents (os : OS) (path : string) (data : list byte) : OS :=
  mkOS (<[path := data]> (files os)) (script os).

(** The bytes of a file after [buf] is written at position [p]. *)
Definition write_at (data : list byte) (p : nat) (buf : list byte) : list byte :=
  take p data ++ replicate (p - length data) x00 ++ buf
    ++ drop (p + length buf) data.

(** Calls on one open file thread the handle and the operating system. *)
Definition IO (A : Type) : Type := File → OS → result A * File * OS.

Definition ret {A} (a : A) : IO A := fun f os => (Ok a, f, os).

Definition raise {A} (e : error) : IO A := fun f os => (Err e, f, os).

Definition panic {A} (msg : string) : IO A := fun f os => (Panic msg, f, os).

Definition bind {A B} (m : IO A) (k : A → IO B) : IO B :=
  fun f os =>
    match m f os with
    | (Ok a, f', os') => k a f' os'
    | (Err e, f', os') => (Err e, f', os')
    | (Panic msg, f', os') => (Panic msg, f', os')
    | (OutOfFuel, f', os') => (OutOfFuel, f', os')
    end.

Notation "x <- m ;; k" := (bind m (fun x => k))
  (at level 100, m at next level, right associativity).

(** [f.Write(buf)]; a write of no bytes changes nothing. *)
Definition file_Write (buf : list byte) : IO nat :=
  fun f os =>
    let '(flt, os) := next_fault os in
    let put (part : list byte) : File * OS :=
      match part with
      | [] => (f, os)
      | _ :: _ =>
          (mkFile (name f) (pos f + length part),
           set_contents os (name f) (write_at (contents os (name f)) (pos f) part))
      end in
    match flt with
    | None => let '(f, os) := put buf in (Ok (length buf), f, os)
    | Some (Fail e) => (Err e, f, os)
    | Some (Short n e) => let '(f, os) := put (take n buf) in (Err e, f, os)
    end.

(** [f.Sync()] *)
Definition file_Sync : IO unit :=
  fun f os =>
    let '(flt, os) := next_fault os in
    match flt with
    | None => (Ok tt, f, os)
    | Some x => (Err (fault_error x), f, os)
    end.

(** [f.Seek(off, 0)] *)
Definition file_Seek (off : Z) : IO Z :=
  fun f os =>
    let '(flt, os) := next_fault os in
    match flt with
    | Some x => (Err (fault_error x), f, os)
    | None =>
        if (off <? 0)%Z then (Err (ErrOS 22), f, os)
        else (Ok off, mkFile (name f) (Z.to_nat off), os)
    end.

(** [f.Read(buf)] with [len(buf) = n] on a regular file: as many bytes as
    the file has left, at most [n]; [io.EOF] when none is left. *)
Definition file_Read (n : N) : IO (list byte) :=
  fun f os =>
    let '(flt, os) := next_fault os in
    match flt with
    | Some x => (Err (fault_error x), f, os)
    | None =>
        if (n =? 0)%N then (Ok [], f, os)
        else
          let avail := drop (pos f) (contents os (name f)) in
          match avail with
          | [] => (Err EOF, f, os)
          | _ :: _ =>
              let got :=
                if (N.of_nat (length avail) <=? n)%N then avail
                else take (N.to_nat n) avail in
              (Ok got, mkFile (name f) (pos f + length got), os)
          end
    end.

(** [io.ReadFull(f, buf)] with [len(buf) = n]: reads until the buffer is
    full; [io.EOF] if nothing was read, [io.ErrUnexpectedEOF] if the file ends
    before the buffer is full.  On a regular file the first read returns all
    that is left, so that a second read can only report the end. *)
Definition io_ReadFull (n : N) : IO (list byte) :=
  if (n =? 0)%N then ret []
  else
    fun f os =>
      match file_Read n f os with
      | (Ok got, f', os') =>
          if (N.of_nat (length got) =? n)%N then (Ok got, f', os')
          else
            match file_Read (n - N.of_nat (length got)) f' os' with
            | (Ok more, f'', os'') =>
                if (N.of_nat (length (got ++ more)) =? n)%N
                then (Ok (got ++ more), f'', os'')
                else (Err ErrUnexpectedEOF, f'', os'')
            | (Err EOF, f'', os'') => (Err ErrUnexpectedEOF, f'', os'')
            | other => other
            end
      | other => other
      end.

(** [f.Close()] *)
Definition file_Close : IO unit :=
  fun f os =>
    let '(flt, os) := next_fault os in
    match flt with
    | None => (Ok tt, f, os)
    | Some x => (Err (fault_error x), f, os)
    end.

(** [f.Truncate(0)] *)
Definition file_Truncate0 : IO unit :=
  fun f os =>
    let '(flt, os) := next_fault os in
    match flt with
    | None => (Ok tt, f, set_contents os (name f) [])
    | Some x => (Err (fault_error x), f, os)
    end.

(** [f.Stat()], of which the code uses [Size()] only. *)
Definition file_Stat : IO Z :=
  fun f os =>
    let '(flt, os) := next_fault os in
    match flt with
    | None => (Ok (Z.of_nat (length (contents os (name f)))), f, os)
    | Some x => (Err (fault_error x), f, os)
    end.

(** [os.OpenFile(path, os.O_CREATE|os.O_RDWR, 0666)]: the file is created
    empty when absent, kept as it is otherwise; the handle starts at
    position 0 (the flags do not include [O_APPEND]). *)
Definition os_OpenFile_create_rdwr (path : string) (os : OS) : result File * OS :=
  let '(flt, os) := next_fault os in
  match flt with
  | Some x => (Err (fault_error x), os)
  | None =>
      match files os !! path with
      | Some _ => (Ok (mkFile path 0), os)
      | None => (Ok (mkFile path 0), set_contents os path [])
      end
  end.

(** [os.Open(path)]: read-only, the file must exist. *)
Definition os_Open (path : string) (os : OS) : result File * OS :=
  let '(flt, os) := next_fault os in
  match flt with
  | Some x => (Err (fault_error x), os)
  | None =>
      match files os !! path with
      | Some _ => (Ok (mkFile path 0), os)
      | None => (Err (ErrOS 2), os)
      end
  end.

(** ** Package wal *)

Module wal.

Definition TypePut : byte := x01.
Definition TypeDelete : byte := x02.

(** [type WAL struct]; the mutex is not modelled, calls are sequential. *)
Record WAL : Type := mkWAL {
  file : File;
  size : Z;
  syncOps : bool
}.

(** [type Record struct] *)
Record Record_ : Type := mkRecord {
  Type_ : byte;
  Key : list byte;
  Value : list byte
}.

(** Runs calls on the handle of the log. *)
Definition on_file {A} (w : WAL) (m : IO A) (os : OS) : result A * WAL * OS :=
  let '(r, f, os) := m (file w) os in
  (r, mkWAL f (size w) (syncOps w), os).

Definition Open (path : string) (syncOps : bool) (os : OS) : result WAL * OS :=
  match os_OpenFile_create_rdwr path os with
  | (Ok file, os) =>
      match file_Stat file os with
      | (Ok sz, file, os) => (Ok (mkWAL file sz syncOps), os)
      | (Err e, file, os) =>
          let '(_, _, os) := file_Close file os in (Err e, os)
      | (Panic msg, _, os) => (Panic msg, os)
      | (OutOfFuel, _, os) => (OutOfFuel, os)
      end
  | (Err e, os) => (Err e, os)
  | (Panic msg, os) => (Panic msg, os)
  | (OutOfFuel, os) => (OutOfFuel, os)
  end.

Definition Close (w : WAL) (os : OS) : result unit * WAL * OS :=
  on_file w file_Close os.

Definition encodeVarint (x : N) : list byte := binary.PutUvarint 9 x.

(** The buffer that [Write] fills before it calls [w.file.Write]. *)
Definition Write_buf (record : Record_) : list byte :=
  let keyLen := length (Key record) in
  let valueLen := length (Value record) in
  let keyLenEncoded := encodeVarint (N.of_nat keyLen) in
  let valueLenEncoded := encodeVarint (N.of_nat valueLen) in
  let recordSize :=
    (1 + length keyLenEncoded + length valueLenEncoded + keyLen + valueLen + 4)%nat in
  let buf := make recordSize in
  let buf := <[0%nat := Type_ record]> buf in
  let buf := copy buf 1 keyLenEncoded in
  let offset := (1 + length keyLenEncoded)%nat in
  let buf := copy buf offset valueLenEncoded in
  let offset := (offset + length valueLenEncoded)%nat in
  let buf := copy buf offset (Key record) in
  let offset := (offset + keyLen)%nat in
  let buf := copy buf offset (Value record) in
  let offset := (offset + valueLen)%nat in
  let checksum := crc32.ChecksumIEEE (take offset buf) in
  copy buf offset (binary.PutUint32 checksum).

Definition Write (w : WAL) (record : Record_) (os : OS) : result unit * WAL * OS :=
  let buf := Write_buf record in
  let recordSize := length buf in
  let '(r, w, os) :=
    on_file w (_ <- file_Write buf ;;
               if syncOps w then file_Sync else ret tt) os in
  match r with
  | Ok _ => (Ok tt, mkWAL (file w) (size w + Z.of_nat recordSize) (syncOps w), os)
  | Err e => (Err e, w, os)
  | Panic msg => (Panic msg, w, os)
  | OutOfFuel => (OutOfFuel, w, os)
  end.

(** The first loop of [WriteBatch]. *)
Definition WriteBatch_totalSize (records : list Record_) : nat :=
  fold_left
    (fun totalSize record =>
       let keyLenEncoded := encodeVarint (N.of_nat (length (Key record))) in
       let valueLenEncoded := encodeVarint (N.of_nat (length (Value record))) in
       (totalSize + (1 + length keyLenEncoded + length valueLenEncoded
                     + length (Key record) + length (Value record) + 4))%nat)
    records 0%nat.

(** The body of the second loop of [WriteBatch], on [(buf, offset)]. *)
Definition WriteBatch_step (st : list byte * nat) (record : Record_) : list byte * nat :=
  let '(buf, offset) := st in
  let keyLen := length (Key record) in
  let valueLen := length (Value record) in
  let keyLenEncoded := encodeVarint (N.of_nat keyLen) in
  let valueLenEncoded := encodeVarint (N.of_nat valueLen) in
  let buf := <[offset := Type_ record]> buf in
  let offset := (offset + 1)%nat in
  let buf := copy buf offset keyLenEncoded in
  let offset := (offset + length keyLenEncoded)%nat in
  let buf := copy buf offset valueLenEncoded in
  let offset := (offset + length valueLenEncoded)%nat in
  let buf := copy buf offset (Key record) in
  let offset := (offset + keyLen)%nat in
  let buf := copy buf offset (Value record) in
  let offset := (offset + valueLen)%nat in
  let recordSize :=
    (1 + length keyLenEncoded + length valueLenEncoded + keyLen + valueLen)%nat in
  let checksum :=
    crc32.ChecksumIEEE (take recordSize (drop (offset - recordSize) buf)) in
  let buf := copy buf offset (binary.PutUint32 checksum) in
  (buf, (offset + 4)%nat).

(** The buffer that [WriteBatch] fills before it calls [w.file.Write]. *)
Definition WriteBatch_buf (records : list Record_) : list byte :=
  let totalSize := WriteBatch_totalSize records in
  fst (fold_left WriteBatch_step records (make totalSize, 0%nat)).

Definition WriteBatch (w : WAL) (records : list Record_) (os : OS)
  : result unit * WAL * OS :=
  let totalSize := WriteBatch_totalSize records in
  let buf := WriteBatch_buf records in
  let '(r, w, os) :=
    on_file w (_ <- file_Write buf ;;
               if syncOps w then file_Sync else ret tt) os in
  match r with
  | Ok _ => (Ok tt, mkWAL (file w) (size w + Z.of_nat totalSize) (syncOps w), os)
  | Err e => (Err e, w, os)
  | Panic msg => (Panic msg, w, os)
  | OutOfFuel => (OutOfFuel, w, os)
  end.

(** The loop of [readUvarint]; every turn reads one byte, so the bytes left
    in the file bound the number of turns. *)
Fixpoint readUvarint_loop (fuel : nat) (x s : N) (i : nat) : IO (N * nat) :=
  match fuel with
  | O => fun f os => (OutOfFuel, f, os)
  | S fuel' =>
      buf <- file_Read 1 ;;
      let b := Byte.to_N (nth 0 buf x00) in
      if (b <? 0x80)%N then
        if (9 <? i)%nat || ((i =? 9)%nat && (1 <? b)%N)
        then raise ErrVarintOverflow
        else ret (N.lor x (wrap64 (N.shiftl b s)), (i + 1)%nat)
      else
        readUvarint_loop fuel'
          (N.lor x (wrap64 (N.shiftl (N.land b 0x7f) s))) (s + 7)%N (i + 1)%nat
  end.

Definition readUvarint : IO (N * nat) :=
  fun f os =>
    let left := (length (contents os (name f)) - pos f)%nat in
    readUvarint_loop (S left) 0 0 0 f os.

(** [make([]byte, n)] for a [uint64] read from the file, then
    [io.ReadFull]: the length must be representable as an [int]. *)
Definition make_ReadFull (n : N) : IO (list byte) :=
  if (2 ^ 63 <=? n)%N then panic "makeslice: len out of range"
  else io_ReadFull n.

Module Iterator.

(** [type Iterator struct] *)
Record t : Type := mk {
  file : File;
  offset : Z;
  fileEnd : Z
}.

(** The reads of [Next]: the record and its size. *)
Definition Next_read (it : t) : IO (Record_ * Z) :=
  _ <- file_Seek (offset it) ;;
  typeBuf <- file_Read 1 ;;
  let recordType := nth 0 typeBuf x00 in
  if negb (Byte.eqb recordType TypePut) && negb (Byte.eqb recordType TypeDelete)
  then raise ErrInvalidRecord
  else
    kl <- readUvarint ;;
    let '(keyLen, keyLenSize) := kl in
    vl <- readUvarint ;;
    let '(valueLen, valueLenSize) := vl in
    key <- make_ReadFull keyLen ;;
    value <- make_ReadFull valueLen ;;
    checksumBuf <- io_ReadFull 4 ;;
    let recordSize :=
      (1 + Z.of_nat keyLenSize + Z.of_nat valueLenSize
       + Z.of_N keyLen + Z.of_N valueLen + 4)%Z in
    _ <- file_Seek (offset it) ;;
    data <- io_ReadFull (Z.to_N (recordSize - 4)) ;;
    let checksum := crc32.ChecksumIEEE data in
    let readChecksum := binary.Uint32 checksumBuf in
    if negb (checksum =? readChecksum)%N then raise ErrInvalidChecksum
    else ret (mkRecord recordType key value, recordSize).

Definition Next (it : t) (os : OS) : result Record_ * t * OS :=
  if (fileEnd it <=? offset it)%Z then (Err EOF, it, os)
  else
    match Next_read it (file it) os with
    | (Ok (record, recordSize), f, os) =>
        (Ok record, mk f (offset it + recordSize) (fileEnd it), os)
    | (Err e, f, os) => (Err e, mk f (offset it) (fileEnd it), os)
    | (Panic msg, f, os) => (Panic msg, mk f (offset it) (fileEnd it), os)
    | (OutOfFuel, f, os) => (OutOfFuel, mk f (offset it) (fileEnd it), os)
    end.

Definition Close (it : t) (os : OS) : result unit * t * OS :=
  let '(r, f, os) := file_Close (file it) os in
  (r, mk f (offset it) (fileEnd it), os).

End Iterator.

Definition NewIterator (w : WAL) (os : OS) : result Iterator.t * OS :=
  match os_Open (name (file w)) os with
  | (Ok f, os) => (Ok (Iterator.mk f 0 (size w)), os)
  | (Err e, os) => (Err e, os)
  | (Panic msg, os) => (Panic msg, os)
  | (OutOfFuel, os) => (OutOfFuel, os)
  end.

Definition Truncate (w : WAL) (os : OS) : result unit * WAL * OS :=
  let '(r, w, os) := on_file w (_ <- file_Truncate0 ;; file_Seek 0) os in
  match r with
  | Ok _ => (Ok tt, mkWAL (file w) 0 (syncOps w), os)
  | Err e => (Err e, w, os)
  | Panic msg => (Panic msg, w, os)
  | OutOfFuel => (OutOfFuel, w, os)
  end.

End wal.

(** ** Package skiplist *)

Definition rbind {A B} (m : result A) (k : A → result B) : result B :=
  match m with
  | Ok a => k a
  | Err e => Err e
  | Panic msg => Panic msg
  | OutOfFuel => OutOfFuel
  end.

Notation "x <~ m ;; k" := (rbind m (fun x => k))
  (at level 100, m at next level, right associativity).

(** [l[i]] and [l[i] = x] with the bounds check of the Go run time. *)
Definition load {A} (l : list A) (i : nat) : result A :=
  match l !! i with
  | Some a => Ok a
  | None => Panic "index out of range"
  end.

Definition store {A} (l : list A) (i : nat) (a : A) : result (list A) :=
  if (i <? length l)%nat then Ok (<[i := a]> l) else Panic "index out of range".

Module skiplist.

Definition maxLevel : nat := 32.

(** [type Comparator interface]: negative, zero or positive. *)
Class Comparator (K : Type) : Type := { Compare : K → K → Z }.

(** [IntComparator] on keys of dynamic type [int]. *)
Definition IntComparator : Comparator Z :=
  {| Compare a b := if (a <? b)%Z then (-1)%Z else if (b <? a)%Z then 1%Z else 0%Z |}.

(** [StringComparator] on keys of dynamic type [string]: Go compares
    strings byte by byte. *)
Fixpoint bytes_compare (a b : list byte) : Z :=
  match a, b with
  | [], [] => 0
  | [], _ :: _ => -1
  | _ :: _, [] => 1
  | x :: a', y :: b' =>
      if (Byte.to_N x <? Byte.to_N y)%N then -1
      else if (Byte.to_N y <? Byte.to_N x)%N then 1
      else bytes_compare a' b'
  end.

Definition StringComparator : Comparator (list byte) :=
  {| Compare := bytes_compare |}.

(** [BytesComparator] on keys of dynamic type [[]byte]: the first
    differing byte within the common length decides, then the lengths. *)
Fixpoint bytes_loop (a b : list byte) : option Z :=
  match a, b with
  | x :: a', y :: b' =>
      if (Byte.to_N x <? Byte.to_N y)%N then Some (-1)%Z
      else if (Byte.to_N y <? Byte.to_N x)%N then Some 1%Z
      else bytes_loop a' b'
  | _, _ => None
  end.

Definition BytesComparator : Comparator (list byte) :=
  {| Compare a b :=
       match bytes_loop a b with
       | Some c => c
       | None =>
           if (length a <? length b)%nat then (-1)%Z
           else if (length b <? length a)%nat then 1%Z
           else 0%Z
       end |}.

(** [*rand.Rand], seen through the only question the code asks it:
    whether the next [Float64()] is below [probability]. *)
Record Rand : Type := mkRand {
  coins : nat → bool;
  drawn : nat
}.

Definition Float64_lt_probability (r : Rand) : bool * Rand :=
  (coins r (drawn r), mkRand (coins r) (S (drawn r))).

Section list.

Context {K V : Type}.

(** [type Node struct]; the head has the nil key and the nil value. *)
Record Node : Type := mkNode {
  key : option K;
  value : option V;
  forward : list (option nat)
}.

(** [type SkipList struct], together with the nodes it has allocated;
    a [*Node] is an index into [nodes]. *)
Record SkipList : Type := mkSkipList {
  nodes : list Node;
  head : nat;
  comparator : Comparator K;
  level : nat;
  size : Z;
  r : Rand
}.

Definition NewSkipList (cmp : option (Comparator K)) (seed : nat → bool)
  : result SkipList :=
  match cmp with
  | None => Panic "Comparator can not be nil"
  | Some cmp =>
      let head := mkNode None None (replicate maxLevel None) in
      Ok (mkSkipList [head] 0 cmp 1 0 (mkRand seed 0))
  end.

Fixpoint randomLevel_loop (n : nat) (level : nat) (r : Rand) : nat * Rand :=
  match n with
  | O => (level, r)
  | S n' =>
      if (level <? maxLevel)%nat then
        let '(c, r') := Float64_lt_probability r in
        if c then randomLevel_loop n' (level + 1)%nat r' else (level, r')
      else (level, r)
  end.

Definition randomLevel (r : Rand) : nat * Rand :=
  randomLevel_loop maxLevel 1 r.

(** [*p] *)
Definition deref (ns : list Node) (p : nat) : result Node :=
  match ns !! p with
  | Some n => Ok n
  | None => Panic "invalid memory address or nil pointer dereference"
  end.

(** [p.forward[i]] *)
Definition fwd (ns : list Node) (p i : nat) : result (option nat) :=
  n <~ deref ns p ;; load (forward n) i.

(** [p.forward[i] = q] *)
Definition set_fwd (ns : list Node) (p i : nat) (q : option nat)
  : result (list Node) :=
  n <~ deref ns p ;;
  fw <~ store (forward n) i q ;;
  Ok (<[p := mkNode (key n) (value n) fw]> ns).

(** [cmp.Compare(p.key, k)]: the comparators panic on a key that is not
    of their type, as the nil key of the head is. *)
Definition compare_key (cmp : Comparator K) (ns : list Node) (p : nat) (k : K)
  : result Z :=
  n <~ deref ns p ;;
  match key n with
  | Some k' => Ok (Compare k' k)
  | None => Panic "Comparator: invalid type"
  end.

(** [for x.forward[i] != nil && cmp.Compare(x.forward[i].key, key) < 0
    { x = x.forward[i] }] *)
Fixpoint advance (fuel : nat) (cmp : Comparator K) (ns : list Node)
    (k : K) (i x : nat) : result nat :=
  match fuel with
  | O => OutOfFuel
  | S fuel' =>
      nx <~ fwd ns x i ;;
      match nx with
      | None => Ok x
      | Some y =>
          c <~ compare_key cmp ns y k ;;
          if (c <? 0)%Z then advance fuel' cmp ns k i y else Ok x
      end
  end.

(** [for i := n - 1; i >= 0; i-- { advance }], as in [Find] and [Seek]. *)
Fixpoint descend (sl : SkipList) (k : K) (n x : nat) : result nat :=
  match n with
  | O => Ok x
  | S i =>
      x <~ advance (S (length (nodes sl))) (comparator sl) (nodes sl) k i x ;;
      descend sl k i x
  end.

(** [for i := n - 1; i >= 0; i-- { advance; update[i] = x }], as in
    [Insert] and [Delete]. *)
Fixpoint descend_update (sl : SkipList) (k : K) (n x : nat)
    (update : list (option nat)) : result (nat * list (option nat)) :=
  match n with
  | O => Ok (x, update)
  | S i =>
      x <~ advance (S (length (nodes sl))) (comparator sl) (nodes sl) k i x ;;
      update <~ store update i (Some x) ;;
      descend_update sl k i x update
  end.

Definition Find (sl : SkipList) (k : K) : result (option V * bool) :=
  x <~ descend sl k (level sl) (head sl) ;;
  x <~ fwd (nodes sl) x 0 ;;
  match x with
  | None => Ok (None, false)
  | Some y =>
      c <~ compare_key (comparator sl) (nodes sl) y k ;;
      if (c =? 0)%Z then
        n <~ deref (nodes sl) y ;; Ok (value n, true)
      else Ok (None, false)
  end.

(** [for i := sl.level; i < level; i++ { update[i] = sl.head }] *)
Fixpoint promote (n i : nat) (hd : nat) (update : list (option nat))
  : result (list (option nat)) :=
  match n with
  | O => Ok update
  | S n' =>
      update <~ store update i (Some hd) ;;
      promote n' (S i) hd update
  end.

(** [for i := 0; i < level; i++ { newNode.forward[i] = update[i].forward[i];
    update[i].forward[i] = newNode }], [n] turns from [i]. *)
Fixpoint splice (n i : nat) (ns : list Node) (update : list (option nat))
    (newNode : nat) : result (list Node) :=
  match n with
  | O => Ok ns
  | S n' =>
      u <~ load update i ;;
      match u with
      | None => Panic "invalid memory address or nil pointer dereference"
      | Some u =>
          nx <~ fwd ns u i ;;
          ns <~ set_fwd ns newNode i nx ;;
          ns <~ set_fwd ns u i (Some newNode) ;;
          splice n' (S i) ns update newNode
      end
  end.

Definition Insert (sl : SkipList) (k : K) (v : V) : result SkipList :=
  let update := replicate maxLevel None in
  xu <~ descend_update sl k (level sl) (head sl) update ;;
  let '(x, update) := xu in
  x <~ fwd (nodes sl) x 0 ;;
  exist <~ match x with
           | None => Ok None
           | Some y =>
               c <~ compare_key (comparator sl) (nodes sl) y k ;;
               Ok (if (c =? 0)%Z then Some y else None)
           end ;;
  match exist with
  | Some y =>
      n <~ deref (nodes sl) y ;;
      let ns := <[y := mkNode (key n) (Some v) (forward n)]> (nodes sl) in
      Ok (mkSkipList ns (head sl) (comparator sl) (level sl) (size sl) (r sl))
  | None =>
      let '(lvl, r') := randomLevel (r sl) in
      ul <~ (if (level sl <? lvl)%nat then
               update <~ promote (lvl - level sl) (level sl) (head sl) update ;;
               Ok (update, lvl)
             else Ok (update, level sl)) ;;
      let '(update, level') := ul in
      let newNode := length (nodes sl) in
      let ns := nodes sl ++ [mkNode (Some k) (Some v) (replicate lvl None)] in
      ns <~ splice lvl 0 ns update newNode ;;
      Ok (mkSkipList ns (head sl) (comparator sl) level' (size sl + 1) r')
  end.

(** [for i := 0; i < sl.level; i++ { if update[i].forward[i] != x { break };
    update[i].forward[i] = x.forward[i] }], [n] turns from [i]. *)
Fixpoint unlink (n i : nat) (ns : list Node) (update : list (option nat))
    (x : nat) : result (list Node) :=
  match n with
  | O => Ok ns
  | S n' =>
      u <~ load update i ;;
      match u with
      | None => Panic "invalid memory address or nil pointer dereference"
      | Some u =>
          nx <~ fwd ns u i ;;
          if negb (bool_decide (nx = Some x)) then Ok ns
          else
            xn <~ fwd ns x i ;;
            ns <~ set_fwd ns u i xn ;;
            unlink n' (S i) ns update x
      end
  end.

(** [for sl.level > 1 && sl.head.forward[sl.level-1] == nil { sl.level-- }] *)
Fixpoint shrink (n : nat) (ns : list Node) (hd : nat) (level : nat)
  : result nat :=
  match n with
  | O => Ok level
  | S n' =>
      if (1 <? level)%nat then
        top <~ fwd ns hd (level - 1) ;;
        match top with
        | None => shrink n' ns hd (level - 1)
        | Some _ => Ok level
        end
      else Ok level
  end.

Definition Delete (sl : SkipList) (k : K) : result (bool * SkipList) :=
  let update := replicate maxLevel None in
  xu <~ descend_update sl k (level sl) (head sl) update ;;
  let '(x, update) := xu in
  x <~ fwd (nodes sl) x 0 ;;
  found <~ match x with
           | None => Ok None
           | Some y =>
               c <~ compare_key (comparator sl) (nodes sl) y k ;;
               Ok (if negb (c =? 0)%Z then None else Some y)
           end ;;
  match found with
  | None => Ok (false, sl)
  | Some x =>
      ns <~ unlink (level sl) 0 (nodes sl) update x ;;
      level' <~ shrink (level sl) ns (head sl) (level sl) ;;
      Ok (true, mkSkipList ns (head sl) (comparator sl) level' (size sl - 1) (r sl))
  end.

Definition Size (sl : SkipList) : Z := size sl.

(** [type Iterator struct]: [list] points to the list, whose current
    state is given to every call. *)
Record Iterator : Type := mkIterator { current : option nat }.

Definition NewIterator (sl : SkipList) : result Iterator :=
  c <~ fwd (nodes sl) (head sl) 0 ;; Ok (mkIterator c).

Definition Valid (iter : Iterator) : bool :=
  match current iter with Some _ => true | None => false end.

Definition Iterator_Key (sl : SkipList) (iter : Iterator) : result (option K) :=
  match current iter with
  | None => Panic "Invalid iterator"
  | Some c => n <~ deref (nodes sl) c ;; Ok (key n)
  end.

Definition Iterator_Value (sl : SkipList) (iter : Iterator) : result (option V) :=
  match current iter with
  | None => Panic "Invalid iterator"
  | Some c => n <~ deref (nodes sl) c ;; Ok (value n)
  end.

Definition Iterator_Next (sl : SkipList) (iter : Iterator) : result Iterator :=
  match current iter with
  | None => Panic "Invalid iterator"
  | Some c => c' <~ fwd (nodes sl) c 0 ;; Ok (mkIterator c')
  end.

Definition Iterator_Seek (sl : SkipList) (iter : Iterator) (k : K)
  : result Iterator :=
  x <~ descend sl k (level sl) (head sl) ;;
  c <~ fwd (nodes sl) x 0 ;;
  Ok (mkIterator c).
End list.

End skiplist.

(** ** Package memtable *)

Module memtable.

(** [type MemTable struct]; keys and values are [[]byte]. *)
Record MemTable : Type := mkMemTable {
  skipList : skiplist.SkipList (K := list byte) (V := list byte);
  log : wal.WAL
}.

(** The replay loop of [New]: [for { record, err := iter.Next(); if err !=
    nil { break }; switch record.Type { ... } }].  Every record that is
    read moves the offset forward, which bounds the number of turns. *)
Fixpoint New_replay (fuel : nat) (list : skiplist.SkipList)
    (iter : wal.Iterator.t) (os : OS)
  : result skiplist.SkipList * wal.Iterator.t * OS :=
  match fuel with
  | O => (OutOfFuel, iter, os)
  | S fuel' =>
      match wal.Iterator.Next iter os with
      | (Ok record, iter, os) =>
          let applied :=
            if Byte.eqb (wal.Type_ record) wal.TypePut then
              skiplist.Insert list (wal.Key record) (wal.Value record)
            else if Byte.eqb (wal.Type_ record) wal.TypeDelete then
              x <~ skiplist.Delete list (wal.Key record) ;; Ok (snd x)
            else Ok list in
          match applied with
          | Ok list => New_replay fuel' list iter os
          | other => (other, iter, os)
          end
      | (Err _, iter, os) => (Ok list, iter, os)
      | (Panic msg, iter, os) => (Panic msg, iter, os)
      | (OutOfFuel, iter, os) => (OutOfFuel, iter, os)
      end
  end.

(** [New]; [seed] stands for the clock that seeds the random source. *)
Definition New (walPath : string) (syncWrites : bool) (seed : nat → bool)
    (os : OS) : result MemTable * OS :=
  match wal.Open walPath syncWrites os with
  | (Ok log, os) =>
      match skiplist.NewSkipList None seed with
      | Ok list =>
          match wal.NewIterator log os with
          | (Ok iter, os) =>
              let '(r, iter, os) :=
                New_replay (S (Z.to_nat (wal.Iterator.fileEnd iter))) list iter os in
              let '(_, _, os) := wal.Iterator.Close iter os in
              match r with
              | Ok list => (Ok (mkMemTable list log), os)
              | Err e => (Err e, os)
              | Panic msg => (Panic msg, os)
              | OutOfFuel => (OutOfFuel, os)
              end
          | (Err e, os) =>
              let '(_, _, os) := wal.Close log os in (Err e, os)
          | (Panic msg, os) => (Panic msg, os)
          | (OutOfFuel, os) => (OutOfFuel, os)
          end
      | Err e => (Err e, os)
      | Panic msg => (Panic msg, os)
      | OutOfFuel => (OutOfFuel, os)
      end
  | (Err e, os) => (Err e, os)
  | (Panic msg, os) => (Panic msg, os)
  | (OutOfFuel, os) => (OutOfFuel, os)
  end.

Definition Close (m : MemTable) (os : OS) : result unit * MemTable * OS :=
  let '(r, log, os) := wal.Close (log m) os in
  (r, mkMemTable (skipList m) log, os).

Definition Put (m : MemTable) (key value : list byte) (os : OS)
  : result unit * MemTable * OS :=
  let '(err, log, os) :=
    wal.Write (log m) (wal.mkRecord wal.TypePut key value) os in
  match err with
  | Ok _ =>
      match skiplist.Insert (skipList m) key value with
      | Ok list => (Ok tt, mkMemTable list log, os)
      | Err e => (Err e, mkMemTable (skipList m) log, os)
      | Panic msg => (Panic msg, mkMemTable (skipList m) log, os)
      | OutOfFuel => (OutOfFuel, mkMemTable (skipList m) log, os)
      end
  | Err e => (Err e, mkMemTable (skipList m) log, os)
  | Panic msg => (Panic msg, mkMemTable (skipList m) log, os)
  | OutOfFuel => (OutOfFuel, mkMemTable (skipList m) log, os)
  end.

Definition Delete (m : MemTable) (key : list byte) (os : OS)
  : result unit * MemTable * OS :=
  let '(err, log, os) :=
    wal.Write (log m) (wal.mkRecord wal.TypeDelete key []) os in
  match err with
  | Ok _ =>
      match skiplist.Delete (skipList m) key with
      | Ok (_, list) => (Ok tt, mkMemTable list log, os)
      | Err e => (Err e, mkMemTable (skipList m) log, os)
      | Panic msg => (Panic msg, mkMemTable (skipList m) log, os)
      | OutOfFuel => (OutOfFuel, mkMemTable (skipList m) log, os)
      end
  | Err e => (Err e, mkMemTable (skipList m) log, os)
  | Panic msg => (Panic msg, mkMemTable (skipList m) log, os)
  | OutOfFuel => (OutOfFuel, mkMemTable (skipList m) log, os)
  end.

End memtable.

(** ** Vocabulary of the specification *)

Module spec.

(** §6, the record on disk from [type] to [value]: the bytes that the
    checksum covers. *)
Definition payload (r : wal.Record_) : list byte :=
  [wal.Type_ r]
    ++ wal.encodeVarint (N.of_nat (length (wal.Key r)))
    ++ wal.encodeVarint (N.of_nat (length (wal.Value r)))
    ++ wal.Key r ++ wal.Value r.

(** §6, the whole record: [payload] and its CRC32, little-endian. *)
Definition layout (r : wal.Record_) : list byte :=
  payload r ++ binary.PutUint32 (crc32.ChecksumIEEE (payload r)).

(** §3, a record is a [Put] or a [Delete]. *)
Definition put_or_delete (r : wal.Record_) : Prop :=
  wal.Type_ r = wal.TypePut ∨ wal.Type_ r = wal.TypeDelete.

(** The length of a Go slice is an [int]. *)
Definition go_slices (r : wal.Record_) : Prop :=
  (Z.of_nat (length (wal.Key r)) < 2 ^ 63
   ∧ Z.of_nat (length (wal.Value r)) < 2 ^ 63)%Z.

(** §3, the invariant of the file: a concatenation of zero or more
    complete, checksum-valid records. *)
Definition is_log (data : list byte) : Prop :=
  ∃ rs, Forall put_or_delete rs ∧ data = concat (map layout rs).

(** [Write] after [Write], stopping at the first that does not succeed. *)
Fixpoint Write_all (w : wal.WAL) (rs : list wal.Record_) (os : OS)
  : result unit * wal.WAL * OS :=
  match rs with
  | [] => (Ok tt, w, os)
  | r :: rs' =>
      match wal.Write w r os with
      | (Ok _, w, os) => Write_all w rs' os
      | other => other
      end
  end.

(** [Next] after [Next], at most [n] times, up to and including the first
    call that does not return a record. *)
Fixpoint Next_all (n : nat) (it : wal.Iterator.t) (os : OS)
  : list (result wal.Record_) :=
  match n with
  | O => []
  | S n' =>
      match wal.Iterator.Next it os with
      | (Ok r, it, os) => Ok r :: Next_all n' it os
      | (other, _, _) => [other]
      end
  end.

(** Open the log at [path], write [rs], open an iterator and call [Next]
    once more than there are records. *)
Definition roundtrip (path : string) (syncOps : bool) (rs : list wal.Record_)
    (os : OS) : option (list (result wal.Record_)) :=
  match wal.Open path syncOps os with
  | (Ok w, os) =>
      match Write_all w rs os with
      | (Ok _, w, os) =>
          match wal.NewIterator w os with
          | (Ok it, os) => Some (Next_all (S (length rs)) it os)
          | _ => None
          end
      | _ => None
      end
  | _ => None
  end.

(** Open an iterator on the log and call [Next] until it stops. *)
Definition replay (w : wal.WAL) (os : OS) : option (list (result wal.Record_)) :=
  match wal.NewIterator w os with
  | (Ok it, os) => Some (Next_all (S (Z.to_nat (wal.size w))) it os)
  | _ => None
  end.

Section list.

Context {K V : Type}.

(** §3, the comparator is a strict total order, with which EQUAL is
    compatible. *)
Class ComparatorLaws (cmp : skiplist.Comparator K) : Prop := {
  lt_trans a b c :
    (skiplist.Compare a b < 0 → skiplist.Compare b c < 0
     → skiplist.Compare a c < 0)%Z;
  gt_lt a b : (0 < skiplist.Compare a b ↔ skiplist.Compare b a < 0)%Z;
  eq_lt_l a b c :
    (skiplist.Compare a b = 0 → skiplist.Compare c a < 0
     → skiplist.Compare c b < 0)%Z;
  eq_lt_r a b c :
    (skiplist.Compare a b = 0 → skiplist.Compare a c < 0
     → skiplist.Compare b c < 0)%Z
}.

(** A sequence of [Insert] and [Delete] on a list made by [NewSkipList]. *)
Inductive op : Type :=
| OpInsert (k : K) (v : V)
| OpDelete (k : K).

Fixpoint run (ops : list op) (sl : skiplist.SkipList)
  : result (skiplist.SkipList (K := K) (V := V)) :=
  match ops with
  | [] => Ok sl
  | OpInsert k v :: ops' => sl <~ skiplist.Insert sl k v ;; run ops' sl
  | OpDelete k :: ops' => x <~ skiplist.Delete sl k ;; run ops' (snd x)
  end.

Definition build (cmp : skiplist.Comparator K) (seed : nat → bool)
    (ops : list op) : result skiplist.SkipList :=
  sl <~ skiplist.NewSkipList (Some cmp) seed ;; run ops sl.

(** The keys of the nodes that are linked at level [i], from the one
    that [p] points to. *)
Fixpoint keys_from (fuel : nat) (ns : list skiplist.Node) (i : nat)
    (p : option nat) : result (list (option K)) :=
  match p with
  | None => Ok []
  | Some a =>
      match fuel with
      | O => OutOfFuel
      | S fuel' =>
          n <~ skiplist.deref ns a ;;
          nx <~ skiplist.fwd ns a i ;;
          rest <~ keys_from fuel' ns i nx ;;
          Ok (skiplist.key (V := V) n :: rest)
      end
  end.

Definition level_keys (sl : skiplist.SkipList) (i : nat)
  : result (list (option K)) :=
  p <~ skiplist.fwd (skiplist.nodes sl) (skiplist.head sl) i ;;
  keys_from (length (skiplist.nodes sl)) (skiplist.nodes sl) i p.

(** [for iter.Valid() { iter.Key(); iter.Value(); iter.Next() }] *)
Fixpoint iterate (fuel : nat) (sl : skiplist.SkipList) (iter : skiplist.Iterator)
  : result (list (option K * option V)) :=
  if skiplist.Valid iter then
    match fuel with
    | O => OutOfFuel
    | S fuel' =>
        k <~ skiplist.Iterator_Key sl iter ;;
        v <~ skiplist.Iterator_Value sl iter ;;
        iter <~ skiplist.Iterator_Next sl iter ;;
        rest <~ iterate fuel' sl iter ;;
        Ok ((k, v) :: rest)
    end
  else Ok [].

(** A full ascending iteration from a new iterator. *)
Definition entries (sl : skiplist.SkipList)
  : result (list (option K * option V)) :=
  iter <~ skiplist.NewIterator sl ;;
  iterate (length (skiplist.nodes sl)) sl iter.

Definition lt (cmp : skiplist.Comparator K) (a b : K) : Prop :=
  (skiplist.Compare a b < 0)%Z.

End list.

End spec.

(** * Predicates of the verification *)

(** ** Handles and files *)

(** The handle [f] stands after [pre] in its file, [rest] is still to be
    read, and the operating system has no fault left to inject. *)
Definition at_pos (f : File) (os : OS) (pre rest : list byte) : Prop :=
  script os = [] ∧ contents os (name f) = pre ++ rest
  ∧ pos f = length pre.

Definition moved (f : File) (n : nat) : File :=
  mkFile (name f) (pos f + n).

(** What a successful [f.Write(buf)] does to the handle and to the file. *)
Definition put (f : File) (os : OS) (buf : list byte) : File * OS :=
  match buf with
  | [] => (f, os)
  | _ :: _ =>
      (moved f (length buf),
       set_contents os (name f) (write_at (contents os (name f)) (pos f) buf))
  end.

(** The log after [buf] was appended by one successful call. *)
Definition wrote (w : wal.WAL) (os : OS) (buf : list byte) : wal.WAL * OS :=
  (wal.mkWAL (put (wal.file w) os buf).1
     (wal.size w + Z.of_nat (length buf)) (wal.syncOps w),
   (put (wal.file w) os buf).2).

(** The handle went from [f] to [f'] over the bytes [got], which are in
    the file at the position of [f]; the files are unchanged. *)
Definition consumed (f : File) (os : OS) (got : list byte) (f' : File) (os' : OS) : Prop :=
  (∃ rest, drop (pos f) (contents os (name f)) = got ++ rest)
  ∧ f' = moved f (length got) ∧ files os' = files os.

(** A byte of a varint that is followed by another one. *)
Definition cont_byte (x : N) : N := (N.lor (x mod 256) 0x80 mod 256)%N.

(** ** The memory of the skip list and its chains *)

Section chains.

Context {K V : Type}.

Abbreviation Node := (skiplist.Node (K := K) (V := V)).
Abbreviation SkipList := (skiplist.SkipList (K := K) (V := V)).

Implicit Types (ns : list Node) (a b x y : nat) (i j : nat) (l : list nat) (k : K)
(L : nat → list nat) (sl : SkipList).

(** [a.forward[i]], [a.key] and [a.value], when they exist. *)
Definition nxt ns i a : option (option nat) :=
match ns !! a with
| Some n => skiplist.forward n !! i
| None => None
end.

Definition keyOf ns a : option K :=
match ns !! a with
| Some n => skiplist.key n
| None => None
end.

Definition valueOf ns a : option V :=
match ns !! a with
| Some n => skiplist.value n
| None => None
end.

(** Two memories with the same nodes, keys and values. *)
Definition same_data ns ns' : Prop :=
length ns' = length ns
∧ (∀ b, keyOf ns' b = keyOf ns b) ∧ (∀ b, valueOf ns' b = valueOf ns b).

(** From [x], the links of level [i] go through [l] and then to [e]. *)
Fixpoint seg ns i x l (e : option nat) : Prop :=
match l with
| [] => nxt ns i x = Some e
| a :: l' => nxt ns i x = Some (Some a) ∧ seg ns i a l' e
end.

Definition first (l : list nat) (e : option nat) : option nat :=
match l with
| [] => e
| a :: _ => Some a
end.

(** The longest prefix on which [p] holds, and what follows it. *)
Fixpoint lower (p : nat → bool) (l : list nat) : list nat :=
match l with
| [] => []
| a :: l' => if p a then a :: lower p l' else []
end.

Fixpoint upper (p : nat → bool) (l : list nat) : list nat :=
match l with
| [] => []
| a :: l' => if p a then upper p l' else a :: l'
end.

Context (cmp : skiplist.Comparator K).

(** The key of node [a] is LESS than [k]. *)
Definition below ns k a : bool :=
match keyOf ns a with
| Some ka => (skiplist.Compare ka k <? 0)%Z
| None => false
end.

(** The key of node [a] is LESS than the key of node [b]. *)
Definition klt ns a b : Prop :=
∃ ka kb, keyOf ns a = Some ka ∧ keyOf ns b = Some kb
         ∧ (skiplist.Compare ka kb < 0)%Z.

Definition ordered ns l : Prop := StronglySorted (klt ns) l.

Definition keyed ns l : Prop := Forall (λ a, a ≠ 0 ∧ is_Some (keyOf ns a)) l.

(** [L i] lists the nodes linked at level [i], in order, from the head
  (node 0) excluded. *)
Record shape ns (level : nat) L : Prop := mk_shape {
sh_chain i : i < skiplist.maxLevel → seg ns i 0 (L i) None;
sh_keyed i : i < skiplist.maxLevel → keyed ns (L i);
sh_ordered i : i < skiplist.maxLevel → ordered ns (L i);
sh_tower i a : S i < skiplist.maxLevel → a ∈ L (S i) → a ∈ L i;
sh_level : 1 ≤ level ≤ skiplist.maxLevel;
sh_top i : level ≤ i → i < skiplist.maxLevel → L i = [];
sh_fuel i : i < skiplist.maxLevel → length (L i) < length ns
}.

Definition Inv sl L : Prop :=
skiplist.head sl = 0 ∧ skiplist.comparator sl = cmp
∧ shape (skiplist.nodes sl) (skiplist.level sl) L
∧ skiplist.size sl = Z.of_nat (length (L 0)).

(** The last node of level [i] whose key is LESS than [k], or the head. *)
Definition pred ns L k i : nat := default 0 (last (lower (below ns k) (L i))).

(** The node that follows [pred i] at level [i]. *)
Definition succ ns L k i : option nat := first (upper (below ns k) (L i)) None.

(** The node that holds a key EQUAL to [k], if there is one. *)
Definition hit ns L k : option nat :=
match succ ns L k 0 with
| Some y =>
    match keyOf ns y with
    | Some ky => if (skiplist.Compare ky k =? 0)%Z then Some y else None
    | None => None
    end
| None => None
end.

(** The chains after a node was spliced in at the levels below [lvl]. *)
Definition inserted ns L k (lvl nw : nat) : nat → list nat :=
λ i, if decide (i < lvl)
     then lower (below ns k) (L i) ++ nw :: upper (below ns k) (L i)
     else L i.

(** The chains after node [x] was unlinked. *)
Definition removed ns L k x : nat → list nat :=
λ i, if decide (x ∈ L i)
     then lower (below ns k) (L i) ++ drop 1 (upper (below ns k) (L i))
     else L i.

End chains.

(** ** Examples *)

Definition it_example (fileEnd : Z) : wal.Iterator.t :=
  wal.Iterator.mk (mkFile "wal" 0) 0 fileEnd.

Definition corrupt_example : OS :=
  mkOS {[ "wal" := spec.payload (wal.mkRecord wal.TypePut [x61] [x31])
                   ++ [x00; x00; x00; x00] ]} [].

Definition intact_example : OS :=
  mkOS {[ "wal" := spec.layout (wal.mkRecord wal.TypePut [x61] [x31]) ]} [].

(** The log of the recovery example of the specification. *)
Definition recovery_example : OS :=
  mkOS {[ "wal" :=
            concat (map spec.layout
              [ wal.mkRecord wal.TypePut [x61] [x31];
                wal.mkRecord wal.TypePut [x62] [x32];
                wal.mkRecord wal.TypeDelete [x61] [];
                wal.mkRecord wal.TypePut [x61] [x33] ]) ]} [].

Definition list_example : skiplist.SkipList (K := list byte) (V := list byte) :=
  skiplist.mkSkipList
    [skiplist.mkNode None None (replicate skiplist.maxLevel None)] 0
    skiplist.BytesComparator 1 0 (skiplist.mkRand (λ _, false) 0).

Definition memtable_example : memtable.MemTable :=
  memtable.mkMemTable list_example (wal.mkWAL (mkFile "wal" 0) 0 true).

(** The write succeeds and the sync fails. *)
Definition sync_fails : OS := mkOS {[ "wal" := [] ]} [None; Some (Fail (ErrOS 5))].

Definition ops_example : list (spec.op (K := Z) (V := Z)) :=
  [spec.OpInsert 3 30; spec.OpInsert 1 10; spec.OpInsert 7 70; spec.OpInsert 5 50;
   spec.OpDelete 7; spec.OpInsert 3 31]%Z.

(** ** Further vocabulary *)

(** The log [w] is ready to append: no fault is ahead, its file exists, its
    handle is at the end of the file and [w.size] is the length of the
    file. *)
Definition appending (w : wal.WAL) (os : OS) : Prop :=
  script os = []
  ∧ is_Some (files os !! name (wal.file w))
  ∧ pos (wal.file w) = length (contents os (name (wal.file w)))
  ∧ wal.size w = Z.of_nat (length (contents os (name (wal.file w)))).

(** What the replay loop of [New] does with a record of the log. *)
Definition op_of (r : wal.Record_) : spec.op (K := list byte) (V := list byte) :=
  if Byte.eqb (wal.Type_ r) wal.TypePut
  then spec.OpInsert (wal.Key r) (wal.Value r)
  else spec.OpDelete (wal.Key r).

(** * Words and bytes *)

Section words.

Local Open Scope N_scope.

Lemma N_lt_pow2_bits a n :
  a < 2 ^ n ↔ (∀ m, n ≤ m → N.testbit a m = false).
Proof.
  split.
  - intros H m Hm. rewrite <- (N.mod_small a (2 ^ n)) by done.
    by apply N.mod_pow2_bits_high.
  - intros H. assert (a = a mod 2 ^ n) as ->.
    { apply N.bits_inj. intros m. destruct (N.lt_ge_cases m n).
      + by rewrite N.mod_pow2_bits_low.
      + rewrite N.mod_pow2_bits_high by done. by apply H. }
    apply N.mod_lt, N.pow_nonzero. lia.
Qed.

Lemma lxor_lt_pow2 a b n : a < 2 ^ n → b < 2 ^ n → N.lxor a b < 2 ^ n.
Proof.
  rewrite !N_lt_pow2_bits. intros Ha Hb m Hm.
  by rewrite N.lxor_spec, Ha, Hb.
Qed.

Lemma lor_lt_pow2 a b n : a < 2 ^ n → b < 2 ^ n → N.lor a b < 2 ^ n.
Proof.
  rewrite !N_lt_pow2_bits. intros Ha Hb m Hm.
  by rewrite N.lor_spec, Ha, Hb.
Qed.

Lemma shiftr_lt_pow2 a k n : a < 2 ^ n → N.shiftr a k < 2 ^ n.
Proof.
  rewrite !N_lt_pow2_bits. intros Ha m Hm.
  rewrite N.shiftr_spec'. apply Ha. lia.
Qed.

Lemma to_N_byte_of_N n : Byte.to_N (byte_of_N n) = n mod 256.
Proof.
  unfold byte_of_N. destruct (Byte.of_N (n mod 256)) eqn:E.
  - by apply Byte.to_of_N in E.
  - apply Byte.of_N_None_iff in E.
    pose proof (N.mod_lt n 256). lia.
Qed.

Lemma to_N_lt b : Byte.to_N b < 256.
Proof. pose proof (Byte.to_N_bounded b). lia. Qed.

Lemma byte_of_to_N b : byte_of_N (Byte.to_N b) = b.
Proof.
  unfold byte_of_N. rewrite N.mod_small by apply to_N_lt.
  by rewrite Byte.of_to_N.
Qed.

Lemma Uint32_PutUint32 c :
  c < 2 ^ 32 → binary.Uint32 (binary.PutUint32 c) = c.
Proof.
  intros Hc. unfold binary.Uint32, binary.PutUint32.
  rewrite !to_N_byte_of_N. change 256 with (2 ^ 8).
  apply N.bits_inj. intros m.
  rewrite !N.lor_spec.
  destruct (N.lt_ge_cases m 8);
    [|destruct (N.lt_ge_cases m 16);
      [|destruct (N.lt_ge_cases m 24);
        [|destruct (N.lt_ge_cases m 32)]]].
  all: repeat first
    [ rewrite N.shiftl_spec_low by lia
    | rewrite N.shiftl_spec_high' by lia
    | rewrite N.mod_pow2_bits_low by lia
    | rewrite N.mod_pow2_bits_high by lia
    | rewrite N.shiftr_spec' ].
  all: rewrite ?orb_false_r, ?orb_false_l; try (f_equal; lia).
  symmetry. by apply N_lt_pow2_bits with (n := 32).
Qed.

Lemma shift1_lt c : c < 2 ^ 32 → crc32.shift1 c < 2 ^ 32.
Proof.
  intros Hc. unfold crc32.shift1. destruct (N.odd c).
  - apply lxor_lt_pow2; [by apply shiftr_lt_pow2 | by vm_compute].
  - by apply shiftr_lt_pow2.
Qed.

Lemma update_lt c b : c < 2 ^ 32 → crc32.update c b < 2 ^ 32.
Proof.
  intros Hc. unfold crc32.update.
  assert (N.lxor c (Byte.to_N b) < 2 ^ 32) as H.
  { apply lxor_lt_pow2; [done|]. pose proof (to_N_lt b).
    eapply N.lt_trans; [done | by vm_compute]. }
  revert H. generalize (N.lxor c (Byte.to_N b)). intros x Hx.
  do 8 (cbn [Nat.iter nat_rect]; apply shift1_lt). done.
Qed.

Lemma ChecksumIEEE_lt data : crc32.ChecksumIEEE data < 2 ^ 32.
Proof.
  unfold crc32.ChecksumIEEE.
  apply lxor_lt_pow2; [|by vm_compute].
  assert (0xffffffff < 2 ^ 32) as H by (by vm_compute).
  revert H. generalize 0xffffffff. induction data as [|b data IH]; intros c Hc.
  - done.
  - cbn [fold_left]. apply IH. by apply update_lt.
Qed.

Lemma Uint32_checksum data :
  binary.Uint32 (binary.PutUint32 (crc32.ChecksumIEEE data)) = crc32.ChecksumIEEE data.
Proof. apply Uint32_PutUint32, ChecksumIEEE_lt. Qed.

End words.

(** * Reading a quiet file *)

Section reading.

Lemma next_fault_quiet os : script os = [] → next_fault os = (None, os).
Proof. unfold next_fault. by intros ->. Qed.

Lemma moved_0 f : moved f 0 = f.
Proof. destruct f. unfold moved. cbn. f_equal. lia. Qed.

Lemma moved_moved f a b : moved (moved f a) b = moved f (a + b).
Proof. unfold moved. cbn. f_equal. lia. Qed.

Lemma at_pos_moved f os pre bs rest :
  at_pos f os pre (bs ++ rest) → at_pos (moved f (length bs)) os (pre ++ bs) rest.
Proof.
  intros (Hs & Hc & Hp). repeat split; cbn.
  - done.
  - by rewrite Hc, <- app_assoc.
  - rewrite Hp, length_app. lia.
Qed.

Lemma at_pos_avail f os pre rest :
  at_pos f os pre rest →
  drop (pos f) (contents os (name f)) = rest.
Proof.
  intros (_ & -> & ->). by rewrite drop_app_length.
Qed.

Lemma file_Seek_at f os pre rest :
  script os = [] → contents os (name f) = pre ++ rest →
  ∃ f', file_Seek (Z.of_nat (length pre)) f os = (Ok (Z.of_nat (length pre)), f', os)
        ∧ name f' = name f ∧ at_pos f' os pre rest.
Proof.
  intros Hs Hc. unfold file_Seek. rewrite next_fault_quiet by done.
  destruct (Z.ltb_spec (Z.of_nat (length pre)) 0); [lia|].
  eexists. split; [done|]. split; [done|]. repeat split; cbn; [done..|lia].
Qed.

Lemma file_Read_at f os pre bs rest :
  bs ≠ [] → at_pos f os pre (bs ++ rest) →
  file_Read (N.of_nat (length bs)) f os = (Ok bs, moved f (length bs), os).
Proof.
  intros Hne H. pose proof (at_pos_avail _ _ _ _ H) as Ha.
  destruct H as (Hs & _ & _).
  unfold file_Read. rewrite next_fault_quiet by done.
  destruct (N.eqb_spec (N.of_nat (length bs)) 0) as [E|_].
  { destruct bs; [done | cbn in E; lia]. }
  rewrite Ha. destruct (bs ++ rest) eqn:E.
  { by destruct bs. }
  rewrite <- E.
  assert ((if (N.of_nat (length (bs ++ rest)) <=? N.of_nat (length bs))%N
           then bs ++ rest
           else take (N.to_nat (N.of_nat (length bs))) (bs ++ rest)) = bs) as ->.
  { destruct (N.leb_spec (N.of_nat (length (bs ++ rest))) (N.of_nat (length bs))) as [Hl|Hl].
    - rewrite length_app in Hl. destruct rest; [by rewrite app_nil_r | cbn in Hl; lia].
    - rewrite Nat2N.id. by rewrite take_app_length. }
  done.
Qed.

Lemma file_Read1_at f os pre b rest :
  at_pos f os pre (b :: rest) →
  file_Read 1 f os = (Ok [b], moved f 1, os).
Proof. intros H. by apply (file_Read_at f os pre [b] rest). Qed.

Lemma file_Read_end f os pre n :
  n ≠ 0%N → at_pos f os pre [] → file_Read n f os = (Err EOF, f, os).
Proof.
  intros Hn H. pose proof (at_pos_avail _ _ _ _ H) as Ha.
  destruct H as (Hs & _ & _).
  unfold file_Read. rewrite next_fault_quiet by done.
  destruct (N.eqb_spec n 0); [done|]. by rewrite Ha.
Qed.

Lemma io_ReadFull_at f os pre bs rest :
  at_pos f os pre (bs ++ rest) →
  io_ReadFull (N.of_nat (length bs)) f os = (Ok bs, moved f (length bs), os).
Proof.
  intros H. unfold io_ReadFull.
  destruct (N.eqb_spec (N.of_nat (length bs)) 0) as [E|E].
  - destruct bs; [|cbn in E; lia]. cbn. by rewrite moved_0.
  - assert (bs ≠ []) by (by intros ->).
    rewrite (file_Read_at f os pre bs rest) by done.
    by rewrite N.eqb_refl.
Qed.

End reading.

(** * Varints *)

Section varint.

Local Open Scope N_scope.

Lemma lor_disjoint_add a x s : a < 2 ^ s → N.lor a (x * 2 ^ s) = a + x * 2 ^ s.
Proof.
  intros Ha.
  assert (N.land a (x * 2 ^ s) = 0) as Hd.
  { apply N.bits_inj. intros m. rewrite N.land_spec, N.bits_0.
    destruct (N.lt_ge_cases m s).
    - rewrite N.mul_pow2_bits_low by done. apply andb_false_r.
    - apply N_lt_pow2_bits with (m := m) in Ha; [|done]. by rewrite Ha. }
  rewrite N.add_nocarry_lxor by done. by rewrite N.lxor_lor.
Qed.

Lemma testbit_true_ge b n : N.testbit b n = true → 2 ^ n ≤ b.
Proof.
  intros H. destruct (N.lt_ge_cases b (2 ^ n)) as [Hlt|]; [|done].
  apply N_lt_pow2_bits with (m := n) in Hlt; [congruence | lia].
Qed.

Lemma cont_byte_ge x : 0x80 ≤ cont_byte x.
Proof.
  apply (testbit_true_ge _ 7). unfold cont_byte. change 256 with (2 ^ 8).
  rewrite N.mod_pow2_bits_low by lia. rewrite N.lor_spec.
  change 0x80 with (2 ^ 7). rewrite N.pow2_bits_true. apply orb_true_r.
Qed.

Lemma cont_byte_low x : N.land (cont_byte x) 0x7f = x mod 128.
Proof.
  change 0x7f with (N.ones 7). rewrite N.land_ones. unfold cont_byte.
  change 256 with (2 ^ 8). change 128 with (2 ^ 7). change 0x80 with (2 ^ 7).
  apply N.bits_inj. intros m. destruct (N.lt_ge_cases m 7).
  - rewrite !N.mod_pow2_bits_low by lia. rewrite N.lor_spec.
    rewrite N.mod_pow2_bits_low by lia.
    rewrite N.pow2_bits_false by lia. apply orb_false_r.
  - by rewrite !N.mod_pow2_bits_high by lia.
Qed.

Lemma PutUvarint_length_pos n x : (0 < length (binary.PutUvarint n x))%nat.
Proof. destruct n; cbn; [lia|]. destruct (0x80 <=? x); cbn; lia. Qed.

Lemma PutUvarint_length_le n x : (length (binary.PutUvarint n x) ≤ S n)%nat.
Proof.
  revert x. induction n as [|n IH]; intros x; cbn; [lia|].
  destruct (0x80 <=? x); cbn; [|lia]. specialize (IH (N.shiftr x 7)). lia.
Qed.

Lemma readUvarint_loop_put n : ∀ x acc s i fuel f os pre rest,
  at_pos f os pre (binary.PutUvarint n x ++ rest) →
  (n + i = 9)%nat → s = 7 * N.of_nat i → acc < 2 ^ s →
  acc + x * 2 ^ s < 2 ^ 64 →
  (length (binary.PutUvarint n x) ≤ fuel)%nat →
  wal.readUvarint_loop fuel acc s i f os
  = (Ok (acc + x * 2 ^ s, (i + length (binary.PutUvarint n x))%nat),
     moved f (length (binary.PutUvarint n x)), os).
Proof.
  assert (Hlast : ∀ x acc s i fuel f os pre rest,
    at_pos f os pre ([byte_of_N x] ++ rest) →
    x < 0x80 → (i ≤ 9)%nat → (i = 9%nat → x ≤ 1) → acc < 2 ^ s →
    acc + x * 2 ^ s < 2 ^ 64 → (1 ≤ fuel)%nat →
    wal.readUvarint_loop fuel acc s i f os
    = (Ok (acc + x * 2 ^ s, (i + 1)%nat), moved f 1, os)).
  { intros x acc s i fuel f os pre rest Hat Hx Hi Hi9 Hacc Hv Hfuel.
    destruct fuel as [|fuel]; [lia|]. cbn [wal.readUvarint_loop].
    unfold bind. rewrite (file_Read1_at f os pre (byte_of_N x) rest) by done.
    cbn [nth]. rewrite to_N_byte_of_N, N.mod_small by lia.
    destruct (N.ltb_spec x 0x80); [|lia].
    assert (((9 <? i)%nat || ((i =? 9)%nat && (1 <? x))) = false) as ->.
    { destruct (Nat.ltb_spec 9 i); [lia|]. cbn.
      destruct (Nat.eqb_spec i 9); [|done]. cbn.
      destruct (N.ltb_spec 1 x); [|done]. specialize (Hi9 ltac:(done)). lia. }
    unfold ret. rewrite N.shiftl_mul_pow2. unfold wrap64.
    rewrite N.mod_small by lia. by rewrite lor_disjoint_add. }
  induction n as [|n IH]; intros x acc s i fuel f os pre rest Hat Hn Hs Hacc Hv Hfuel.
  - cbn [binary.PutUvarint] in *. assert (i = 9%nat) as -> by lia.
    subst s. change (7 * N.of_nat 9) with 63 in *.
    assert (x ≤ 1).
    { destruct (N.le_gt_cases x 1); [done|]. exfalso.
      assert (2 * 2 ^ 63 ≤ x * 2 ^ 63) by (apply N.mul_le_mono_r; lia).
      change (2 ^ 64) with (2 * 2 ^ 63) in Hv. lia. }
    eapply Hlast; eauto; cbn in *; lia.
  - cbn [binary.PutUvarint] in *.
    destruct (N.leb_spec 0x80 x) as [Hx|Hx].
    + destruct fuel as [|fuel]; [cbn in Hfuel; lia|].
      cbn [wal.readUvarint_loop]. unfold bind.
      rewrite (file_Read1_at f os pre _ (binary.PutUvarint n (N.shiftr x 7) ++ rest))
        by done.
      cbn [nth]. rewrite to_N_byte_of_N. fold (cont_byte x).
      pose proof (cont_byte_ge x).
      destruct (N.ltb_spec (cont_byte x) 0x80); [lia|].
      rewrite cont_byte_low. rewrite N.shiftl_mul_pow2. unfold wrap64.
      assert (x = x mod 128 + N.shiftr x 7 * 128) as Hsplit.
      { rewrite N.shiftr_div_pow2. change (2 ^ 7) with 128.
        pose proof (N.div_mod x 128). lia. }
      assert (x mod 128 * 2 ^ s ≤ x * 2 ^ s).
      { apply N.mul_le_mono_r. pose proof (N.Div0.mod_le x 128). lia. }
      rewrite N.mod_small by lia. rewrite lor_disjoint_add by done.
      assert (2 ^ (s + 7) = 128 * 2 ^ s) as Hpow.
      { rewrite N.pow_add_r. change (2 ^ 7) with 128. lia. }
      pose proof (N.mod_lt x 128 ltac:(lia)).
      apply at_pos_moved with (bs := [_]) in Hat.
      erewrite IH; [| exact Hat | | | | |].
      * cbn [length]. rewrite moved_moved.
        replace (acc + x mod 128 * 2 ^ s + N.shiftr x 7 * 2 ^ (s + 7))
          with (acc + x * 2 ^ s) by (rewrite Hpow; lia).
        by replace (i + 1 + length (binary.PutUvarint n (N.shiftr x 7)))%nat
          with (i + S (length (binary.PutUvarint n (N.shiftr x 7))))%nat by lia.
      * lia.
      * lia.
      * rewrite Hpow. nia.
      * rewrite Hpow. lia.
      * cbn in Hfuel; lia.
    + eapply Hlast; eauto; cbn in *; try lia.
Qed.

Lemma readUvarint_put x f os pre rest :
  x < 2 ^ 64 →
  at_pos f os pre (wal.encodeVarint x ++ rest) →
  wal.readUvarint f os
  = (Ok (x, length (wal.encodeVarint x)), moved f (length (wal.encodeVarint x)), os).
Proof.
  intros Hx Hat. unfold wal.readUvarint, wal.encodeVarint in *.
  pose proof Hat as (_ & Hc & Hp).
  erewrite readUvarint_loop_put with (i := 0%nat);
    [| exact Hat | done | done | | | ].
  - by rewrite N.pow_0_r, N.mul_1_r, N.add_0_l.
  - by vm_compute.
  - by rewrite N.pow_0_r, N.mul_1_r, N.add_0_l.
  - rewrite Hc, Hp, !length_app. lia.
Qed.

End varint.

(** * The buffers of [Write] and [WriteBatch] *)

Section buffers.

Lemma insert_fill (pre : list byte) k off t :
  off = length pre →
  <[off := t]> (pre ++ replicate (S k) x00) = (pre ++ [t]) ++ replicate k x00.
Proof.
  intros ->. rewrite <- (Nat.add_0_r (length pre)).
  rewrite insert_app_r. cbn. by rewrite <- app_assoc.
Qed.

Lemma copy_fill (pre : list byte) k off src :
  off = length pre → length src ≤ k →
  copy (pre ++ replicate k x00) off src
  = (pre ++ src) ++ replicate (k - length src) x00.
Proof.
  intros -> Hk. unfold copy.
  rewrite take_app_length, drop_app_add, drop_replicate.
  rewrite take_ge; [by rewrite <- app_assoc|].
  rewrite length_app, length_replicate. lia.
Qed.

Lemma payload_length r :
  length (spec.payload r)
  = 1 + length (wal.encodeVarint (N.of_nat (length (wal.Key r))))
    + length (wal.encodeVarint (N.of_nat (length (wal.Value r))))
    + length (wal.Key r) + length (wal.Value r).
Proof. unfold spec.payload. rewrite !length_app. cbn. lia. Qed.

Lemma layout_length r : length (spec.layout r) = length (spec.payload r) + 4.
Proof. unfold spec.layout. by rewrite length_app. Qed.

(** One record written into the zeroed tail of a buffer, as both loops do. *)
Lemma WriteBatch_step_fill pre k r :
  length (spec.layout r) ≤ k →
  wal.WriteBatch_step (pre ++ replicate k x00, length pre) r
  = ((pre ++ spec.layout r) ++ replicate (k - length (spec.layout r)) x00,
     length pre + length (spec.layout r)).
Proof.
  intros Hk. rewrite layout_length, payload_length in Hk.
  unfold wal.WriteBatch_step. cbv beta iota zeta.
  set (kl := wal.encodeVarint (N.of_nat (length (wal.Key r)))) in *.
  set (vl := wal.encodeVarint (N.of_nat (length (wal.Value r)))) in *.
  destruct k as [|k]; [lia|].
  rewrite insert_fill by done.
  rewrite copy_fill by (rewrite ?length_app; cbn [length]; lia).
  rewrite copy_fill by (rewrite ?length_app; cbn [length]; lia).
  rewrite copy_fill by (rewrite ?length_app; cbn [length]; lia).
  rewrite copy_fill by (rewrite ?length_app; cbn [length]; lia).
  assert (((((pre ++ [wal.Type_ r]) ++ kl) ++ vl) ++ wal.Key r) ++ wal.Value r
          = pre ++ spec.payload r) as ->.
  { unfold spec.payload. fold kl vl. by rewrite <- !app_assoc. }
  replace (length pre + 1 + length kl + length vl + length (wal.Key r)
           + length (wal.Value r) - (1 + length kl + length vl
           + length (wal.Key r) + length (wal.Value r)))
    with (length pre) by lia.
  rewrite <- app_assoc, drop_app_length.
  replace (1 + length kl + length vl + length (wal.Key r) + length (wal.Value r))
    with (length (spec.payload r)) by (rewrite payload_length; fold kl vl; lia).
  rewrite take_app_length, app_assoc.
  rewrite copy_fill.
  - rewrite layout_length, payload_length. fold kl vl.
    unfold spec.layout. cbn [length binary.PutUint32].
    match goal with
    | |- (_ ++ replicate ?a _, _) = (_ ++ replicate ?b _, _) =>
        replace a with b by lia
    end.
    rewrite <- !app_assoc. f_equal. lia.
  - rewrite length_app, payload_length. fold kl vl. lia.
  - cbn [length binary.PutUint32]. lia.
Qed.

Theorem Write_buf_layout r : wal.Write_buf r = spec.layout r.
Proof.
  unfold wal.Write_buf, make. cbv beta iota zeta.
  set (kl := wal.encodeVarint (N.of_nat (length (wal.Key r)))).
  set (vl := wal.encodeVarint (N.of_nat (length (wal.Value r)))).
  replace (1 + length kl + length vl + length (wal.Key r) + length (wal.Value r) + 4)
    with (S (length kl + length vl + length (wal.Key r) + length (wal.Value r) + 4))
    by lia.
  change (<[0 := wal.Type_ r]> (replicate (S ?n) x00))
    with ([wal.Type_ r] ++ replicate n x00).
  rewrite copy_fill by (rewrite ?length_app; cbn [length]; lia).
  rewrite copy_fill by (rewrite ?length_app; cbn [length]; lia).
  rewrite copy_fill by (rewrite ?length_app; cbn [length]; lia).
  rewrite copy_fill by (rewrite ?length_app; cbn [length]; lia).
  assert (((([wal.Type_ r] ++ kl) ++ vl) ++ wal.Key r) ++ wal.Value r
          = spec.payload r) as ->.
  { unfold spec.payload. fold kl vl. by rewrite <- !app_assoc. }
  rewrite take_app_length' by (rewrite payload_length; fold kl vl; lia).
  rewrite copy_fill.
  - cbn [length binary.PutUint32].
    match goal with
    | |- _ ++ replicate ?a _ = _ => replace a with 0 by lia
    end.
    by rewrite app_nil_r.
  - rewrite payload_length. fold kl vl. lia.
  - cbn [length binary.PutUint32]. lia.
Qed.

Lemma WriteBatch_totalSize_sum rs :
  wal.WriteBatch_totalSize rs = length (concat (map spec.layout rs)).
Proof.
  unfold wal.WriteBatch_totalSize.
  assert (∀ n, fold_left
    (λ totalSize record,
       totalSize + (1 + length (wal.encodeVarint (N.of_nat (length (wal.Key record))))
         + length (wal.encodeVarint (N.of_nat (length (wal.Value record))))
         + length (wal.Key record) + length (wal.Value record) + 4)) rs n
    = n + length (concat (map spec.layout rs))) as H.
  { induction rs as [|r rs IH]; intros n; cbn [fold_left map concat].
    - cbn. lia.
    - rewrite IH, length_app, layout_length, payload_length. lia. }
  apply (H 0).
Qed.

Lemma WriteBatch_fold_fill rs : ∀ pre k,
  length (concat (map spec.layout rs)) ≤ k →
  fold_left wal.WriteBatch_step rs (pre ++ replicate k x00, length pre)
  = ((pre ++ concat (map spec.layout rs))
       ++ replicate (k - length (concat (map spec.layout rs))) x00,
     length pre + length (concat (map spec.layout rs))).
Proof.
  induction rs as [|r rs IH]; intros pre k Hk; cbn [fold_left map concat] in *.
  - cbn [length]. by rewrite app_nil_r, Nat.sub_0_r, Nat.add_0_r.
  - rewrite length_app in Hk.
    rewrite WriteBatch_step_fill by lia.
    rewrite <- length_app. rewrite IH by lia.
    rewrite !length_app, <- !app_assoc.
    match goal with
    | |- (_ ++ _ ++ _ ++ replicate ?a _, _) = (_ ++ _ ++ _ ++ replicate ?b _, _) =>
        replace a with b by lia
    end.
    f_equal. lia.
Qed.

Theorem WriteBatch_buf_layout rs :
  wal.WriteBatch_buf rs = concat (map spec.layout rs).
Proof.
  unfold wal.WriteBatch_buf, make. rewrite WriteBatch_totalSize_sum.
  pose proof (WriteBatch_fold_fill rs [] _ (le_n _)) as H.
  cbn [app length] in H. rewrite H. cbn [fst].
  by rewrite Nat.sub_diag, app_nil_r.
Qed.

End buffers.

(** * Writing to a quiet file *)

Section writing.

Lemma contents_set os path data : contents (set_contents os path data) path = data.
Proof. unfold contents, set_contents. cbn. by rewrite lookup_insert_eq. Qed.

Lemma set_contents_twice os path d1 d2 :
  set_contents (set_contents os path d1) path d2 = set_contents os path d2.
Proof. unfold set_contents. cbn. by rewrite insert_insert_eq. Qed.

Lemma script_set os path data : script (set_contents os path data) = script os.
Proof. done. Qed.

Lemma write_at_length data p buf : p + length buf ≤ length (write_at data p buf).
Proof.
  unfold write_at. rewrite !length_app, length_take, length_replicate. lia.
Qed.

Lemma write_at_app data p b1 b2 :
  write_at (write_at data p b1) (p + length b1) b2 = write_at data p (b1 ++ b2).
Proof.
  pose proof (write_at_length data p b1) as Hl.
  unfold write_at at 1.
  replace (p + length b1 - length (write_at data p b1)) with 0 by lia.
  cbn [replicate app].
  unfold write_at.
  assert (length (take p data ++ replicate (p - length data) x00) = p) as Hp.
  { rewrite length_app, length_take, length_replicate. lia. }
  rewrite (app_assoc (take p data)).
  rewrite (app_assoc (take p data ++ _) b1).
  rewrite take_app_length' by (rewrite length_app; lia).
  rewrite drop_app_add' by (rewrite length_app; lia).
  rewrite drop_drop, length_app, <- !app_assoc.
  by rewrite Nat.add_assoc.
Qed.

Lemma write_at_end data buf : write_at data (length data) buf = data ++ buf.
Proof.
  unfold write_at. rewrite firstn_all, Nat.sub_diag, drop_ge by lia.
  cbn. by rewrite app_nil_r.
Qed.

Lemma put_script f os buf : script (put f os buf).2 = script os.
Proof. by destruct buf. Qed.

Lemma put_name f os buf : name (put f os buf).1 = name f.
Proof. by destruct buf. Qed.

Lemma put_pos f os buf : pos (put f os buf).1 = pos f + length buf.
Proof. destruct buf; cbn; lia. Qed.

Lemma put_app f os b1 b2 :
  put f os (b1 ++ b2) = put (put f os b1).1 (put f os b1).2 b2.
Proof.
  destruct b1 as [|x b1]; [done|].
  destruct b2 as [|y b2]; [by rewrite app_nil_r|].
  change (put f os (x :: b1)) with
    (moved f (length (x :: b1)),
     set_contents os (name f) (write_at (contents os (name f)) (pos f) (x :: b1))).
  cbn [fst snd].
  change (put ?g ?o (y :: b2)) with
    (moved g (length (y :: b2)),
     set_contents o (name g) (write_at (contents o (name g)) (pos g) (y :: b2))).
  change (put f os ((x :: b1) ++ y :: b2)) with
    (moved f (length ((x :: b1) ++ y :: b2)),
     set_contents os (name f)
       (write_at (contents os (name f)) (pos f) ((x :: b1) ++ y :: b2))).
  rewrite moved_moved. cbn [name pos moved].
  rewrite contents_set, set_contents_twice.
  rewrite write_at_app. by rewrite length_app.
Qed.

Lemma file_Write_quiet buf f os :
  script os = [] →
  file_Write buf f os = (Ok (length buf), (put f os buf).1, (put f os buf).2).
Proof.
  intros Hs. unfold file_Write. rewrite next_fault_quiet by done.
  by destruct buf.
Qed.

Lemma file_Sync_quiet f os : script os = [] → file_Sync f os = (Ok tt, f, os).
Proof. intros Hs. unfold file_Sync. by rewrite next_fault_quiet. Qed.

Lemma flush_quiet w buf os :
  script os = [] →
  wal.on_file w (_ <- file_Write buf ;;
                 if wal.syncOps w then file_Sync else ret tt) os
  = (Ok tt, wal.mkWAL (put (wal.file w) os buf).1 (wal.size w) (wal.syncOps w),
     (put (wal.file w) os buf).2).
Proof.
  intros Hs. unfold wal.on_file, bind.
  rewrite file_Write_quiet by done.
  destruct (wal.syncOps w).
  - rewrite file_Sync_quiet; [done|]. by rewrite put_script.
  - done.
Qed.

Lemma Write_quiet w r os :
  script os = [] →
  wal.Write w r os
  = (Ok tt, (wrote w os (spec.layout r)).1, (wrote w os (spec.layout r)).2).
Proof.
  intros Hs. unfold wal.Write. rewrite flush_quiet by done.
  by rewrite Write_buf_layout.
Qed.

Lemma WriteBatch_quiet w rs os :
  script os = [] →
  wal.WriteBatch w rs os
  = (Ok tt, (wrote w os (concat (map spec.layout rs))).1,
     (wrote w os (concat (map spec.layout rs))).2).
Proof.
  intros Hs. unfold wal.WriteBatch. rewrite flush_quiet by done.
  by rewrite WriteBatch_totalSize_sum, WriteBatch_buf_layout.
Qed.

Lemma wrote_nil w os : wrote w os [] = (w, os).
Proof.
  unfold wrote. cbn. destruct w. cbn. do 2 f_equal. lia.
Qed.

Lemma wrote_app w os b1 b2 :
  wrote w os (b1 ++ b2) = wrote (wrote w os b1).1 (wrote w os b1).2 b2.
Proof.
  unfold wrote. cbn [fst snd wal.file wal.size wal.syncOps].
  rewrite put_app, length_app. do 2 f_equal. lia.
Qed.

Lemma Write_all_quiet rs : ∀ w os,
  script os = [] →
  spec.Write_all w rs os
  = (Ok tt, (wrote w os (concat (map spec.layout rs))).1,
     (wrote w os (concat (map spec.layout rs))).2).
Proof.
  induction rs as [|r rs IH]; intros w os Hs; cbn [spec.Write_all map concat].
  - by rewrite wrote_nil.
  - rewrite Write_quiet by done. rewrite IH.
    + by rewrite wrote_app.
    + unfold wrote. cbn [snd]. by rewrite put_script.
Qed.

End writing.

(** * Decoding a record *)

Section decoding.

Lemma bind_ok {A B} {m : IO A} {k : A → IO B} {f os a f' os'} :
  m f os = (Ok a, f', os') → bind m k f os = k a f' os'.
Proof. unfold bind. by intros ->. Qed.

Lemma file_Seek_quiet n f os :
  script os = [] →
  file_Seek (Z.of_nat n) f os = (Ok (Z.of_nat n), mkFile (name f) n, os).
Proof.
  intros Hs. unfold file_Seek. rewrite next_fault_quiet by done.
  destruct (Z.ltb_spec (Z.of_nat n) 0); [lia|]. by rewrite Nat2Z.id.
Qed.

Lemma int_fits_uint64 n : (Z.of_nat n < 2 ^ 63)%Z → (N.of_nat n < 2 ^ 64)%N.
Proof.
  intros H. change (2 ^ 63)%Z with 9223372036854775808%Z in H.
  change (2 ^ 64)%N with 18446744073709551616%N. lia.
Qed.

Lemma int_fits_make n : (Z.of_nat n < 2 ^ 63)%Z → (N.of_nat n < 2 ^ 63)%N.
Proof.
  intros H. change (2 ^ 63)%Z with 9223372036854775808%Z in H.
  change (2 ^ 63)%N with 9223372036854775808%N. lia.
Qed.

Lemma make_ReadFull_at f os pre bs rest :
  (Z.of_nat (length bs) < 2 ^ 63)%Z →
  at_pos f os pre (bs ++ rest) →
  wal.make_ReadFull (N.of_nat (length bs)) f os
  = (Ok bs, moved f (length bs), os).
Proof.
  intros Hl Hat. unfold wal.make_ReadFull.
  apply int_fits_make in Hl.
  destruct (N.leb_spec (2 ^ 63) (N.of_nat (length bs))); [lia|].
  by apply io_ReadFull_at with (pre := pre) (rest := rest).
Qed.

(** The reads of [Next] on a file that holds, at the offset of the
    iterator, the payload of [r] followed by four bytes. *)
Lemma Next_read_payload it f os pre r crcb post :
  script os = [] →
  contents os (name f) = pre ++ spec.payload r ++ crcb ++ post →
  length crcb = 4 →
  wal.Iterator.offset it = Z.of_nat (length pre) →
  spec.put_or_delete r → spec.go_slices r →
  wal.Iterator.Next_read it f os
  = (if (crc32.ChecksumIEEE (spec.payload r) =? binary.Uint32 crcb)%N
     then Ok (r, Z.of_nat (length (spec.payload r) + 4))
     else Err ErrInvalidChecksum,
     mkFile (name f) (length pre + length (spec.payload r)), os).
Proof.
  intros Hs Hc Hcrc Hoff Hty [Hk Hv].
  pose proof (payload_length r) as Hpl.
  destruct r as [ty key value]. unfold spec.payload in *. cbn [wal.Type_ wal.Key wal.Value] in *.
  set (kl := wal.encodeVarint (N.of_nat (length key))) in *.
  set (vl := wal.encodeVarint (N.of_nat (length value))) in *.
  unfold wal.Iterator.Next_read. rewrite Hoff.
  set (f0 := mkFile (name f) (length pre)).
  assert (at_pos f0 os pre ([ty] ++ kl ++ vl ++ key ++ value ++ crcb ++ post)) as H0.
  { split; [done|]. split; [|done]. cbn [name f0]. rewrite Hc.
    by rewrite <- !app_assoc. }
  assert (at_pos f0 os pre (([ty] ++ kl ++ vl ++ key ++ value) ++ crcb ++ post)) as H0'.
  { by rewrite <- !app_assoc. }
  rewrite (bind_ok (file_Seek_quiet _ f os Hs)). fold f0.
  rewrite (bind_ok (file_Read1_at f0 os pre ty _ H0)).
  apply at_pos_moved in H0. cbn [nth].
  assert (negb (Byte.eqb ty wal.TypePut) && negb (Byte.eqb ty wal.TypeDelete) = false) as ->.
  { unfold spec.put_or_delete in Hty. cbn [wal.Type_] in Hty.
    clear -Hty. by destruct Hty as [-> | ->]. }
  rewrite (bind_ok (readUvarint_put _ _ os _ _ (int_fits_uint64 _ Hk) H0)). fold kl.
  apply at_pos_moved in H0.
  rewrite (bind_ok (readUvarint_put _ _ os _ _ (int_fits_uint64 _ Hv) H0)). fold vl.
  apply at_pos_moved in H0.
  rewrite (bind_ok (make_ReadFull_at _ os _ _ _ Hk H0)).
  apply at_pos_moved in H0.
  rewrite (bind_ok (make_ReadFull_at _ os _ _ _ Hv H0)).
  apply at_pos_moved in H0.
  replace 4%N with (N.of_nat (length crcb)) by (by rewrite Hcrc).
  rewrite (bind_ok (io_ReadFull_at _ os _ _ _ H0)).
  rewrite (bind_ok (file_Seek_quiet _ _ os Hs)).
  cbn [name moved]. fold f0.
  replace (Z.to_N (1 + Z.of_nat (length kl) + Z.of_nat (length vl)
             + Z.of_N (N.of_nat (length key)) + Z.of_N (N.of_nat (length value))
             + 4 - 4))
    with (N.of_nat (length ([ty] ++ kl ++ vl ++ key ++ value))) by lia.
  rewrite (bind_ok (io_ReadFull_at _ os _ _ _ H0')).
  destruct (N.eqb_spec (crc32.ChecksumIEEE ([ty] ++ kl ++ vl ++ key ++ value))
              (binary.Uint32 crcb)) as [E|E]; cbn [negb].
  - unfold ret. cbn [moved name pos f0]. repeat f_equal. lia.
  - unfold raise. done.
Qed.

Lemma Next_layout it os pre r post :
  script os = [] →
  contents os (name (wal.Iterator.file it)) = pre ++ spec.layout r ++ post →
  wal.Iterator.offset it = Z.of_nat (length pre) →
  (wal.Iterator.offset it < wal.Iterator.fileEnd it)%Z →
  spec.put_or_delete r → spec.go_slices r →
  wal.Iterator.Next it os
  = (Ok r,
     wal.Iterator.mk
       (mkFile (name (wal.Iterator.file it)) (length pre + length (spec.payload r)))
       (Z.of_nat (length (pre ++ spec.layout r)))
       (wal.Iterator.fileEnd it),
     os).
Proof.
  intros Hs Hc Hoff Hend Hty Hsl. unfold wal.Iterator.Next.
  destruct (Z.leb_spec (wal.Iterator.fileEnd it) (wal.Iterator.offset it)); [lia|].
  unfold spec.layout in Hc. rewrite <- app_assoc in Hc.
  rewrite (Next_read_payload it _ os pre r _ post Hs Hc eq_refl Hoff Hty Hsl).
  rewrite Uint32_checksum, N.eqb_refl.
  rewrite Hoff, length_app, layout_length. do 3 f_equal. lia.
Qed.

Lemma Next_all_layouts rs : ∀ it os pre n,
  script os = [] →
  contents os (name (wal.Iterator.file it)) = pre ++ concat (map spec.layout rs) →
  wal.Iterator.offset it = Z.of_nat (length pre) →
  wal.Iterator.fileEnd it = Z.of_nat (length (pre ++ concat (map spec.layout rs))) →
  Forall spec.put_or_delete rs → Forall spec.go_slices rs →
  length rs < n →
  spec.Next_all n it os = map Ok rs ++ [Err EOF].
Proof.
  induction rs as [|r rs IH]; intros it os pre n Hs Hc Hoff Hend Hty Hsl Hn;
    (destruct n as [|n]; [cbn in Hn; lia|]); cbn [spec.Next_all map concat app] in *.
  - unfold wal.Iterator.Next. rewrite app_nil_r in Hend.
    destruct (Z.leb_spec (wal.Iterator.fileEnd it) (wal.Iterator.offset it)); [done|lia].
  - inversion Hty; inversion Hsl; subst.
    rewrite (Next_layout it os pre r (concat (map spec.layout rs))); try done.
    + f_equal. apply (IH _ _ (pre ++ spec.layout r)); try done.
      * cbn. by rewrite <- app_assoc.
      * cbn. by rewrite <- app_assoc.
      * cbn in Hn. lia.
    + rewrite Hoff, Hend, !length_app, layout_length. lia.
Qed.

End decoding.

(** * The log as a whole *)

Section log.

Lemma Open_quiet path syncOps os :
  script os = [] →
  ∃ os0,
    wal.Open path syncOps os
    = (Ok (wal.mkWAL (mkFile path 0) (Z.of_nat (length (contents os path))) syncOps),
       os0)
    ∧ script os0 = [] ∧ contents os0 path = contents os path
    ∧ is_Some (files os0 !! path).
Proof.
  intros Hs. unfold wal.Open, os_OpenFile_create_rdwr.
  rewrite next_fault_quiet by done.
  destruct (files os !! path) as [data|] eqn:E.
  - exists os. unfold file_Stat. rewrite next_fault_quiet by done.
    cbn [name]. by rewrite E.
  - exists (set_contents os path []). unfold file_Stat.
    rewrite next_fault_quiet by done. cbn [name].
    rewrite contents_set. unfold contents. rewrite E.
    repeat split; try done.
    cbn. rewrite lookup_insert_eq. by eexists.
Qed.

Lemma put_exists f os buf :
  is_Some (files os !! name f) → is_Some (files (put f os buf).2 !! name f).
Proof.
  destruct buf; [done|]. intros _. cbn. rewrite lookup_insert_eq. by eexists.
Qed.

Lemma put_contents f os buf :
  pos f = length (contents os (name f)) →
  contents (put f os buf).2 (name f) = contents os (name f) ++ buf.
Proof.
  intros Hp. destruct buf as [|b buf]; [by rewrite app_nil_r|].
  cbn [put snd]. by rewrite contents_set, Hp, write_at_end.
Qed.

Lemma NewIterator_quiet w os :
  script os = [] → is_Some (files os !! name (wal.file w)) →
  wal.NewIterator w os
  = (Ok (wal.Iterator.mk (mkFile (name (wal.file w)) 0) 0 (wal.size w)), os).
Proof.
  intros Hs [data Hd]. unfold wal.NewIterator, os_Open.
  rewrite next_fault_quiet by done. by rewrite Hd.
Qed.

Lemma layout_length_pos r : 7 ≤ length (spec.layout r).
Proof.
  rewrite layout_length, payload_length.
  pose proof (PutUvarint_length_pos 9 (N.of_nat (length (wal.Key r)))).
  pose proof (PutUvarint_length_pos 9 (N.of_nat (length (wal.Value r)))).
  unfold wal.encodeVarint. lia.
Qed.

Lemma layouts_length rs : length rs ≤ length (concat (map spec.layout rs)).
Proof.
  induction rs as [|r rs IH]; cbn [map concat length]; [lia|].
  rewrite length_app. pose proof (layout_length_pos r). lia.
Qed.

Lemma layouts_go_slices rs :
  (Z.of_nat (length (concat (map spec.layout rs))) < 2 ^ 63)%Z →
  Forall spec.go_slices rs.
Proof.
  induction rs as [|r rs IH]; cbn [map concat]; intros Hl; constructor.
  - rewrite length_app, layout_length, payload_length in Hl.
    unfold spec.go_slices. lia.
  - apply IH. rewrite length_app in Hl. lia.
Qed.

(** A file that satisfies the invariant of the specification is read to
    its end by the iterator. *)
Lemma is_log_scan data it os :
  spec.is_log data → (Z.of_nat (length data) < 2 ^ 63)%Z →
  script os = [] →
  contents os (name (wal.Iterator.file it)) = data →
  wal.Iterator.offset it = 0%Z →
  wal.Iterator.fileEnd it = Z.of_nat (length data) →
  ∃ rs, spec.Next_all (S (length data)) it os = map Ok rs ++ [Err EOF].
Proof.
  intros (rs & Hty & ->) Hl Hs Hc Hoff Hend. exists rs.
  apply (Next_all_layouts rs it os []); try done.
  - by apply layouts_go_slices.
  - pose proof (layouts_length rs). lia.
Qed.

End log.

(** * Theorems on the write-ahead log *)

(** C4.  On an operating system that injects no fault, for every sequence
    of records (Put or Delete, the two types a record has) written with
    [Write] to a log that starts empty, an iterator opened afterwards yields
    exactly those records, in write order and with identical type, key and
    value bytes, and then the end-of-log signal. *)
Theorem wal_roundtrip path syncOps rs os :
  script os = [] → contents os path = [] →
  Forall spec.put_or_delete rs → Forall spec.go_slices rs →
  spec.roundtrip path syncOps rs os = Some (map Ok rs ++ [Err EOF]).
Proof.
  intros Hs Hc Hty Hsl. unfold spec.roundtrip.
  destruct (Open_quiet path syncOps os Hs) as (os0 & -> & Hs0 & Hc0 & Hex).
  rewrite Hc in *. cbn [length Z.of_nat].
  set (w0 := wal.mkWAL (mkFile path 0) 0 syncOps).
  rewrite Write_all_quiet by done.
  set (data := concat (map spec.layout rs)).
  assert (script (wrote w0 os0 data).2 = []) as Hs1.
  { unfold wrote. cbn [snd]. by rewrite put_script. }
  rewrite NewIterator_quiet; [|done|].
  2:{ unfold wrote. cbn [fst snd wal.file]. rewrite put_name.
      by apply put_exists. }
  f_equal. apply (Next_all_layouts rs _ _ []); try done.
  - pose proof (put_contents (mkFile path 0) os0 data) as Hpc.
    cbn [name pos] in Hpc.
    unfold wrote. cbn [fst snd wal.Iterator.file wal.file name w0].
    rewrite put_name. cbn [name]. rewrite Hpc; by rewrite Hc0.
  - lia.
Qed.

Lemma wal_roundtrip_witness :
  spec.roundtrip "wal" false
    [wal.mkRecord wal.TypePut [x61] [x31]; wal.mkRecord wal.TypeDelete [x61] []]
    (mkOS ∅ [])
  = Some [Ok (wal.mkRecord wal.TypePut [x61] [x31]);
          Ok (wal.mkRecord wal.TypeDelete [x61] []); Err EOF].
Proof.
  apply (wal_roundtrip "wal" false
           [wal.mkRecord wal.TypePut [x61] [x31]; wal.mkRecord wal.TypeDelete [x61] []]
           (mkOS ∅ [])).
  - reflexivity.
  - reflexivity.
  - repeat (apply Forall_cons_2; [first [by left | by right]|]). apply Forall_nil_2.
  - repeat constructor.
Defined.

(** The type of the records matters: [Write] accepts any type byte, and
    [Next] answers [ErrInvalidRecord] when it reads back a type byte that is
    neither 1 nor 2. *)
Remark roundtrip_needs_known_type :
  ¬ (∀ path syncOps rs os,
       script os = [] → contents os path = [] → Forall spec.go_slices rs →
       spec.roundtrip path syncOps rs os = Some (map Ok rs ++ [Err EOF])).
Proof.
  intros H.
  specialize (H "wal" false [wal.mkRecord x00 [] []] (mkOS ∅ [])
                eq_refl eq_refl ltac:(repeat constructor)).
  vm_compute in H. discriminate H.
Qed.

(** C8.  On an operating system that injects no fault, [WriteBatch] fills
    its buffer with the concatenation of the buffers that [Write] fills for
    each record, every record ending in the CRC32 of its own bytes; the log
    and the file are left in the very state that the sequential [Write]s
    leave, so that a replay reads the same records. *)
Theorem WriteBatch_equivalence w rs os :
  script os = [] →
  wal.WriteBatch_buf rs = concat (map wal.Write_buf rs)
  ∧ Forall (λ r, wal.Write_buf r
                 = spec.payload r
                   ++ binary.PutUint32 (crc32.ChecksumIEEE (spec.payload r))) rs
  ∧ wal.WriteBatch w rs os = spec.Write_all w rs os
  ∧ spec.replay (wal.WriteBatch w rs os).1.2 (wal.WriteBatch w rs os).2
    = spec.replay (spec.Write_all w rs os).1.2 (spec.Write_all w rs os).2.
Proof.
  intros Hs.
  assert (wal.WriteBatch w rs os = spec.Write_all w rs os) as He.
  { rewrite WriteBatch_quiet, Write_all_quiet by done. done. }
  repeat split.
  - rewrite WriteBatch_buf_layout. f_equal. apply map_ext.
    intros r. by rewrite Write_buf_layout.
  - apply Forall_forall. intros r _. by rewrite Write_buf_layout.
  - done.
  - by rewrite He.
Qed.

Lemma WriteBatch_equivalence_witness :
  let rs := [wal.mkRecord wal.TypePut [x61] [x31];
             wal.mkRecord wal.TypePut [x62] [x32];
             wal.mkRecord wal.TypeDelete [x61] []] in
  let w := wal.mkWAL (mkFile "wal" 0) 0 true in
  let os := mkOS {[ "wal" := [] ]} [] in
  wal.WriteBatch w rs os = spec.Write_all w rs os.
Proof.
  intros rs w os.
  exact (proj1 (proj2 (proj2 (WriteBatch_equivalence w rs os eq_refl)))).
Defined.

(** * What a successful read has consumed *)

Section inversion.

Lemma next_fault_files os : files (next_fault os).2 = files os.
Proof. unfold next_fault. by destruct (script os). Qed.

Lemma contents_files os os' path :
  files os' = files os → contents os' path = contents os path.
Proof. unfold contents. by intros ->. Qed.

Lemma consumed_nil f os os' : files os' = files os → consumed f os [] f os'.
Proof.
  intros H. repeat split; [by eexists | by rewrite moved_0 | done].
Qed.

Lemma consumed_intro f os got rest os' :
  drop (pos f) (contents os (name f)) = got ++ rest → files os' = files os →
  consumed f os got (moved f (length got)) os'.
Proof. intros H1 H2. split; [by exists rest|done]. Qed.

Lemma consumed_app f os a f1 os1 b f2 os2 :
  consumed f os a f1 os1 → consumed f1 os1 b f2 os2 →
  consumed f os (a ++ b) f2 os2.
Proof.
  intros ([ra Ha] & -> & Hf1) ([rb Hb] & -> & Hf2).
  cbn [name pos moved] in Hb.
  rewrite (contents_files os os1) in Hb by done.
  rewrite <- drop_drop, Ha, drop_app_length in Hb. subst ra.
  repeat split.
  - exists rb. by rewrite Ha, <- app_assoc.
  - by rewrite moved_moved, length_app.
  - congruence.
Qed.

Lemma file_Seek_inv off f os v f' os' :
  file_Seek off f os = (Ok v, f', os') →
  (0 ≤ off)%Z ∧ f' = mkFile (name f) (Z.to_nat off) ∧ files os' = files os.
Proof.
  unfold file_Seek. pose proof (next_fault_files os) as Hf.
  destruct (next_fault os) as [[flt|] os1]; [done|]. cbn [snd] in Hf.
  destruct (Z.ltb_spec off 0); [done|].
  intros [= <- <- <-]. done.
Qed.

Lemma file_Read_inv n f os got f' os' :
  file_Read n f os = (Ok got, f', os') →
  consumed f os got f' os' ∧ (N.of_nat (length got) ≤ n)%N
  ∧ (n ≠ 0%N → got ≠ []).
Proof.
  unfold file_Read. pose proof (next_fault_files os) as Hf.
  destruct (next_fault os) as [[flt|] os1]; [done|]. cbn [snd] in Hf.
  destruct (N.eqb_spec n 0) as [->|Hn].
  { intros [= <- <- <-]. split; [by apply consumed_nil|]. split; [done|].
    by intros []. }
  rewrite (contents_files os os1) by done.
  destruct (drop (pos f) (contents os (name f))) as [|b avail] eqn:E; [done|].
  intros [= <- <- <-].
  destruct (N.leb_spec (N.of_nat (S (length avail))) n) as [Hl|Hl].
  - split; [|split; [done|by intros _]].
    apply (consumed_intro _ _ _ []); [|done].
    by rewrite app_nil_r.
  - split; [|split].
    + apply (consumed_intro _ _ _ (drop (N.to_nat n) (b :: avail))); [|done].
      by rewrite take_drop.
    + rewrite length_take. lia.
    + destruct (N.to_nat n) eqn:En; [lia|]. done.
Qed.

Lemma io_ReadFull_inv n f os got f' os' :
  io_ReadFull n f os = (Ok got, f', os') →
  consumed f os got f' os' ∧ N.of_nat (length got) = n.
Proof.
  unfold io_ReadFull. destruct (N.eqb_spec n 0) as [->|Hn].
  { intros [= <- <- <-]. split; [by apply consumed_nil|done]. }
  destruct (file_Read n f os) as [[[a| | |] f1] os1] eqn:E1; try done.
  apply file_Read_inv in E1 as (Hc1 & Hl1 & _).
  destruct (N.eqb_spec (N.of_nat (length a)) n) as [Ha|Ha].
  { intros [= <- <- <-]. done. }
  destruct (file_Read (n - N.of_nat (length a)) f1 os1)
    as [[[b|[]| |] f2] os2] eqn:E2; try done.
  apply file_Read_inv in E2 as (Hc2 & Hl2 & _).
  destruct (N.eqb_spec (N.of_nat (length (a ++ b))) n) as [Hb|Hb]; [|done].
  intros [= <- <- <-]. split; [|done]. by eapply consumed_app.
Qed.

Lemma readUvarint_loop_inv fuel : ∀ x s i f os v j f' os',
  wal.readUvarint_loop fuel x s i f os = (Ok (v, j), f', os') →
  ∃ bs, consumed f os bs f' os' ∧ j = i + length bs.
Proof.
  induction fuel as [|fuel IH]; intros x s i f os v j f' os'; [done|].
  cbn [wal.readUvarint_loop]. unfold bind.
  destruct (file_Read 1 f os) as [[[a| | |] f1] os1] eqn:E1; try done.
  apply file_Read_inv in E1 as (Hc1 & Hl1 & Hn1).
  assert (length a = 1) as Hla.
  { specialize (Hn1 ltac:(done)). destruct a as [|? [|]]; cbn in *; try done; lia. }
  destruct (Byte.to_N (nth 0 a x00) <? 128)%N.
  - destruct ((9 <? i) || (i =? 9) && (1 <? Byte.to_N (nth 0 a x00))%N); [done|].
    intros [= <- <- <- <-]. exists a. split; [done|lia].
  - intros H. apply IH in H as (bs & Hc2 & ->).
    exists (a ++ bs). split; [by eapply consumed_app|].
    rewrite length_app. lia.
Qed.

Lemma readUvarint_inv f os v j f' os' :
  wal.readUvarint f os = (Ok (v, j), f', os') →
  ∃ bs, consumed f os bs f' os' ∧ j = length bs.
Proof.
  unfold wal.readUvarint. intros H.
  apply readUvarint_loop_inv in H as (bs & Hc & ->). by exists bs.
Qed.

Lemma make_ReadFull_inv n f os got f' os' :
  wal.make_ReadFull n f os = (Ok got, f', os') →
  consumed f os got f' os' ∧ N.of_nat (length got) = n.
Proof.
  unfold wal.make_ReadFull. destruct (2 ^ 63 <=? n)%N; [done|].
  apply io_ReadFull_inv.
Qed.

Lemma bind_inv {A B} (m : IO A) (k : A → IO B) f os b f' os' :
  bind m k f os = (Ok b, f', os') →
  ∃ a f1 os1, m f os = (Ok a, f1, os1) ∧ k a f1 os1 = (Ok b, f', os').
Proof.
  unfold bind. destruct (m f os) as [[[a| | |] f1] os1]; try done.
  intros H. by exists a, f1, os1.
Qed.

(** The record that [Next] returns is the one that the file holds at the
    offset, followed by the CRC32 of its bytes. *)
Lemma Next_read_inv it f os r recordSize f' os' :
  wal.Iterator.Next_read it f os = (Ok (r, recordSize), f', os') →
  ∃ pre kb vb crcb post,
    contents os (name f)
    = pre ++ ([wal.Type_ r] ++ kb ++ vb ++ wal.Key r ++ wal.Value r ++ crcb) ++ post
    ∧ wal.Iterator.offset it = Z.of_nat (length pre)
    ∧ recordSize
      = Z.of_nat (length ([wal.Type_ r] ++ kb ++ vb ++ wal.Key r ++ wal.Value r ++ crcb))
    ∧ length crcb = 4
    ∧ binary.Uint32 crcb
      = crc32.ChecksumIEEE ([wal.Type_ r] ++ kb ++ vb ++ wal.Key r ++ wal.Value r).
Proof.
  unfold wal.Iterator.Next_read. intros H.
  apply bind_inv in H as (? & f0 & os0 & Hseek & H).
  apply file_Seek_inv in Hseek as (Hoff & -> & Hf0).
  apply bind_inv in H as (typeBuf & f1 & os1 & Hty & H).
  apply file_Read_inv in Hty as (Hc1 & Hl1 & Hn1).
  destruct (negb (Byte.eqb (nth 0 typeBuf x00) wal.TypePut)
            && negb (Byte.eqb (nth 0 typeBuf x00) wal.TypeDelete)); [done|].
  apply bind_inv in H as ([keyLen keyLenSize] & f2 & os2 & Hkl & H).
  apply readUvarint_inv in Hkl as (kb & Hc2 & ->).
  apply bind_inv in H as ([valueLen valueLenSize] & f3 & os3 & Hvl & H).
  apply readUvarint_inv in Hvl as (vb & Hc3 & ->).
  apply bind_inv in H as (key & f4 & os4 & Hkey & H).
  apply make_ReadFull_inv in Hkey as (Hc4 & <-).
  apply bind_inv in H as (value & f5 & os5 & Hvalue & H).
  apply make_ReadFull_inv in Hvalue as (Hc5 & <-).
  apply bind_inv in H as (crcb & f6 & os6 & Hcrc & H).
  apply io_ReadFull_inv in Hcrc as (Hc6 & Hl6).
  apply bind_inv in H as (? & f7 & os7 & Hseek & H).
  apply file_Seek_inv in Hseek as (_ & -> & Hf7).
  apply bind_inv in H as (data & f8 & os8 & Hdata & H).
  apply io_ReadFull_inv in Hdata as (Hc8 & Hl8).
  destruct (N.eqb_spec (crc32.ChecksumIEEE data) (binary.Uint32 crcb)) as [Hsum|];
    [|done].
  cbn [negb] in H. unfold ret in H. injection H as <- <- <- <-.
  cbn [wal.Type_ wal.Key wal.Value].
  assert (length typeBuf = 1) as Hlt.
  { specialize (Hn1 ltac:(done)).
    destruct typeBuf as [|? [|]]; cbn in *; try done; lia. }
  destruct typeBuf as [|ty [|]]; try done. cbn [nth].
  pose proof (consumed_app _ _ _ _ _ _ _ _ Hc1
                (consumed_app _ _ _ _ _ _ _ _ Hc2
                   (consumed_app _ _ _ _ _ _ _ _ Hc3
                      (consumed_app _ _ _ _ _ _ _ _ Hc4
                         (consumed_app _ _ _ _ _ _ _ _ Hc5 Hc6)))))
    as ([post Hall] & Hf6 & Hfs6).
  cbn [name pos] in Hall.
  rewrite (contents_files os os0) in Hall by done.
  assert (Z.to_nat (wal.Iterator.offset it) ≤ length (contents os (name f))) as Hle.
  { destruct (Nat.le_gt_cases (Z.to_nat (wal.Iterator.offset it))
                (length (contents os (name f)))); [done|].
    rewrite drop_ge in Hall by lia. done. }
  exists (take (Z.to_nat (wal.Iterator.offset it)) (contents os (name f))),
    kb, vb, crcb, post.
  assert (length crcb = 4) as Hcrcl by lia.
  repeat split.
  - rewrite <- Hall. by rewrite take_drop.
  - rewrite length_take. lia.
  - rewrite !length_app. cbn [length]. lia.
  - done.
  - rewrite <- Hsum. f_equal.
    destruct Hc8 as ([rest8 H8] & _ & _). rewrite Hf6 in H8.
    cbn [name pos moved] in H8.
    rewrite (contents_files os os7) in H8 by congruence.
    rewrite Hall in H8.
    assert (length data
            = length ([ty] ++ kb ++ vb ++ key ++ value)) as Hld.
    { rewrite !length_app. cbn [length]. lia. }
    apply (f_equal (take (length data))) in H8.
    rewrite take_app_length in H8. rewrite <- H8, Hld.
    rewrite !app_assoc. rewrite <- (app_assoc _ crcb post).
    rewrite take_app_length'; [done|].
    rewrite !length_app. cbn [length]. lia.
Qed.

End inversion.

(** C9.  For every iterator and state of the operating system:
    (1) at or past the end offset recorded at creation, [Next] signals
    [io.EOF] and changes nothing;
    (2) when the file holds at the offset a Put or Delete record followed by
    four bytes that are not the CRC32 of its header and payload, [Next]
    returns [ErrInvalidChecksum] and leaves the offset unchanged; whatever
    error [Next] returns, the offset is unchanged;
    (3) when [Next] returns a record, the file holds at the old offset the
    type byte, two varints, the key, the value and the CRC32 of these bytes,
    and the offset has advanced by exactly their number. *)
Theorem Iterator_Next_outcomes (it : wal.Iterator.t) (os : OS) :
  ((wal.Iterator.fileEnd it ≤ wal.Iterator.offset it)%Z →
   wal.Iterator.Next it os = (Err EOF, it, os))
  ∧ (∀ pre r crcb post,
       script os = [] →
       contents os (name (wal.Iterator.file it))
       = pre ++ spec.payload r ++ crcb ++ post →
       length crcb = 4 →
       wal.Iterator.offset it = Z.of_nat (length pre) →
       (wal.Iterator.offset it < wal.Iterator.fileEnd it)%Z →
       spec.put_or_delete r → spec.go_slices r →
       binary.Uint32 crcb ≠ crc32.ChecksumIEEE (spec.payload r) →
       (wal.Iterator.Next it os).1.1 = Err ErrInvalidChecksum
       ∧ wal.Iterator.offset (wal.Iterator.Next it os).1.2 = wal.Iterator.offset it)
  ∧ (∀ e it' os',
       wal.Iterator.Next it os = (Err e, it', os') →
       wal.Iterator.offset it' = wal.Iterator.offset it)
  ∧ (∀ r it' os',
       wal.Iterator.Next it os = (Ok r, it', os') →
       ∃ pre kb vb crcb post,
         let bytes := [wal.Type_ r] ++ kb ++ vb ++ wal.Key r ++ wal.Value r ++ crcb in
         contents os (name (wal.Iterator.file it)) = pre ++ bytes ++ post
         ∧ wal.Iterator.offset it = Z.of_nat (length pre)
         ∧ wal.Iterator.offset it'
           = (wal.Iterator.offset it + Z.of_nat (length bytes))%Z
         ∧ length crcb = 4
         ∧ binary.Uint32 crcb
           = crc32.ChecksumIEEE
               ([wal.Type_ r] ++ kb ++ vb ++ wal.Key r ++ wal.Value r)).
Proof.
  repeat split.
  - intros Hend. unfold wal.Iterator.Next.
    by destruct (Z.leb_spec (wal.Iterator.fileEnd it) (wal.Iterator.offset it)); [|lia].
  - unfold wal.Iterator.Next.
    destruct (Z.leb_spec (wal.Iterator.fileEnd it) (wal.Iterator.offset it)); [lia|].
    rewrite (Next_read_payload it _ os pre r crcb post) by done.
    destruct (N.eqb_spec (crc32.ChecksumIEEE (spec.payload r)) (binary.Uint32 crcb));
      [congruence|done].
  - unfold wal.Iterator.Next.
    destruct (Z.leb_spec (wal.Iterator.fileEnd it) (wal.Iterator.offset it)); [lia|].
    rewrite (Next_read_payload it _ os pre r crcb post) by done.
    destruct (N.eqb_spec (crc32.ChecksumIEEE (spec.payload r)) (binary.Uint32 crcb));
      [congruence|done].
  - intros e it' os'. unfold wal.Iterator.Next.
    destruct (wal.Iterator.fileEnd it <=? wal.Iterator.offset it)%Z.
    { by intros [= <- <- <-]. }
    destruct (wal.Iterator.Next_read it (wal.Iterator.file it) os)
      as [[[[]| | |] ?] ?]; try done.
    by intros [= <- <- <-].
  - intros r it' os'. unfold wal.Iterator.Next.
    destruct (wal.Iterator.fileEnd it <=? wal.Iterator.offset it)%Z; [done|].
    destruct (wal.Iterator.Next_read it (wal.Iterator.file it) os)
      as [[[[r' recordSize]| | |] f'] os''] eqn:E; try done.
    intros [= <- <- <-].
    apply Next_read_inv in E as (pre & kb & vb & crcb & post & Hc & Ho & Hs & Hl & Hsum).
    exists pre, kb, vb, crcb, post. cbn zeta. cbn [wal.Iterator.offset].
    split; [done|]. split; [done|]. split; [by rewrite Hs|]. done.
Qed.

Lemma Iterator_Next_outcomes_witness :
  wal.Iterator.Next (it_example 0) intact_example
  = (Err EOF, it_example 0, intact_example)
  ∧ ((wal.Iterator.Next (it_example 9) corrupt_example).1.1 = Err ErrInvalidChecksum
     ∧ wal.Iterator.offset (wal.Iterator.Next (it_example 9) corrupt_example).1.2 = 0%Z)
  ∧ wal.Iterator.offset (wal.Iterator.Next (it_example 9) intact_example).1.2 = 9%Z.
Proof.
  split; [|split].
  - apply (proj1 (Iterator_Next_outcomes (it_example 0) intact_example)).
    vm_compute. discriminate.
  - apply (proj1 (proj2 (Iterator_Next_outcomes (it_example 9) corrupt_example))
             [] (wal.mkRecord wal.TypePut [x61] [x31]) [x00; x00; x00; x00] []).
    + reflexivity.
    + reflexivity.
    + reflexivity.
    + reflexivity.
    + reflexivity.
    + by left.
    + by split.
    + vm_compute. discriminate.
  - destruct (proj2 (proj2 (proj2 (Iterator_Next_outcomes (it_example 9) intact_example)))
                (wal.mkRecord wal.TypePut [x61] [x31])
                (wal.Iterator.Next (it_example 9) intact_example).1.2
                (wal.Iterator.Next (it_example 9) intact_example).2 eq_refl)
      as (pre & kb & vb & crcb & post & Hc & Ho & Hadv & _).
    rewrite Hadv. apply (f_equal length) in Hc. rewrite !length_app in Hc.
    change (wal.Iterator.offset (it_example 9)) with 0%Z in *.
    change (length (contents intact_example (name (wal.Iterator.file (it_example 9)))))
      with 9 in Hc.
    cbn [length wal.Type_ wal.Key wal.Value app] in *.
    rewrite !length_app in *. cbn [length] in *.
    assert (length pre = 0) as Hp by lia.
    assert (length post = 0).
    { destruct (wal.Iterator.Next (it_example 9) intact_example) as [[? it'] ?] eqn:E.
      cbn [fst snd] in *. vm_compute in E. injection E as <- <- <-.
      cbn [wal.Iterator.offset] in Hadv. lia. }
    lia.
Defined.

(** C2 (the code departs from it).  A log that holds one Put record is
    opened again and one Delete record is written: the handle starts at
    position 0, so the write lands on the old record instead of after it.
    The file is then neither the old bytes followed by the new record nor a
    concatenation of valid records, and the size kept by the log is not the
    length of the file. *)
Theorem reopen_then_write_overwrites :
  let old := wal.mkRecord wal.TypePut [x61; x62] [x63; x64] in
  let new := wal.mkRecord wal.TypeDelete [x61] [] in
  let os := mkOS {[ "wal" := spec.layout old ]} [] in
  ∃ w1 os1 w2 os2,
    wal.Open "wal" false os = (Ok w1, os1)
    ∧ wal.Write w1 new os1 = (Ok tt, w2, os2)
    ∧ contents os2 "wal" = spec.layout new ++ drop 8 (spec.layout old)
    ∧ contents os2 "wal" ≠ spec.layout old ++ spec.layout new
    ∧ ¬ spec.is_log (contents os2 "wal")
    ∧ wal.size w2 = 19%Z ∧ length (contents os2 "wal") = 11.
Proof.
  intros old new os.
  destruct (wal.Open "wal" false os) as [r1 os1] eqn:E1.
  vm_compute in E1. injection E1 as <- <-.
  eexists _, _, _, _. split; [reflexivity|].
  split; [by vm_compute|].
  split; [by vm_compute|]. split; [by vm_compute|].
  split; [|by vm_compute].
  intros Hlog.
  match type of Hlog with
  | ¬ _ => idtac
  | spec.is_log (contents ?o _) =>
      destruct (is_log_scan _ (it_example 11) o Hlog) as [rs Hrs];
        [by vm_compute | reflexivity | reflexivity | reflexivity | reflexivity |]
  end.
  vm_compute in Hrs.
  destruct rs as [|? [|? [|? ?]]]; discriminate Hrs.
Qed.

(** * Theorems on the memtable *)

(** Once the log is open, [New] builds its skip list with the nil
    comparator. *)
Lemma New_after_Open walPath syncWrites seed os log os' :
  wal.Open walPath syncWrites os = (Ok log, os') →
  memtable.New walPath syncWrites seed os
  = (Panic "Comparator can not be nil", os').
Proof. intros Hopen. unfold memtable.New. by rewrite Hopen. Qed.

(** C10.  [NewSkipList] panics exactly when its comparator is nil, and
    otherwise returns a list of level 1 and size 0; [memtable.New] passes the
    nil comparator, so whenever it has opened the log it panics, whatever the
    path, the sync flag and the contents of the file. *)
Theorem New_panics_on_nil_comparator :
  (∀ (K V : Type) (cmp : option (skiplist.Comparator K)) (seed : nat → bool),
     (skiplist.NewSkipList (V := V) cmp seed = Panic "Comparator can not be nil"
      ↔ cmp = None)
     ∧ (cmp ≠ None →
        ∃ sl, skiplist.NewSkipList (V := V) cmp seed = Ok sl
              ∧ skiplist.level sl = 1 ∧ skiplist.Size sl = 0%Z))
  ∧ (∀ walPath syncWrites seed os log os',
       wal.Open walPath syncWrites os = (Ok log, os') →
       memtable.New walPath syncWrites seed os
       = (Panic "Comparator can not be nil", os')).
Proof.
  split.
  - intros K V cmp seed. destruct cmp as [cmp|]; cbn.
    + split; [split; done|]. intros _. by eexists.
    + split; [done|]. by intros [].
  - intros walPath syncWrites seed os log os' Hopen.
    by apply New_after_Open with (log := log).
Qed.

Lemma New_panics_on_nil_comparator_witness :
  wal.Open "wal" true (mkOS ∅ [])
  = (Ok (wal.mkWAL (mkFile "wal" 0) 0 true), mkOS {[ "wal" := [] ]} [])
  ∧ memtable.New "wal" true (λ _, false) (mkOS ∅ [])
    = (Panic "Comparator can not be nil", mkOS {[ "wal" := [] ]} []).
Proof.
  split.
  - reflexivity.
  - apply (proj2 New_panics_on_nil_comparator "wal" true (λ _, false) (mkOS ∅ [])
             (wal.mkWAL (mkFile "wal" 0) 0 true)).
    reflexivity.
Defined.

(** C1 (the code departs from it).  On the log Put(a,1), Put(b,2),
    Delete(a), Put(a,3), [memtable.New] opens the file and then panics in
    [NewSkipList]: no MemTable is returned and no record is replayed. *)
Theorem New_on_recovery_example seed :
  (memtable.New "wal" false seed recovery_example).1
  = Panic "Comparator can not be nil".
Proof.
  destruct (wal.Open "wal" false recovery_example) as [r os'] eqn:E.
  pose proof E as E'. vm_compute in E'. injection E' as <- <-.
  by rewrite (New_after_Open _ _ seed _ _ _ E).
Qed.

(** C3.  When the write to the log fails, [Put] and [Delete] return that
    error and the skip list of the memtable is the one it had before the
    call. *)
Theorem memtable_logs_before_memory (m : memtable.MemTable) (key value : list byte)
    (os : OS) (e : error) (log' : wal.WAL) (os' : OS) :
  (wal.Write (memtable.log m) (wal.mkRecord wal.TypePut key value) os
   = (Err e, log', os') →
   memtable.Put m key value os
   = (Err e, memtable.mkMemTable (memtable.skipList m) log', os'))
  ∧ (wal.Write (memtable.log m) (wal.mkRecord wal.TypeDelete key []) os
     = (Err e, log', os') →
     memtable.Delete m key os
     = (Err e, memtable.mkMemTable (memtable.skipList m) log', os')).
Proof.
  split; intros H; unfold memtable.Put, memtable.Delete; by rewrite H.
Qed.

Lemma memtable_logs_before_memory_witness :
  (memtable.Put memtable_example [x61] [x31] sync_fails).1.1 = Err (ErrOS 5)
  ∧ memtable.skipList (memtable.Put memtable_example [x61] [x31] sync_fails).1.2
    = list_example
  ∧ (memtable.Delete memtable_example [x61] sync_fails).1.1 = Err (ErrOS 5)
  ∧ memtable.skipList (memtable.Delete memtable_example [x61] sync_fails).1.2
    = list_example.
Proof.
  destruct (wal.Write (memtable.log memtable_example)
              (wal.mkRecord wal.TypePut [x61] [x31]) sync_fails)
    as [[r1 w1] os1] eqn:E1.
  destruct (wal.Write (memtable.log memtable_example)
              (wal.mkRecord wal.TypeDelete [x61] []) sync_fails)
    as [[r2 w2] os2] eqn:E2.
  assert (r1 = Err (ErrOS 5)) as -> by (vm_compute in E1; congruence).
  assert (r2 = Err (ErrOS 5)) as -> by (vm_compute in E2; congruence).
  rewrite (proj1 (memtable_logs_before_memory memtable_example [x61] [x31]
                    sync_fails (ErrOS 5) w1 os1) E1).
  rewrite (proj2 (memtable_logs_before_memory memtable_example [x61] [x31]
                    sync_fails (ErrOS 5) w2 os2) E2).
  done.
Defined.

(** * The memory of a skip list *)

Section heap.

Context {K V : Type}.

Abbreviation Node := (skiplist.Node (K := K) (V := V)).

Implicit Types (ns : list Node) (a b x y : nat) (i j : nat) (l : list nat).

Lemma same_data_refl ns : same_data ns ns.
Proof. done. Qed.

Lemma same_data_trans ns1 ns2 ns3 :
  same_data ns1 ns2 → same_data ns2 ns3 → same_data ns1 ns3.
Proof.
  intros (Hl1 & Hk1 & Hv1) (Hl2 & Hk2 & Hv2). repeat split.
  - congruence.
  - intros b. by rewrite Hk2.
  - intros b. by rewrite Hv2.
Qed.

Lemma fwd_nxt ns a i p : nxt ns i a = Some p → skiplist.fwd ns a i = Ok p.
Proof.
  unfold nxt, skiplist.fwd, skiplist.deref, load.
  destruct (ns !! a) as [n|]; [|done]. cbn. by intros ->.
Qed.

Lemma nxt_lt ns a i p : nxt ns i a = Some p → a < length ns.
Proof.
  unfold nxt. destruct (ns !! a) eqn:E; [|done]. intros _.
  by eapply lookup_lt_Some.
Qed.

Lemma keyOf_lt ns a k : keyOf ns a = Some k → a < length ns.
Proof.
  unfold keyOf. destruct (ns !! a) eqn:E; [|done]. intros _.
  by eapply lookup_lt_Some.
Qed.

Lemma compare_key_keyOf cmp ns a k ka :
  keyOf ns a = Some ka →
  skiplist.compare_key cmp ns a k = Ok (skiplist.Compare ka k).
Proof.
  unfold keyOf, skiplist.compare_key, skiplist.deref.
  destruct (ns !! a) as [n|]; [|done]. cbn. by intros ->.
Qed.

Lemma deref_valueOf ns a ka :
  keyOf ns a = Some ka →
  ∃ n, skiplist.deref ns a = Ok n ∧ skiplist.key n = Some ka
       ∧ skiplist.value n = valueOf ns a.
Proof.
  unfold keyOf, valueOf, skiplist.deref.
  destruct (ns !! a) as [n|]; [|done]. intros H. by exists n.
Qed.

Lemma store_ok {A} (l : list A) i (v : A) :
  i < length l → store l i v = Ok (<[i := v]> l).
Proof.
  intros H. unfold store. by destruct (Nat.ltb_spec i (length l)); [|lia].
Qed.

Lemma load_ok {A} (l : list A) i (v : A) : l !! i = Some v → load l i = Ok v.
Proof. unfold load. by intros ->. Qed.

Lemma set_fwd_spec ns a i q p0 :
  nxt ns i a = Some p0 →
  ∃ ns', skiplist.set_fwd ns a i q = Ok ns' ∧ same_data ns ns'
         ∧ ∀ j b, nxt ns' j b
                  = if decide (b = a ∧ j = i) then Some q else nxt ns j b.
Proof.
  unfold nxt at 1. destruct (ns !! a) as [n|] eqn:En; [|done]. intros Hi.
  pose proof (lookup_lt_Some _ _ _ En) as Ha.
  pose proof (lookup_lt_Some _ _ _ Hi) as Hlt.
  unfold skiplist.set_fwd, skiplist.deref. rewrite En. cbn [rbind].
  rewrite store_ok by done. cbn [rbind].
  eexists. split; [done|]. split.
  - repeat split.
    + by rewrite length_insert.
    + intros b. unfold keyOf. destruct (decide (b = a)) as [->|Hne].
      * by rewrite list_lookup_insert_eq, En.
      * by rewrite list_lookup_insert_ne.
    + intros b. unfold valueOf. destruct (decide (b = a)) as [->|Hne].
      * by rewrite list_lookup_insert_eq, En.
      * by rewrite list_lookup_insert_ne.
  - intros j b. unfold nxt. destruct (decide (b = a)) as [->|Hne].
    + rewrite list_lookup_insert_eq by done. cbn.
      destruct (decide (j = i)) as [->|Hj].
      * rewrite list_lookup_insert_eq by done. by rewrite decide_True.
      * rewrite list_lookup_insert_ne by done. rewrite En.
        rewrite decide_False; [done|]. by intros [_ ?].
    + rewrite list_lookup_insert_ne by done.
      rewrite decide_False; [done|]. by intros [? _].
Qed.

(** ** Chains of forward links *)

Lemma seg_first ns i x l e : seg ns i x l e → nxt ns i x = Some (first l e).
Proof. destruct l; [done|]. by intros [? _]. Qed.

Lemma seg_prefix ns i x l1 l2 e :
  seg ns i x (l1 ++ l2) e → seg ns i x l1 (first l2 e).
Proof.
  revert x. induction l1 as [|a l1 IH]; intros x; cbn.
  - apply seg_first.
  - intros [? ?]. split; [done|]. by apply IH.
Qed.

Lemma seg_suffix ns i x l1 a l2 e :
  seg ns i x (l1 ++ a :: l2) e → seg ns i a l2 e.
Proof.
  revert x. induction l1 as [|b l1 IH]; intros x; cbn.
  - by intros [_ ?].
  - intros [_ ?]. by eapply IH.
Qed.

Lemma seg_last ns i x l e : seg ns i x l e → nxt ns i (default x (last l)) = Some e.
Proof.
  revert x. induction l as [|a l IH]; intros x; cbn; [done|].
  intros [_ H]. apply IH in H. rewrite last_cons.
  by destruct (last l).
Qed.

Lemma seg_frame ns ns' i x l e :
  (∀ b, b ∈ x :: l → nxt ns' i b = nxt ns i b) →
  seg ns i x l e → seg ns' i x l e.
Proof.
  revert x. induction l as [|a l IH]; intros x Hsame; cbn.
  - intros <-. apply Hsame. by left.
  - intros [Hx Hl]. split.
    + rewrite <- Hx. apply Hsame. by left.
    + apply IH; [|done]. intros b Hb. apply Hsame. by right.
Qed.

(** The chain is kept up to its last node, which is linked to a new tail. *)
Lemma seg_rebuild ns ns' i x lo e tl :
  seg ns i x lo e → NoDup (x :: lo) →
  nxt ns' i (default x (last lo)) = Some (first tl None) →
  (∀ b, b ∈ x :: lo → b ≠ default x (last lo) → nxt ns' i b = nxt ns i b) →
  match tl with [] => True | a :: tl' => seg ns' i a tl' None end →
  seg ns' i x (lo ++ tl) None.
Proof.
  revert x. induction lo as [|a lo IH]; intros x Hseg Hnd Hlast Hsame Htl;
    cbn [app].
  - cbn in Hlast. destruct tl as [|b tl]; cbn in *; done.
  - destruct Hseg as [Hx Hlo]. apply NoDup_cons in Hnd as [Hx_nin Hnd].
    rewrite last_cons in Hlast, Hsame.
    assert (default x (match last lo with Some y => Some y | None => Some a end)
            = default a (last lo)) as Hd by (by destruct (last lo)).
    rewrite Hd in Hlast, Hsame.
    assert (default a (last lo) ∈ a :: lo) as Hin.
    { destruct (last lo) as [y|] eqn:E; cbn; [|by left].
      right. by apply last_Some_elem_of. }
    cbn [seg]. split.
    + rewrite <- Hx. apply Hsame; [by left|]. intros ->. done.
    + apply IH; try done. intros b Hb Hne. apply Hsame; [by right|done].
Qed.

End heap.

(** * Order and descent *)

Section split.

Lemma lower_upper p l : lower p l ++ upper p l = l.
Proof. induction l as [|a l IH]; cbn; [done|]. destruct (p a); cbn; congruence. Qed.

Lemma lower_Forall p l : Forall (λ a, p a = true) (lower p l).
Proof.
  induction l as [|a l IH]; cbn; [constructor|].
  destruct (p a) eqn:E; by constructor.
Qed.

Lemma upper_first p l a l' : upper p l = a :: l' → p a = false.
Proof.
  induction l as [|b l IH]; cbn; [done|].
  destruct (p b) eqn:E; [done|]. by intros [= <- <-].
Qed.

Lemma lower_app p l1 l2 :
  Forall (λ a, p a = true) l1 → lower p (l1 ++ l2) = l1 ++ lower p l2.
Proof.
  induction 1 as [|a l1 Ha _ IH]; cbn; [done|]. by rewrite Ha, IH.
Qed.

Lemma upper_app p l1 l2 :
  Forall (λ a, p a = true) l1 → upper p (l1 ++ l2) = upper p l2.
Proof. induction 1 as [|a l1 Ha _ IH]; cbn; [done|]. by rewrite Ha. Qed.

Lemma lower_subseteq p l a : a ∈ lower p l → a ∈ l.
Proof.
  intros H. rewrite <- (lower_upper p l). apply elem_of_app. by left.
Qed.

Lemma lower_length p l : length (lower p l) ≤ length l.
Proof.
  rewrite <- (lower_upper p l) at 2. rewrite length_app. lia.
Qed.

Lemma last_app_cons_default (l1 l2 : list nat) x d :
  default d (last (l1 ++ x :: l2)) = default x (last l2).
Proof.
  rewrite last_app_cons, last_cons. by destruct (last l2).
Qed.

Lemma default_last_elem (l : list nat) d :
  default d (last l) = d ∧ l = [] ∨ default d (last l) ∈ l.
Proof.
  destruct (last l) as [y|] eqn:E; cbn.
  - right. by apply last_Some_elem_of.
  - left. split; [done|]. by apply last_None.
Qed.

End split.

Section order.

Context {K V : Type} (cmp : skiplist.Comparator K) {laws : spec.ComparatorLaws cmp}.

Abbreviation Node := (skiplist.Node (K := K) (V := V)).

Implicit Types (ns : list Node) (a b x y : nat) (i j : nat) (l : list nat) (k : K).

Lemma cmp_irrefl k : ¬ (skiplist.Compare k k < 0)%Z.
Proof. intros H. pose proof (proj2 (spec.gt_lt k k) H). lia. Qed.

Lemma cmp_eq_sym k1 k2 : skiplist.Compare k1 k2 = 0%Z → skiplist.Compare k2 k1 = 0%Z.
Proof.
  intros H. destruct (Z.lt_trichotomy (skiplist.Compare k2 k1) 0) as [Hlt|[?|Hgt]].
  - apply spec.gt_lt in Hlt. lia.
  - done.
  - apply spec.gt_lt in Hgt. lia.
Qed.

Lemma klt_irrefl ns a : ¬ klt cmp ns a a.
Proof.
  intros (ka & kb & Ha & Hb & Hlt). rewrite Ha in Hb. injection Hb as <-.
  by apply cmp_irrefl in Hlt.
Qed.

Lemma klt_trans ns a b c : klt cmp ns a b → klt cmp ns b c → klt cmp ns a c.
Proof.
  intros (ka & kb & Ha & Hb & H1) (kb' & kc & Hb' & Hc & H2).
  rewrite Hb in Hb'. injection Hb' as <-.
  exists ka, kc. repeat split; try done. by eapply spec.lt_trans.
Qed.

Lemma klt_below ns k a b : klt cmp ns a b → below cmp ns k b = true → below cmp ns k a = true.
Proof.
  intros (ka & kb & Ha & Hb & H1). unfold below. rewrite Ha, Hb.
  intros H2%Z.ltb_lt. apply Z.ltb_lt. by eapply spec.lt_trans.
Qed.

Lemma ordered_NoDup ns l : ordered cmp ns l → NoDup l.
Proof.
  induction 1 as [|a l _ IH Hall]; constructor; [|done].
  intros Hin. rewrite Forall_forall in Hall.
  by apply (klt_irrefl ns a), Hall.
Qed.

Lemma klt_same ns ns' a b :
  (∀ c, keyOf ns' c = keyOf ns c) → klt cmp ns a b → klt cmp ns' a b.
Proof.
  intros Hk (ka & kb & Ha & Hb & Hlt). exists ka, kb. by rewrite !Hk.
Qed.

Lemma ordered_same ns ns' l :
  (∀ c, keyOf ns' c = keyOf ns c) → ordered cmp ns l → ordered cmp ns' l.
Proof.
  intros Hk. induction 1 as [|a l _ IH Hall]; constructor; [done|].
  eapply Forall_impl; [done|]. intros b. by apply klt_same.
Qed.

Lemma ordered_same_on ns ns' l :
  (∀ c, c ∈ l → keyOf ns' c = keyOf ns c) → ordered cmp ns l → ordered cmp ns' l.
Proof.
  intros Hk Hord. induction Hord as [|a l _ IH Hall]; constructor.
  - apply IH. intros c Hc. apply Hk. by right.
  - rewrite Forall_forall in *. intros b Hb.
    destruct (Hall b Hb) as (ka & kb & Ha & Hb' & Hlt).
    exists ka, kb. rewrite !Hk; [done|by right|by left].
Qed.

Lemma keyed_same_on ns ns' l :
  (∀ c, c ∈ l → keyOf ns' c = keyOf ns c) → keyed ns l → keyed ns' l.
Proof.
  unfold keyed. rewrite !Forall_forall. intros Hk H a Ha.
  rewrite Hk by done. by apply H.
Qed.

Lemma upper_not_below ns k l z :
  ordered cmp ns l → z ∈ upper (below cmp ns k) l → below cmp ns k z = false.
Proof.
  induction 1 as [|a l _ IH Hall]; cbn [upper]; [by intros ?%elem_of_nil|].
  destruct (below cmp ns k a) eqn:Ea; [done|].
  intros [->|Hz]%elem_of_cons; [done|].
  rewrite Forall_forall in Hall.
  destruct (below cmp ns k z) eqn:Ez; [|done].
  by rewrite (klt_below ns k a z (Hall z Hz) Ez) in Ea.
Qed.

Lemma below_same ns ns' k a :
  (∀ c, keyOf ns' c = keyOf ns c) → below cmp ns' k a = below cmp ns k a.
Proof. intros Hk. unfold below. by rewrite Hk. Qed.

Lemma keyed_same ns ns' l :
  (∀ c, keyOf ns' c = keyOf ns c) → keyed ns l → keyed ns' l.
Proof.
  intros Hk H. eapply Forall_impl; [done|]. intros a. cbn. by rewrite Hk.
Qed.

(** In an ordered chain, the nodes below [k] are a prefix. *)
Lemma ordered_split ns k l a :
  ordered cmp ns l → a ∈ l → below cmp ns k a = true →
  ∃ l1 l2, l = l1 ++ a :: l2
           ∧ lower (below cmp ns k) l = l1 ++ a :: lower (below cmp ns k) l2
           ∧ upper (below cmp ns k) l = upper (below cmp ns k) l2.
Proof.
  intros Hord Hin Hb. apply list_elem_of_split in Hin as (l1 & l2 & ->).
  exists l1, l2. split; [done|].
  assert (Forall (λ c, below cmp ns k c = true) (l1 ++ [a])) as Hall.
  { apply Forall_app. split; [|by constructor].
    apply StronglySorted_app in Hord as (Hlt & _ & _).
    apply Forall_forall. intros c Hc.
    apply (klt_below ns k c a); [|done]. apply Hlt; [done|]. by left. }
  rewrite (cons_middle a l1 l2), app_assoc.
  rewrite lower_app, upper_app by done. by rewrite <- app_assoc.
Qed.

(** ** The loop that moves forward at one level *)

Lemma advance_spec ns k i : ∀ l x fuel,
  seg ns i x l None → keyed ns l → length l < fuel →
  skiplist.advance fuel cmp ns k i x
  = Ok (default x (last (lower (below cmp ns k) l))).
Proof.
  induction l as [|a l IH]; intros x fuel Hseg Hk Hfuel;
    (destruct fuel as [|fuel]; [cbn in Hfuel; lia|]); cbn [skiplist.advance].
  - cbn in Hseg. by rewrite (fwd_nxt _ _ _ _ Hseg).
  - destruct Hseg as [Hx Hl]. rewrite (fwd_nxt _ _ _ _ Hx). cbn [rbind].
    apply Forall_cons in Hk as [[_ [ka Ha]] Hk].
    rewrite (compare_key_keyOf _ _ _ _ _ Ha). cbn [rbind lower].
    unfold below at 1. rewrite Ha.
    destruct (skiplist.Compare ka k <? 0)%Z; [|done].
    rewrite (IH a fuel) by (try done; cbn in Hfuel; lia).
    rewrite last_cons. by destruct (last (lower (below cmp ns k) l)).
Qed.

End order.

(** * The invariant of the skip list *)

Section invariant.

Context {K V : Type} (cmp : skiplist.Comparator K) {laws : spec.ComparatorLaws cmp}.

Abbreviation Node := (skiplist.Node (K := K) (V := V)).
Abbreviation SkipList := (skiplist.SkipList (K := K) (V := V)).

Implicit Types (ns : list Node) (a b x y : nat) (i j : nat) (l : list nat) (k : K)
  (L : nat → list nat) (sl : SkipList).

Lemma pos_match {A} n (x y : A) :
  1 ≤ n → match n with O => x | S _ => y end = y.
Proof. destruct n; [lia|done]. Qed.

Section descent.

Context (ns : list Node) (level : nat) (L : nat → list nat) (k : K).
Context (Hshape : shape cmp ns level L).

Lemma pred_start i : pred cmp ns L k i = 0 ∨ pred cmp ns L k i ∈ lower (below cmp ns k) (L i).
Proof.
  unfold pred. destruct (default_last_elem (lower (below cmp ns k) (L i)) 0)
    as [[-> _]|H]; [by left|by right].
Qed.

Lemma pred_top i : level ≤ i → i < skiplist.maxLevel → pred cmp ns L k i = 0.
Proof. intros H1 H2. unfold pred. by rewrite (sh_top _ _ _ _ Hshape i). Qed.

Lemma nxt_pred i : i < skiplist.maxLevel → nxt ns i (pred cmp ns L k i) = Some (succ cmp ns L k i).
Proof.
  intros Hi. pose proof (sh_chain _ _ _ _ Hshape i Hi) as Hseg.
  rewrite <- (lower_upper (below cmp ns k) (L i)) in Hseg.
  apply seg_prefix in Hseg. by apply seg_last in Hseg.
Qed.

Lemma pred_not_in_upper i :
  i < skiplist.maxLevel → pred cmp ns L k i ∉ upper (below cmp ns k) (L i).
Proof.
  intros Hi Hin. pose proof (sh_ordered _ _ _ _ Hshape i Hi) as Hord.
  pose proof (sh_keyed _ _ _ _ Hshape i Hi) as Hkeyed.
  rewrite <- (lower_upper (below cmp ns k) (L i)) in Hord, Hkeyed.
  destruct (pred_start i) as [H0|Hlo].
  - rewrite H0 in Hin. apply Forall_app in Hkeyed as [_ Hk].
    rewrite Forall_forall in Hk. by destruct (Hk 0 Hin).
  - pose proof (ordered_NoDup cmp ns _ Hord) as Hnd.
    apply NoDup_app in Hnd as (_ & Hdis & _).
    by apply (Hdis (pred cmp ns L k i)).
Qed.

Lemma advance_level i x :
  i < skiplist.maxLevel →
  x = 0 ∨ (S i < skiplist.maxLevel ∧ x ∈ lower (below cmp ns k) (L (S i))) →
  skiplist.advance (S (length ns)) cmp ns k i x = Ok (pred cmp ns L k i).
Proof.
  intros Hi [->|[HSi Hx]].
  - apply advance_spec.
    + by apply (sh_chain _ _ _ _ Hshape).
    + by apply (sh_keyed _ _ _ _ Hshape).
    + pose proof (sh_fuel _ _ _ _ Hshape i Hi). lia.
  - assert (below cmp ns k x = true) as Hb.
    { pose proof (lower_Forall (below cmp ns k) (L (S i))) as Hall.
      rewrite Forall_forall in Hall. by apply Hall. }
    apply lower_subseteq, (sh_tower _ _ _ _ Hshape i x HSi) in Hx.
    destruct (ordered_split cmp ns k (L i) x (sh_ordered _ _ _ _ Hshape i Hi) Hx Hb)
      as (l1 & l2 & HL & Hlo & _).
    pose proof (sh_chain _ _ _ _ Hshape i Hi) as Hseg.
    pose proof (sh_keyed _ _ _ _ Hshape i Hi) as Hkeyed.
    pose proof (sh_fuel _ _ _ _ Hshape i Hi) as Hfuel.
    rewrite HL in Hseg, Hkeyed, Hfuel.
    apply seg_suffix in Hseg.
    apply Forall_app in Hkeyed as [_ Hkeyed]. apply Forall_cons in Hkeyed as [_ Hkeyed].
    rewrite length_app in Hfuel. cbn in Hfuel.
    rewrite (advance_spec cmp ns k i l2 x) by (try done; lia).
    unfold pred. by rewrite Hlo, last_app_cons_default.
Qed.

Lemma descend_spec sl : ∀ n x,
  skiplist.nodes sl = ns → skiplist.comparator sl = cmp →
  n ≤ skiplist.maxLevel →
  x = 0 ∨ (n < skiplist.maxLevel ∧ x ∈ lower (below cmp ns k) (L n)) →
  skiplist.descend sl k n x = Ok (match n with O => x | S _ => pred cmp ns L k 0 end).
Proof.
  intros n x Hns Hcmp. revert x.
  induction n as [|i IH]; intros x Hn Hx; cbn [skiplist.descend]; [done|].
  rewrite Hns, Hcmp. rewrite (advance_level i x) by (try done; lia).
  cbn [rbind]. rewrite IH.
  - by destruct i.
  - lia.
  - destruct (pred_start i); [by left|right]. split; [lia|done].
Qed.

Lemma descend_update_spec sl : ∀ n x update,
  skiplist.nodes sl = ns → skiplist.comparator sl = cmp →
  n ≤ skiplist.maxLevel → n ≤ length update →
  x = 0 ∨ (n < skiplist.maxLevel ∧ x ∈ lower (below cmp ns k) (L n)) →
  ∃ update',
    skiplist.descend_update sl k n x update
    = Ok (match n with O => x | S _ => pred cmp ns L k 0 end, update')
    ∧ length update' = length update
    ∧ (∀ i, i < n → update' !! i = Some (Some (pred cmp ns L k i)))
    ∧ (∀ i, n ≤ i → update' !! i = update !! i).
Proof.
  intros n x update Hns Hcmp. revert x update.
  induction n as [|i IH]; intros x update Hn Hlen Hx;
    cbn [skiplist.descend_update].
  - exists update. repeat split; try done. intros i Hi. lia.
  - rewrite Hns, Hcmp. rewrite (advance_level i x) by (try done; lia).
    cbn [rbind]. rewrite store_ok by lia. cbn [rbind].
    destruct (IH (pred cmp ns L k i) (<[i := Some (pred cmp ns L k i)]> update)) as (u' & -> & Hl & Hlo & Hhi).
    + lia.
    + rewrite length_insert. lia.
    + destruct (pred_start i); [by left|right]. split; [lia|done].
    + exists u'. split; [by destruct i|]. split; [by rewrite Hl, length_insert|].
      split.
      * intros j Hj. destruct (decide (j = i)) as [->|Hne].
        -- rewrite Hhi by lia. by rewrite list_lookup_insert_eq by lia.
        -- apply Hlo. lia.
      * intros j Hj. rewrite Hhi by lia.
        by rewrite list_lookup_insert_ne by lia.
Qed.

Lemma succ_elem i y : succ cmp ns L k i = Some y → y ∈ L i ∧ below cmp ns k y = false.
Proof.
  unfold succ. destruct (upper (below cmp ns k) (L i)) as [|z u] eqn:E; [done|].
  cbn. intros [= ->]. split.
  - rewrite <- (lower_upper (below cmp ns k) (L i)), E.
    apply elem_of_app. right. by left.
  - by eapply upper_first.
Qed.

Lemma succ_keyed i y :
  i < skiplist.maxLevel → succ cmp ns L k i = Some y → ∃ ky, keyOf ns y = Some ky.
Proof.
  intros Hi [Hin _]%succ_elem.
  pose proof (sh_keyed _ _ _ _ Hshape i Hi) as Hk.
  unfold keyed in Hk. rewrite Forall_forall in Hk.
  by destruct (Hk y Hin) as [_ [ky ?]]; eauto.
Qed.

Lemma Find_spec sl :
  skiplist.nodes sl = ns → skiplist.comparator sl = cmp →
  skiplist.level sl = level → skiplist.head sl = 0 →
  skiplist.Find sl k
  = Ok (match hit cmp ns L k with
        | Some y => (valueOf ns y, true)
        | None => (None, false)
        end).
Proof.
  intros Hns Hcmp Hlevel Hhead. unfold skiplist.Find.
  pose proof (sh_level _ _ _ _ Hshape) as Hlv.
  rewrite (descend_spec sl (skiplist.level sl) (skiplist.head sl) Hns Hcmp);
    [| lia | by left].
  rewrite Hlevel, pos_match by lia. cbn [rbind].
  rewrite Hns. rewrite (fwd_nxt _ _ _ _ (nxt_pred 0 ltac:(unfold skiplist.maxLevel; lia))).
  cbn [rbind]. unfold hit.
  destruct (succ cmp ns L k 0) as [y|] eqn:Hy; [|done].
  destruct (succ_keyed 0 y ltac:(unfold skiplist.maxLevel; lia) Hy) as [ky Hky].
  rewrite Hcmp, (compare_key_keyOf _ _ _ _ _ Hky), Hky. cbn [rbind].
  destruct (skiplist.Compare ky k =? 0)%Z; [|done].
  destruct (deref_valueOf ns y ky Hky) as (n & -> & _ & Hv). cbn [rbind].
  by rewrite Hv.
Qed.

End descent.

End invariant.

(** * The loops of [Insert] *)

Section loops_insert.

Context {K V : Type}.

Abbreviation Node := (skiplist.Node (K := K) (V := V)).

Implicit Types (ns : list Node) (a b x y : nat) (i j : nat) (l : list nat).

Lemma randomLevel_loop_bounds n : ∀ level r,
  1 ≤ level ≤ skiplist.maxLevel →
  level ≤ (skiplist.randomLevel_loop n level r).1 ≤ skiplist.maxLevel.
Proof.
  induction n as [|n IH]; intros level r Hl; cbn [skiplist.randomLevel_loop fst].
  - lia.
  - destruct (Nat.ltb_spec level skiplist.maxLevel); [|cbn [fst]; lia].
    unfold skiplist.Float64_lt_probability.
    destruct (skiplist.coins r (skiplist.drawn r)); [|cbn [fst]; lia].
    specialize (IH (level + 1) (skiplist.mkRand (skiplist.coins r) (S (skiplist.drawn r)))).
    lia.
Qed.

Lemma randomLevel_bounds r : 1 ≤ (skiplist.randomLevel r).1 ≤ skiplist.maxLevel.
Proof.
  unfold skiplist.randomLevel.
  pose proof (randomLevel_loop_bounds skiplist.maxLevel 1 r).
  unfold skiplist.maxLevel in *. lia.
Qed.

Lemma promote_spec hd : ∀ n i (update : list (option nat)),
  i + n ≤ length update →
  ∃ update',
    skiplist.promote n i hd update = Ok update'
    ∧ length update' = length update
    ∧ (∀ j, i ≤ j < i + n → update' !! j = Some (Some hd))
    ∧ (∀ j, ¬ (i ≤ j < i + n) → update' !! j = update !! j).
Proof.
  induction n as [|n IH]; intros i update Hlen; cbn [skiplist.promote].
  - exists update. repeat split; try done. intros j Hj. lia.
  - rewrite store_ok by lia. cbn [rbind].
    destruct (IH (S i) (<[i := Some hd]> update)) as (u' & -> & Hl & Hin & Hout).
    { rewrite length_insert. lia. }
    exists u'. split; [done|]. split; [by rewrite Hl, length_insert|]. split.
    + intros j Hj. destruct (decide (j = i)) as [->|Hne].
      * rewrite Hout by lia. by rewrite list_lookup_insert_eq by lia.
      * apply Hin. lia.
    + intros j Hj. rewrite Hout by lia. by rewrite list_lookup_insert_ne by lia.
Qed.

Lemma splice_spec (update : list (option nat)) nw (u : nat → nat) : ∀ n i ns,
  (∀ j, i ≤ j < i + n → update !! j = Some (Some (u j))) →
  (∀ j, i ≤ j < i + n → is_Some (nxt ns j (u j))) →
  (∀ j, i ≤ j < i + n → is_Some (nxt ns j nw)) →
  (∀ j, i ≤ j < i + n → u j ≠ nw) →
  ∃ ns',
    skiplist.splice n i ns update nw = Ok ns' ∧ same_data ns ns'
    ∧ ∀ j b, nxt ns' j b
             = if decide (i ≤ j < i + n) then
                 if decide (b = nw) then nxt ns j (u j)
                 else if decide (b = u j) then Some (Some nw)
                 else nxt ns j b
               else nxt ns j b.
Proof.
  induction n as [|n IH]; intros i ns Hup Hu Hnw Hne; cbn [skiplist.splice].
  - exists ns. split; [done|]. split; [done|]. intros j b.
    rewrite decide_False; [done|lia].
  - rewrite (load_ok _ _ _ (Hup i ltac:(lia))). cbn [rbind].
    destruct (Hu i ltac:(lia)) as [p Hp]. rewrite (fwd_nxt _ _ _ _ Hp). cbn [rbind].
    destruct (Hnw i ltac:(lia)) as [p' Hp'].
    destruct (set_fwd_spec ns nw i p p' Hp') as (ns1 & -> & Hd1 & Hn1). cbn [rbind].
    assert (nxt ns1 i (u i) = Some p) as Hp1.
    { rewrite Hn1. rewrite decide_False; [done|].
      intros [? _]. by apply (Hne i ltac:(lia)). }
    destruct (set_fwd_spec ns1 (u i) i (Some nw) p Hp1) as (ns2 & -> & Hd2 & Hn2).
    cbn [rbind].
    assert (∀ j b, j ≠ i → nxt ns2 j b = nxt ns j b) as Hother.
    { intros j b Hj. rewrite Hn2, decide_False by (by intros [_ ?]).
      rewrite Hn1, decide_False by (by intros [_ ?]). done. }
    destruct (IH (S i) ns2) as (ns' & -> & Hd' & Hn').
    + intros j Hj. apply Hup. lia.
    + intros j Hj. rewrite Hother by lia. apply Hu. lia.
    + intros j Hj. rewrite Hother by lia. apply Hnw. lia.
    + intros j Hj. apply Hne. lia.
    + exists ns'. split; [done|]. split.
      { eapply same_data_trans; [|done]. by eapply same_data_trans. }
      intros j b. rewrite Hn'.
      destruct (decide (j = i)) as [->|Hj].
      * rewrite (decide_False (P := S i ≤ i < S i + n)) by lia.
        rewrite (decide_True (P := i ≤ i < i + S n)) by lia.
        rewrite Hn2. destruct (decide (b = nw)) as [->|Hb].
        -- rewrite decide_False.
           ++ rewrite Hn1. by rewrite decide_True.
           ++ intros [? _]. by apply (Hne i ltac:(lia)).
        -- destruct (decide (b = u i)) as [->|Hb'].
           ++ by rewrite decide_True.
           ++ rewrite decide_False by (by intros [? _]).
              rewrite Hn1. by rewrite decide_False by (by intros [? _]).
      * destruct (decide (S i ≤ j < S i + n)) as [Hin|Hout].
        -- rewrite (decide_True (P := i ≤ j < i + S n)) by lia.
           by rewrite !Hother by done.
        -- rewrite (decide_False (P := i ≤ j < i + S n)) by lia.
           by rewrite Hother.
Qed.

(** A fresh node at the end of the memory. *)
Lemma nxt_alloc_old ns (node : Node) j b :
  b < length ns → nxt (ns ++ [node]) j b = nxt ns j b.
Proof. intros H. unfold nxt. by rewrite lookup_app_l. Qed.

Lemma nxt_alloc_new ns (node : Node) j :
  nxt (ns ++ [node]) j (length ns) = skiplist.forward node !! j.
Proof.
  unfold nxt. rewrite lookup_app_r by lia. by rewrite Nat.sub_diag.
Qed.

Lemma keyOf_alloc_old ns (node : Node) b :
  b < length ns → keyOf (ns ++ [node]) b = keyOf ns b.
Proof. intros H. unfold keyOf. by rewrite lookup_app_l. Qed.

Lemma keyOf_alloc_new ns (node : Node) :
  keyOf (ns ++ [node]) (length ns) = skiplist.key node.
Proof.
  unfold keyOf. rewrite lookup_app_r by lia. by rewrite Nat.sub_diag.
Qed.

Lemma valueOf_alloc_old ns (node : Node) b :
  b < length ns → valueOf (ns ++ [node]) b = valueOf ns b.
Proof. intros H. unfold valueOf. by rewrite lookup_app_l. Qed.

End loops_insert.

(** * [Insert] keeps the invariant *)

Section insert.

Context {K V : Type} (cmp : skiplist.Comparator K) {laws : spec.ComparatorLaws cmp}.

Abbreviation Node := (skiplist.Node (K := K) (V := V)).
Abbreviation SkipList := (skiplist.SkipList (K := K) (V := V)).

Implicit Types (ns : list Node) (a b x y z : nat) (i j : nat) (l : list nat) (k : K)
  (L : nat → list nat) (sl : SkipList).

Section facts_insert.

Context (ns : list Node) (level : nat) (L : nat → list nat).
Context (Hshape : shape cmp ns level L).

Lemma tower_0 i a : i < skiplist.maxLevel → a ∈ L i → a ∈ L 0.
Proof.
  induction i as [|i IH]; [done|]. intros Hi Ha.
  apply IH; [lia|]. by apply (sh_tower _ _ _ _ Hshape).
Qed.

Lemma chain_keyed i a :
  i < skiplist.maxLevel → a ∈ L i → a ≠ 0 ∧ ∃ ka, keyOf ns a = Some ka.
Proof.
  intros Hi Ha. pose proof (sh_keyed _ _ _ _ Hshape i Hi) as Hk.
  unfold keyed in Hk. rewrite Forall_forall in Hk.
  destruct (Hk a Ha) as [? [ka ?]]. eauto.
Qed.

Lemma chain_lt i a : i < skiplist.maxLevel → a ∈ L i → a < length ns.
Proof.
  intros Hi Ha. destruct (chain_keyed i a Hi Ha) as [_ [ka Hka]].
  by eapply keyOf_lt.
Qed.

Lemma head_lt : 0 < length ns.
Proof.
  pose proof (sh_fuel _ _ _ _ Hshape 0 ltac:(unfold skiplist.maxLevel; lia)). lia.
Qed.

Lemma pred_lt k i : i < skiplist.maxLevel → pred cmp ns L k i < length ns.
Proof.
  intros Hi. destruct (pred_start cmp ns L k i) as [->|Hin].
  - apply head_lt.
  - apply lower_subseteq in Hin. by eapply chain_lt.
Qed.

Lemma lower_keys k i a :
  i < skiplist.maxLevel → a ∈ lower (below cmp ns k) (L i) →
  ∃ ka, keyOf ns a = Some ka ∧ (skiplist.Compare ka k < 0)%Z.
Proof.
  intros Hi Ha.
  pose proof (lower_Forall (below cmp ns k) (L i)) as Hall.
  rewrite Forall_forall in Hall. specialize (Hall a Ha).
  unfold below in Hall. destruct (keyOf ns a) as [ka|]; [|done].
  exists ka. split; [done|]. by apply Z.ltb_lt.
Qed.

Lemma absent_gt k z :
  hit cmp ns L k = None → z ∈ L 0 → below cmp ns k z = false →
  ∃ kz, keyOf ns z = Some kz ∧ (skiplist.Compare k kz < 0)%Z.
Proof.
  intros Hhit Hz Hb.
  assert (0 < skiplist.maxLevel) as H0 by (unfold skiplist.maxLevel; lia).
  pose proof (sh_ordered _ _ _ _ Hshape 0 H0) as Hord.
  rewrite <- (lower_upper (below cmp ns k) (L 0)) in Hz, Hord.
  apply elem_of_app in Hz as [Hz|Hz].
  { pose proof (lower_Forall (below cmp ns k) (L 0)) as Hall.
    rewrite Forall_forall in Hall. rewrite (Hall z Hz) in Hb. done. }
  unfold hit, succ in Hhit.
  destruct (upper (below cmp ns k) (L 0)) as [|y t] eqn:Eup;
    [by apply elem_of_nil in Hz|].
  cbn [first] in Hhit.
  assert (y ∈ L 0) as Hy.
  { rewrite <- (lower_upper (below cmp ns k) (L 0)), Eup.
    apply elem_of_app. right. by left. }
  destruct (chain_keyed 0 y H0 Hy) as [_ [ky Hky]]. rewrite Hky in Hhit.
  pose proof (upper_first _ _ _ _ Eup) as Hyb. unfold below in Hyb.
  rewrite Hky in Hyb. apply Z.ltb_ge in Hyb.
  destruct (Z.eqb_spec (skiplist.Compare ky k) 0) as [|Hne]; [done|].
  assert (skiplist.Compare k ky < 0)%Z as Hlt by (apply spec.gt_lt; lia).
  apply elem_of_cons in Hz as [->|Hz]; [by exists ky|].
  apply StronglySorted_app in Hord as (_ & _ & Hup).
  apply StronglySorted_cons in Hup as [Hall _]. rewrite Forall_forall in Hall.
  destruct (Hall z Hz) as (ky' & kz & Hky' & Hkz & Hlt').
  rewrite Hky in Hky'. injection Hky' as <-.
  exists kz. split; [done|]. by eapply spec.lt_trans.
Qed.

Lemma upper_keys k i z :
  hit cmp ns L k = None → i < skiplist.maxLevel →
  z ∈ upper (below cmp ns k) (L i) →
  ∃ kz, keyOf ns z = Some kz ∧ (skiplist.Compare k kz < 0)%Z.
Proof.
  intros Hhit Hi Hz. apply absent_gt; [done| |].
  - apply (tower_0 i); [done|].
    rewrite <- (lower_upper (below cmp ns k) (L i)). apply elem_of_app. by right.
  - apply (upper_not_below cmp ns k (L i)); [|done].
    by apply (sh_ordered _ _ _ _ Hshape).
Qed.

End facts_insert.

Lemma elem_of_inserted ns L k lvl nw i a :
  a ∈ inserted cmp ns L k lvl nw i ↔ a ∈ L i ∨ (i < lvl ∧ a = nw).
Proof.
  unfold inserted. destruct (decide (i < lvl)) as [Hi|Hi].
  - rewrite <- (lower_upper (below cmp ns k) (L i)) at 3.
    rewrite !elem_of_app, elem_of_cons. naive_solver.
  - naive_solver.
Qed.

Lemma shape_insert ns level L k ns' lvl :
  let nw := length ns in
  shape cmp ns level L → hit cmp ns L k = None →
  1 ≤ lvl ≤ skiplist.maxLevel →
  length ns' = S (length ns) →
  (∀ b, b < length ns → keyOf ns' b = keyOf ns b) →
  keyOf ns' nw = Some k →
  (∀ j b, b < length ns → ¬ (j < lvl ∧ b = pred cmp ns L k j) →
          nxt ns' j b = nxt ns j b) →
  (∀ j, j < lvl → nxt ns' j (pred cmp ns L k j) = Some (Some nw)) →
  (∀ j, j < lvl → nxt ns' j nw = Some (succ cmp ns L k j)) →
  shape cmp ns' (level `max` lvl) (inserted cmp ns L k lvl nw).
Proof.
  intros nw Hshape Hhit Hlvl Hlen Hkey Hknw Hold Hpred Hnw.
  assert (∀ i a, i < skiplist.maxLevel → a ∈ L i → a < length ns) as Hlt.
  { intros i a. by apply chain_lt with (level := level). }
  assert (∀ i a, i < skiplist.maxLevel → a ∈ L i → keyOf ns' a = keyOf ns a) as Hkey'.
  { intros i a Hi Ha. apply Hkey. by eapply Hlt. }
  split.
  - (* chains *)
    intros i Hi. unfold inserted. destruct (decide (i < lvl)) as [Hil|Hil].
    + pose proof (sh_chain _ _ _ _ Hshape i Hi) as Hseg.
      pose proof (sh_ordered _ _ _ _ Hshape i Hi) as Hord.
      rewrite <- (lower_upper (below cmp ns k) (L i)) in Hseg, Hord.
      apply (seg_rebuild ns ns' i 0 _ (first (upper (below cmp ns k) (L i)) None)).
      * by apply seg_prefix in Hseg.
      * apply NoDup_cons. split.
        -- intros H0%lower_subseteq.
           by destruct (chain_keyed ns level L Hshape i 0 Hi H0).
        -- apply (ordered_NoDup cmp) in Hord. by apply NoDup_app in Hord as (? & _).
      * cbn [first]. by apply Hpred.
      * intros b Hb Hne. apply Hold.
        -- apply elem_of_cons in Hb as [->|Hb].
           ++ by eapply head_lt.
           ++ apply lower_subseteq in Hb. by eapply Hlt.
        -- intros [_ ?]. done.
      * pose proof (Hnw i Hil) as Hn. unfold succ in Hn.
        destruct (upper (below cmp ns k) (L i)) as [|h t] eqn:Eup;
          cbn [seg first] in *.
        { done. }
        split; [done|].
        apply seg_suffix in Hseg.
        eapply seg_frame; [|done]. intros b Hb. apply Hold.
        -- eapply (Hlt i); [done|].
           rewrite <- (lower_upper (below cmp ns k) (L i)), Eup.
           apply elem_of_app. by right.
        -- intros [_ ->].
           apply (pred_not_in_upper cmp ns level L k Hshape i Hi).
           by rewrite Eup.
    + eapply seg_frame; [|by apply (sh_chain _ _ _ _ Hshape)].
      intros b Hb. apply Hold.
      * apply elem_of_cons in Hb as [->|Hb]; [by eapply head_lt|by eapply Hlt].
      * intros [? _]. done.
  - (* keys *)
    intros i Hi. unfold keyed. apply Forall_forall. intros a Ha.
    apply elem_of_inserted in Ha as [Ha|[_ ->]].
    + rewrite (Hkey' i a Hi Ha). destruct (chain_keyed ns level L Hshape i a Hi Ha).
      split; [done|]. by destruct H0 as [ka ->]; eauto.
    + split; [|by rewrite Hknw; eauto].
      pose proof (head_lt ns level L Hshape). unfold nw. lia.
  - (* order *)
    intros i Hi. unfold inserted. destruct (decide (i < lvl)) as [Hil|Hil].
    + pose proof (sh_ordered _ _ _ _ Hshape i Hi) as Hord.
      apply (ordered_same_on cmp ns ns') in Hord; [|intros c Hc; by apply (Hkey' i)].
      rewrite <- (lower_upper (below cmp ns k) (L i)) in Hord.
      apply StronglySorted_app in Hord as (Hlu & Hlo & Hup).
      assert (∀ z, z ∈ upper (below cmp ns k) (L i) → klt cmp ns' nw z) as Hnwz.
      { intros z Hz.
        destruct (upper_keys ns level L Hshape k i z Hhit Hi Hz) as (kz & Hkz & Hlt').
        exists k, kz. split; [done|]. split; [|done].
        rewrite Hkey; [done|]. eapply (Hlt i); [done|].
        rewrite <- (lower_upper (below cmp ns k) (L i)). apply elem_of_app. by right. }
      apply StronglySorted_app. split; [|split; [done|]].
      * intros x1 x2 Hx1 [->|Hx2]%elem_of_cons; [|by apply Hlu].
        destruct (lower_keys ns L k i x1 Hi Hx1) as (k1 & Hk1 & Hlt1).
        exists k1, k. split; [|done].
        rewrite Hkey; [done|]. eapply (Hlt i); [done|]. by apply lower_subseteq in Hx1.
      * apply StronglySorted_cons. split; [|done]. by apply Forall_forall.
    + apply (ordered_same_on cmp ns ns'); [intros c Hc; by apply (Hkey' i)|].
      by apply (sh_ordered _ _ _ _ Hshape).
  - (* towers *)
    intros i a Hi Ha. apply elem_of_inserted in Ha as [Ha|[Hl ->]].
    + apply elem_of_inserted. left. by apply (sh_tower _ _ _ _ Hshape).
    + apply elem_of_inserted. right. split; [lia|done].
  - pose proof (sh_level _ _ _ _ Hshape). lia.
  - intros i Hi1 Hi2. unfold inserted. rewrite decide_False by lia.
    apply (sh_top _ _ _ _ Hshape); [lia|done].
  - intros i Hi. pose proof (sh_fuel _ _ _ _ Hshape i Hi) as Hf.
    unfold inserted. destruct (decide (i < lvl)); [|lia].
    rewrite length_app. cbn [length].
    pose proof (f_equal length (lower_upper (below cmp ns k) (L i))) as Hlu.
    rewrite length_app in Hlu. lia.
Qed.

End insert.

Section insert_run.

Context {K V : Type} (cmp : skiplist.Comparator K) {laws : spec.ComparatorLaws cmp}.

Abbreviation Node := (skiplist.Node (K := K) (V := V)).
Abbreviation SkipList := (skiplist.SkipList (K := K) (V := V)).

Implicit Types (ns : list Node) (a b x y z : nat) (i j : nat) (l : list nat) (k : K)
  (L : nat → list nat) (sl : SkipList).

Lemma exist_hit ns level L k :
  shape cmp ns level L →
  match succ cmp ns L k 0 with
  | None => Ok None
  | Some y =>
      c <~ skiplist.compare_key cmp ns y k ;;
      Ok (if (c =? 0)%Z then Some y else None)
  end = Ok (hit cmp ns L k).
Proof.
  intros Hshape. unfold hit. destruct (succ cmp ns L k 0) as [y|] eqn:Hy; [|done].
  destruct (succ_keyed cmp ns level L k Hshape 0 y
              ltac:(unfold skiplist.maxLevel; lia) Hy) as [ky Hky].
  by rewrite (compare_key_keyOf _ _ _ _ _ Hky), Hky.
Qed.

Lemma found_hit ns level L k :
  shape cmp ns level L →
  match succ cmp ns L k 0 with
  | None => Ok None
  | Some y =>
      c <~ skiplist.compare_key cmp ns y k ;;
      Ok (if negb (c =? 0)%Z then None else Some y)
  end = Ok (hit cmp ns L k).
Proof.
  intros Hshape. unfold hit. destruct (succ cmp ns L k 0) as [y|] eqn:Hy; [|done].
  destruct (succ_keyed cmp ns level L k Hshape 0 y
              ltac:(unfold skiplist.maxLevel; lia) Hy) as [ky Hky].
  rewrite (compare_key_keyOf _ _ _ _ _ Hky), Hky. cbn [rbind].
  by destruct (skiplist.Compare ky k =? 0)%Z.
Qed.

(** The descent of [Insert] and [Delete], up to the test on the key. *)
Lemma descend_update_run sl L k :
  Inv cmp sl L →
  ∃ update,
    skiplist.descend_update sl k (skiplist.level sl) (skiplist.head sl)
      (replicate skiplist.maxLevel None)
    = Ok (pred cmp (skiplist.nodes sl) L k 0, update)
    ∧ length update = skiplist.maxLevel
    ∧ (∀ i, i < skiplist.level sl →
            update !! i = Some (Some (pred cmp (skiplist.nodes sl) L k i)))
    ∧ (∀ i, skiplist.level sl ≤ i → i < skiplist.maxLevel → update !! i = Some None).
Proof.
  intros (Hhd & Hc & Hshape & Hsize).
  pose proof (sh_level _ _ _ _ Hshape) as Hlv.
  destruct (descend_update_spec cmp _ _ L k Hshape sl (skiplist.level sl)
              (skiplist.head sl) (replicate skiplist.maxLevel None) eq_refl Hc)
    as (u & Hu & Hl & Hlo & Hhi).
  - lia.
  - rewrite length_replicate. lia.
  - by left.
  - exists u. rewrite Hu, pos_match by lia. split; [done|].
    split; [by rewrite Hl, length_replicate|]. split; [done|].
    intros i Hi1 Hi2. rewrite Hhi by done. by apply lookup_replicate_2.
Qed.

Lemma splice_new ns level L k v lvl update :
  shape cmp ns level L → hit cmp ns L k = None →
  1 ≤ lvl ≤ skiplist.maxLevel →
  (∀ j, j < lvl → update !! j = Some (Some (pred cmp ns L k j))) →
  ∃ ns',
    skiplist.splice lvl 0
      (ns ++ [skiplist.mkNode (Some k) (Some v) (replicate lvl None)])
      update (length ns) = Ok ns'
    ∧ shape cmp ns' (level `max` lvl) (inserted cmp ns L k lvl (length ns))
    ∧ length ns' = S (length ns)
    ∧ (∀ b, b < length ns → keyOf ns' b = keyOf ns b ∧ valueOf ns' b = valueOf ns b)
    ∧ keyOf ns' (length ns) = Some k ∧ valueOf ns' (length ns) = Some v.
Proof.
  intros Hshape Hhit Hlvl Hup.
  set (node := skiplist.mkNode (Some k) (Some v) (replicate lvl None)).
  assert (∀ j, j < skiplist.maxLevel → pred cmp ns L k j < length ns) as Hplt.
  { intros j Hj. by eapply pred_lt. }
  destruct (splice_spec update (length ns) (pred cmp ns L k) lvl 0 (ns ++ [node]))
    as (ns' & Hrun & (Hlen & Hkey & Hval) & Hnxt).
  - intros j Hj. apply Hup. lia.
  - intros j Hj. rewrite nxt_alloc_old by (apply Hplt; lia).
    rewrite (nxt_pred cmp ns level L k Hshape j) by lia. by eexists.
  - intros j Hj. rewrite nxt_alloc_new. cbn [skiplist.forward node].
    rewrite lookup_replicate_2 by lia. by eexists.
  - intros j Hj. specialize (Hplt j ltac:(lia)). lia.
  - exists ns'. split; [done|].
    rewrite length_app in Hlen. cbn [length] in Hlen.
    split; [|split; [lia|split; [|split]]].
    + apply shape_insert; try done.
      * lia.
      * intros b Hb. by rewrite Hkey, keyOf_alloc_old.
      * by rewrite Hkey, keyOf_alloc_new.
      * intros j b Hb Hne. rewrite Hnxt.
        destruct (decide (0 ≤ j < 0 + lvl)) as [Hj|Hj].
        -- rewrite decide_False by lia. rewrite decide_False.
           ++ by apply nxt_alloc_old.
           ++ intros ->. apply Hne. split; [lia|done].
        -- by apply nxt_alloc_old.
      * intros j Hj. rewrite Hnxt. rewrite decide_True by lia.
        specialize (Hplt j ltac:(lia)).
        rewrite decide_False by lia. by rewrite decide_True.
      * intros j Hj. rewrite Hnxt. rewrite decide_True by lia.
        rewrite decide_True by done.
        rewrite nxt_alloc_old by (apply Hplt; lia).
        apply (nxt_pred cmp ns level L k Hshape j). lia.
    + intros b Hb. by rewrite Hkey, Hval, keyOf_alloc_old, valueOf_alloc_old.
    + by rewrite Hkey, keyOf_alloc_new.
    + rewrite Hval. unfold valueOf. rewrite lookup_app_r by lia.
      by rewrite Nat.sub_diag.
Qed.

(** [Insert] of a key that the list does not hold links a new node. *)
Lemma Insert_miss_data sl L k v :
  Inv cmp sl L → hit cmp (skiplist.nodes sl) L k = None →
  ∃ sl' lvl,
    skiplist.Insert sl k v = Ok sl'
    ∧ Inv cmp sl'
        (inserted cmp (skiplist.nodes sl) L k lvl (length (skiplist.nodes sl)))
    ∧ 1 ≤ lvl
    ∧ skiplist.size sl' = (skiplist.size sl + 1)%Z
    ∧ (∀ b, b < length (skiplist.nodes sl) →
            keyOf (skiplist.nodes sl') b = keyOf (skiplist.nodes sl) b
            ∧ valueOf (skiplist.nodes sl') b = valueOf (skiplist.nodes sl) b)
    ∧ keyOf (skiplist.nodes sl') (length (skiplist.nodes sl)) = Some k
    ∧ valueOf (skiplist.nodes sl') (length (skiplist.nodes sl)) = Some v.
Proof.
  intros HInv Hhit.
  destruct (descend_update_run sl L k HInv) as (u1 & Hrun & Hl1 & Hlo1 & Hhi1).
  destruct HInv as (Hhd & Hc & Hshape & Hsize).
  pose proof (sh_level _ _ _ _ Hshape) as Hlv.
  unfold skiplist.Insert. rewrite Hrun. cbn [rbind].
  rewrite (fwd_nxt _ _ _ _ (nxt_pred cmp _ _ L k Hshape 0
                              ltac:(unfold skiplist.maxLevel; lia))).
  cbn [rbind]. rewrite Hc, (exist_hit _ _ L k Hshape), Hhit. cbn [rbind].
  pose proof (randomLevel_bounds (skiplist.r sl)) as Hb.
  destruct (skiplist.randomLevel (skiplist.r sl)) as [lvl r'] eqn:Er.
  cbn [fst] in Hb.
  assert (∃ update level',
    (if (skiplist.level sl <? lvl)
     then update <~ skiplist.promote (lvl - skiplist.level sl) (skiplist.level sl)
                      (skiplist.head sl) u1 ;; Ok (update, lvl)
     else Ok (u1, skiplist.level sl)) = Ok (update, level')
    ∧ level' = skiplist.level sl `max` lvl
    ∧ ∀ j, j < lvl →
           update !! j = Some (Some (pred cmp (skiplist.nodes sl) L k j)))
    as (update & level' & -> & -> & Hup).
  { destruct (Nat.ltb_spec (skiplist.level sl) lvl) as [Hlt|Hge].
    - destruct (promote_spec (skiplist.head sl) (lvl - skiplist.level sl)
                  (skiplist.level sl) u1) as (u2 & -> & Hl2 & Hin2 & Hout2);
        [lia|].
      exists u2, lvl. split; [done|]. split; [lia|].
      intros j Hj. destruct (decide (j < skiplist.level sl)) as [Hjl|Hjl].
      + rewrite Hout2 by lia. by apply Hlo1.
      + rewrite Hin2 by lia. rewrite Hhd.
        by rewrite (pred_top cmp _ _ L k Hshape j) by lia.
    - exists u1, (skiplist.level sl). split; [done|]. split; [lia|].
      intros j Hj. apply Hlo1. lia. }
  cbn [rbind].
  destruct (splice_new _ _ L k v lvl update Hshape Hhit Hb Hup)
    as (ns' & -> & Hshape' & Hlen' & Hold & Hnk & Hnv).
  cbn [rbind]. eexists _, lvl. split; [done|].
  split; [|split; [lia|split; [done|done]]].
  split; [done|]. split; [done|]. split; [exact Hshape'|].
  cbn [skiplist.size].
  unfold inserted. rewrite decide_True by lia.
  rewrite length_app. cbn [length].
  pose proof (f_equal length (lower_upper (below cmp (skiplist.nodes sl) k) (L 0))) as Hlu.
  rewrite length_app in Hlu. lia.
Qed.

Lemma Insert_miss sl L k v :
  Inv cmp sl L → hit cmp (skiplist.nodes sl) L k = None →
  ∃ sl' lvl,
    skiplist.Insert sl k v = Ok sl'
    ∧ Inv cmp sl'
        (inserted cmp (skiplist.nodes sl) L k lvl (length (skiplist.nodes sl)))
    ∧ 1 ≤ lvl.
Proof.
  intros HInv Hhit.
  destruct (Insert_miss_data sl L k v HInv Hhit) as (sl' & lvl & ? & ? & ? & _).
  by exists sl', lvl.
Qed.

(** [Insert] of a key that the list holds replaces the value of its node. *)
Lemma Insert_hit sl L k v y :
  Inv cmp sl L → hit cmp (skiplist.nodes sl) L k = Some y →
  ∃ sl',
    skiplist.Insert sl k v = Ok sl' ∧ Inv cmp sl' L
    ∧ skiplist.size sl' = skiplist.size sl
    ∧ length (skiplist.nodes sl') = length (skiplist.nodes sl)
    ∧ (∀ b, keyOf (skiplist.nodes sl') b = keyOf (skiplist.nodes sl) b)
    ∧ (∀ j b, nxt (skiplist.nodes sl') j b = nxt (skiplist.nodes sl) j b)
    ∧ valueOf (skiplist.nodes sl') y = Some v
    ∧ (∀ b, b ≠ y → valueOf (skiplist.nodes sl') b = valueOf (skiplist.nodes sl) b).
Proof.
  intros HInv Hhit.
  destruct (descend_update_run sl L k HInv) as (u1 & Hrun & Hl1 & Hlo1 & Hhi1).
  destruct HInv as (Hhd & Hc & Hshape & Hsize).
  unfold skiplist.Insert. rewrite Hrun. cbn [rbind].
  rewrite (fwd_nxt _ _ _ _ (nxt_pred cmp _ _ L k Hshape 0
                              ltac:(unfold skiplist.maxLevel; lia))).
  cbn [rbind]. rewrite Hc, (exist_hit _ _ L k Hshape), Hhit. cbn [rbind].
  assert (∃ n, skiplist.nodes sl !! y = Some n) as [n Hn].
  { unfold hit in Hhit. destruct (succ cmp (skiplist.nodes sl) L k 0); [|done].
    unfold keyOf in Hhit. destruct (skiplist.nodes sl !! n) as [m|] eqn:E; [|done].
    destruct (skiplist.key m); [|done].
    destruct (skiplist.Compare k0 k =? 0)%Z; [|done].
    injection Hhit as <-. by exists m. }
  pose proof (lookup_lt_Some _ _ _ Hn) as Hy.
  unfold skiplist.deref. rewrite Hn. cbn [rbind].
  set (ns' := <[y := _]> (skiplist.nodes sl)).
  assert (∀ b, keyOf ns' b = keyOf (skiplist.nodes sl) b) as Hkey.
  { intros b. unfold keyOf, ns'. destruct (decide (b = y)) as [->|Hne].
    - by rewrite list_lookup_insert_eq, Hn.
    - by rewrite list_lookup_insert_ne. }
  assert (∀ j b, nxt ns' j b = nxt (skiplist.nodes sl) j b) as Hnxt.
  { intros j b. unfold nxt, ns'. destruct (decide (b = y)) as [->|Hne].
    - by rewrite list_lookup_insert_eq, Hn.
    - by rewrite list_lookup_insert_ne. }
  eexists. split; [done|]. cbn [skiplist.size skiplist.nodes].
  split; [|split; [done|split; [by unfold ns'; rewrite length_insert|
           split; [done|split; [done|split]]]]].
  - split; [done|]. split; [done|]. split; [|done]. cbn.
    destruct Hshape as [H1 H2 H3 H4 H5 H6 H7]. split; try done.
    + intros i Hi. eapply seg_frame; [|by apply H1]. intros b _. apply Hnxt.
    + intros i Hi. apply (keyed_same (skiplist.nodes sl)); [done|by apply H2].
    + intros i Hi. apply (ordered_same cmp (skiplist.nodes sl)); [done|by apply H3].
    + intros i Hi. unfold ns'. rewrite length_insert. by apply H7.
  - unfold valueOf, ns'. by rewrite list_lookup_insert_eq.
  - intros b Hb. unfold valueOf, ns'. by rewrite list_lookup_insert_ne.
Qed.

End insert_run.

(** * The loops of [Delete] *)

Section loops_delete.

Context {K V : Type}.

Abbreviation Node := (skiplist.Node (K := K) (V := V)).

Implicit Types (ns : list Node) (a b x y : nat) (i j : nat) (l : list nat).

Lemma unlink_spec (update : list (option nat)) x (u : nat → nat)
    (xn : nat → option nat) : ∀ n i ns t,
  i ≤ t ≤ i + n →
  (∀ j, i ≤ j < i + n → update !! j = Some (Some (u j))) →
  (∀ j, i ≤ j < t → nxt ns j (u j) = Some (Some x) ∧ nxt ns j x = Some (xn j)) →
  (t < i + n → ∃ p, nxt ns t (u t) = Some p ∧ p ≠ Some x) →
  ∃ ns',
    skiplist.unlink n i ns update x = Ok ns' ∧ same_data ns ns'
    ∧ ∀ j b, nxt ns' j b
             = if decide (i ≤ j < t ∧ b = u j) then Some (xn j) else nxt ns j b.
Proof.
  induction n as [|n IH]; intros i ns t Ht Hup Hin Hstop; cbn [skiplist.unlink].
  - exists ns. split; [done|]. split; [done|]. intros j b.
    rewrite decide_False; [done|lia].
  - rewrite (load_ok _ _ _ (Hup i ltac:(lia))). cbn [rbind].
    destruct (decide (t = i)) as [->|Hti].
    + destruct (Hstop ltac:(lia)) as (p & Hp & Hne).
      rewrite (fwd_nxt _ _ _ _ Hp). cbn [rbind].
      rewrite bool_decide_eq_false_2 by done. cbn [negb].
      exists ns. split; [done|]. split; [done|]. intros j b.
      rewrite decide_False; [done|lia].
    + destruct (Hin i ltac:(lia)) as [Hu Hx].
      rewrite (fwd_nxt _ _ _ _ Hu). cbn [rbind].
      rewrite bool_decide_eq_true_2 by done. cbn [negb].
      rewrite (fwd_nxt _ _ _ _ Hx). cbn [rbind].
      destruct (set_fwd_spec ns (u i) i (xn i) _ Hu) as (ns1 & -> & Hd1 & Hn1).
      cbn [rbind].
      assert (∀ j b, j ≠ i → nxt ns1 j b = nxt ns j b) as Hother.
      { intros j b Hj. rewrite Hn1, decide_False by (by intros [_ ?]). done. }
      destruct (IH (S i) ns1 t) as (ns' & -> & Hd' & Hn').
      * lia.
      * intros j Hj. apply Hup. lia.
      * intros j Hj. rewrite !Hother by lia. apply Hin. lia.
      * intros Hlt. rewrite Hother by lia. apply Hstop. lia.
      * exists ns'. split; [done|]. split; [by eapply same_data_trans|].
        intros j b. rewrite Hn'. destruct (decide (j = i)) as [->|Hj].
        -- rewrite (decide_False (P := S i ≤ i < t ∧ b = u i)) by lia.
           rewrite Hn1. destruct (decide (b = u i)) as [->|Hb].
           ++ rewrite decide_True by done. by rewrite decide_True by (split; [lia|done]).
           ++ rewrite decide_False by (by intros [? _]).
              by rewrite decide_False by (by intros [_ ?]).
        -- rewrite Hother by done.
           destruct (decide (S i ≤ j < t ∧ b = u j)) as [[? ?]|Hno].
           ++ by rewrite decide_True by (split; [lia|done]).
           ++ rewrite decide_False; [done|]. intros [? ?]. apply Hno. split; [lia|done].
Qed.

Lemma shrink_spec ns : ∀ n level,
  (∀ j, j < level → is_Some (nxt ns j 0)) →
  ∃ level',
    skiplist.shrink n ns 0 level = Ok level'
    ∧ level' ≤ level ∧ (1 ≤ level → 1 ≤ level')
    ∧ ∀ j, level' ≤ j < level → nxt ns j 0 = Some None.
Proof.
  induction n as [|n IH]; intros level Hdef; cbn [skiplist.shrink].
  - exists level. repeat split; try done. intros j Hj. lia.
  - destruct (Nat.ltb_spec 1 level) as [Hl|Hl].
    + destruct (Hdef (level - 1) ltac:(lia)) as [p Hp].
      rewrite (fwd_nxt _ _ _ _ Hp). cbn [rbind]. destruct p as [p|].
      * exists level. repeat split; try done. intros j Hj. lia.
      * destruct (IH (level - 1)) as (level' & -> & Hle & Hge & Hnil).
        { intros j Hj. apply Hdef. lia. }
        exists level'. split; [done|]. split; [lia|]. split; [intros _; apply Hge; lia|].
        intros j Hj. destruct (decide (j = level - 1)) as [->|Hne]; [done|].
        apply Hnil. lia.
    + exists level. repeat split; try done. intros j Hj. lia.
Qed.

End loops_delete.

(** * [Delete] keeps the invariant *)

Section delete.

Context {K V : Type} (cmp : skiplist.Comparator K) {laws : spec.ComparatorLaws cmp}.

Abbreviation Node := (skiplist.Node (K := K) (V := V)).
Abbreviation SkipList := (skiplist.SkipList (K := K) (V := V)).

Implicit Types (ns : list Node) (a b x y z : nat) (i j : nat) (l : list nat) (k : K)
  (L : nat → list nat) (sl : SkipList).

Section facts_delete.

Context (ns : list Node) (level : nat) (L : nat → list nat) (k : K) (x : nat).
Context (Hshape : shape cmp ns level L).
Context (Hhit : hit cmp ns L k = Some x).

Lemma hit_node :
  succ cmp ns L k 0 = Some x
  ∧ ∃ kx, keyOf ns x = Some kx ∧ skiplist.Compare kx k = 0%Z.
Proof using Hhit.
  unfold hit in Hhit. destruct (succ cmp ns L k 0) as [y|]; [|done].
  destruct (keyOf ns y) as [ky|] eqn:Hky; [|done].
  destruct (Z.eqb_spec (skiplist.Compare ky k) 0); [|done].
  injection Hhit as <-. split; [done|]. by exists ky.
Qed.

Lemma hit_in_0 : x ∈ L 0.
Proof using Hhit. destruct hit_node as [Hs _]. by apply succ_elem in Hs as [? _]. Qed.

Lemma hit_not_below : below cmp ns k x = false.
Proof using Hhit.
  destruct hit_node as [_ (kx & Hkx & Heq)]. unfold below. rewrite Hkx, Heq. done.
Qed.

Lemma hit_split i :
  i < skiplist.maxLevel → x ∈ L i →
  ∃ rest, upper (below cmp ns k) (L i) = x :: rest.
Proof using Hhit Hshape laws.
  intros Hi Hx. pose proof (sh_ordered _ _ _ _ Hshape i Hi) as Hord.
  destruct hit_node as [_ (kx & Hkx & Heq)].
  apply list_elem_of_split in Hx as (l1 & l2 & HL). rewrite HL in *.
  exists l2. rewrite upper_app.
  - cbn [upper]. by rewrite hit_not_below.
  - apply StronglySorted_app in Hord as (Hlt & _ & _).
    apply Forall_forall. intros a Ha.
    destruct (Hlt a x Ha ltac:(by left)) as (ka & kx' & Hka & Hkx' & Hlt').
    rewrite Hkx in Hkx'. injection Hkx' as <-.
    unfold below. rewrite Hka. apply Z.ltb_lt. by eapply spec.eq_lt_l.
Qed.

Lemma tower_down i j a :
  i ≤ j → j < skiplist.maxLevel → a ∈ L j → a ∈ L i.
Proof using Hshape.
  induction 1 as [|j Hij IH]; [done|]. intros Hj Ha.
  apply IH; [lia|]. by apply (sh_tower _ _ _ _ Hshape).
Qed.

(** The number of levels at which [x] is linked. *)
Lemma height_exists :
  ∃ t, t ≤ level ∧ (∀ j, j < t → x ∈ L j)
       ∧ (∀ j, t ≤ j → j < skiplist.maxLevel → x ∉ L j).
Proof using Hshape.
  assert (∀ n, n ≤ level →
            ∃ t, t ≤ n ∧ (∀ j, j < t → x ∈ L j) ∧ (t < n → x ∉ L t)) as Hex.
  { induction n as [|n IH]; intros Hn.
    - exists 0. repeat split; [lia..].
    - destruct (IH ltac:(lia)) as (t & Ht & Hin & Hout).
      destruct (decide (t < n)) as [Hlt|Hge].
      + exists t. split; [lia|]. split; [done|]. intros _. by apply Hout.
      + assert (t = n) as -> by lia.
        destruct (decide (x ∈ L n)) as [Hx|Hx].
        * exists (S n). split; [lia|]. split; [|lia].
          intros j Hj. destruct (decide (j = n)) as [->|]; [done|].
          apply Hin. lia.
        * exists n. split; [lia|]. split; [done|]. done. }
  destruct (Hex level (le_n _)) as (t & Ht & Hin & Hout).
  pose proof (sh_level _ _ _ _ Hshape) as Hlv.
  exists t. split; [done|]. split; [done|].
  intros j Hj Hmax Hx. destruct (decide (t < level)) as [Hlt|Hge].
  - apply (Hout Hlt). by apply (tower_down t j).
  - rewrite (sh_top _ _ _ _ Hshape j) in Hx by lia. by apply elem_of_nil in Hx.
Qed.

Lemma elem_of_removed i a :
  i < skiplist.maxLevel → a ∈ removed cmp ns L k x i ↔ a ∈ L i ∧ a ≠ x.
Proof using Hhit Hshape laws.
  intros Hi. unfold removed. destruct (decide (x ∈ L i)) as [Hx|Hx].
  - destruct (hit_split i Hi Hx) as [rest Hup]. rewrite Hup. cbn [drop].
    pose proof (sh_ordered _ _ _ _ Hshape i Hi) as Hord.
    apply (ordered_NoDup cmp) in Hord.
    pose proof (lower_upper (below cmp ns k) (L i)) as HL. rewrite Hup in HL.
    remember (lower (below cmp ns k) (L i)) as lo eqn:Elo. clear Elo.
    rewrite <- HL in Hord |- *.
    apply NoDup_app in Hord as (_ & Hdis & Hnd).
    apply NoDup_cons in Hnd as [Hxr _].
    rewrite !elem_of_app, elem_of_cons. split.
    + intros [Ha|Ha].
      * split; [by left|]. intros ->. apply (Hdis x Ha). by left.
      * split; [by right; right|]. by intros ->.
    + intros [[Ha|[->|Ha]] Hne]; [by left|done|by right].
  - split; [|by intros [? _]]. intros Ha. split; [done|]. by intros ->.
Qed.

Lemma shape_delete ns' level' t :
  length ns' = length ns →
  (∀ b, keyOf ns' b = keyOf ns b) →
  t ≤ level → (∀ j, j < t → x ∈ L j) →
  (∀ j, t ≤ j → j < skiplist.maxLevel → x ∉ L j) →
  (∀ j b, nxt ns' j b
          = if decide (j < t ∧ b = pred cmp ns L k j)
            then Some (first (drop 1 (upper (below cmp ns k) (L j))) None)
            else nxt ns j b) →
  1 ≤ level' ≤ level →
  (∀ j, level' ≤ j < level → nxt ns' j 0 = Some None) →
  shape cmp ns' level' (removed cmp ns L k x).
Proof using Hhit Hshape laws.
  intros Hlen Hkey Ht Hin Hout Hnxt Hlv' Htop.
  pose proof (sh_level _ _ _ _ Hshape) as Hlv.
  assert (∀ i, i < skiplist.maxLevel →
            seg ns' i 0 (removed cmp ns L k x i) None) as Hchain.
  { intros i Hi. unfold removed. destruct (decide (x ∈ L i)) as [Hx|Hx].
    - assert (i < t) as Hit.
      { destruct (decide (i < t)); [done|]. exfalso. apply (Hout i); [lia|done..]. }
      destruct (hit_split i Hi Hx) as [rest Hup]. rewrite Hup. cbn [drop].
      pose proof (sh_chain _ _ _ _ Hshape i Hi) as Hseg.
      pose proof (sh_ordered _ _ _ _ Hshape i Hi) as Hord.
      rewrite <- (lower_upper (below cmp ns k) (L i)), Hup in Hseg, Hord.
      apply (seg_rebuild ns ns' i 0 _ (Some x)).
      + by apply seg_prefix in Hseg.
      + apply NoDup_cons. split.
        * intros H0%lower_subseteq.
          by destruct (chain_keyed cmp ns level L Hshape i 0 Hi H0).
        * apply (ordered_NoDup cmp) in Hord. by apply NoDup_app in Hord as (? & _).
      + fold (pred cmp ns L k i). rewrite Hnxt.
        rewrite decide_True by done. by rewrite Hup.
      + intros b Hb Hne. rewrite Hnxt. rewrite decide_False; [done|].
        intros [_ ?]. done.
      + apply seg_suffix in Hseg. destruct rest as [|h r]; [done|].
        destruct Hseg as [_ Hseg]. eapply seg_frame; [|done].
        intros b Hb. rewrite Hnxt. rewrite decide_False; [done|].
        intros [_ ->].
        apply (pred_not_in_upper cmp ns level L k Hshape i Hi).
        rewrite Hup. by right.
    - eapply seg_frame; [|by apply (sh_chain _ _ _ _ Hshape)].
      intros b Hb. rewrite Hnxt. rewrite decide_False; [done|].
      intros [Hit _]. apply Hx. by apply Hin. }
  split.
  - done.
  - intros i Hi. unfold keyed. apply Forall_forall. intros a Ha.
    apply (elem_of_removed i a Hi) in Ha as [Ha _].
    rewrite Hkey. destruct (chain_keyed cmp ns level L Hshape i a Hi Ha) as [? [ka ->]].
    split; [done|by eexists].
  - intros i Hi. apply (ordered_same cmp ns); [done|].
    pose proof (sh_ordered _ _ _ _ Hshape i Hi) as Hord.
    unfold removed. destruct (decide (x ∈ L i)) as [Hx|Hx]; [|done].
    destruct (hit_split i Hi Hx) as [rest Hup]. rewrite Hup. cbn [drop].
    rewrite <- (lower_upper (below cmp ns k) (L i)), Hup in Hord.
    apply StronglySorted_app in Hord as (Hlt & Hlo & Hhi).
    apply StronglySorted_cons in Hhi as [_ Hhi].
    apply StronglySorted_app. split; [|done].
    intros x1 x2 H1 H2. apply Hlt; [done|by right].
  - intros i a Hi Ha. apply (elem_of_removed (S i) a Hi) in Ha as [Ha Hne].
    apply (elem_of_removed i a ltac:(lia)). split; [|done].
    by apply (sh_tower _ _ _ _ Hshape).
  - lia.
  - intros i Hi1 Hi2. destruct (decide (i < level)) as [Hil|Hil].
    + specialize (Hchain i Hi2). apply seg_first in Hchain.
      rewrite Htop in Hchain by lia.
      destruct (removed cmp ns L k x i); [done|]. by injection Hchain.
    + assert (L i = []) as HL by (apply (sh_top _ _ _ _ Hshape); lia).
      unfold removed. rewrite HL. rewrite decide_False; [done|].
      by intros ?%elem_of_nil.
  - intros i Hi. pose proof (sh_fuel _ _ _ _ Hshape i Hi) as Hf. rewrite Hlen.
    unfold removed. destruct (decide (x ∈ L i)); [|done].
    pose proof (f_equal length (lower_upper (below cmp ns k) (L i))) as Hlu.
    rewrite length_app in *. rewrite length_drop. lia.
Qed.

(** Once [x] is unlinked, no node holds a key EQUAL to [k]. *)
Lemma removed_hit ns' :
  (∀ b, keyOf ns' b = keyOf ns b) →
  hit cmp ns' (removed cmp ns L k x) k = None.
Proof using Hhit Hshape laws.
  intros Hkey.
  assert (0 < skiplist.maxLevel) as H0 by (unfold skiplist.maxLevel; lia).
  destruct (hit_split 0 H0 hit_in_0) as [rest Hup].
  destruct hit_node as [_ (kx & Hkx & Heq)].
  pose proof (sh_ordered _ _ _ _ Hshape 0 H0) as Hord.
  rewrite <- (lower_upper (below cmp ns k) (L 0)), Hup in Hord.
  apply StronglySorted_app in Hord as (_ & _ & Hhi).
  apply StronglySorted_cons in Hhi as [Hall _]. rewrite Forall_forall in Hall.
  assert (∀ a, below cmp ns' k a = below cmp ns k a) as Hb.
  { intros a. by apply below_same. }
  unfold hit, succ, removed. rewrite decide_True by apply hit_in_0.
  rewrite Hup. cbn [drop]. rewrite drop_0.
  rewrite upper_app.
  2:{ eapply Forall_impl; [apply lower_Forall|]. intros a. cbn. by rewrite Hb. }
  destruct rest as [|z rest]; [done|]. cbn [upper].
  destruct (Hall z ltac:(by left)) as (kx' & kz & Hkx' & Hkz & Hlt).
  rewrite Hkx in Hkx'. injection Hkx' as <-.
  assert (skiplist.Compare k kz < 0)%Z as Hlt' by (by eapply spec.eq_lt_r).
  assert (0 < skiplist.Compare kz k)%Z as Hgt by (by apply spec.gt_lt).
  unfold below at 1. rewrite Hkey, Hkz.
  destruct (Z.ltb_spec (skiplist.Compare kz k) 0); [lia|].
  cbn [first]. rewrite Hkey, Hkz.
  destruct (Z.eqb_spec (skiplist.Compare kz k) 0); [lia|done].
Qed.

End facts_delete.

End delete.

Section delete_run.

Context {K V : Type} (cmp : skiplist.Comparator K) {laws : spec.ComparatorLaws cmp}.

Abbreviation Node := (skiplist.Node (K := K) (V := V)).
Abbreviation SkipList := (skiplist.SkipList (K := K) (V := V)).

Implicit Types (ns : list Node) (a b x y z : nat) (i j : nat) (l : list nat) (k : K)
  (L : nat → list nat) (sl : SkipList).

(** [Delete] of a key that the list does not hold changes nothing. *)
Lemma Delete_miss sl L k :
  Inv cmp sl L → hit cmp (skiplist.nodes sl) L k = None →
  skiplist.Delete sl k = Ok (false, sl).
Proof.
  intros HInv Hhit.
  destruct (descend_update_run cmp sl L k HInv) as (u1 & Hrun & _).
  destruct HInv as (Hhd & Hc & Hshape & Hsize).
  unfold skiplist.Delete. rewrite Hrun. cbn [rbind].
  rewrite (fwd_nxt _ _ _ _ (nxt_pred cmp _ _ L k Hshape 0
                              ltac:(unfold skiplist.maxLevel; lia))).
  cbn [rbind]. by rewrite Hc, (found_hit cmp _ _ L k Hshape), Hhit.
Qed.

(** [Delete] of a key that the list holds unlinks its node. *)
Lemma Delete_hit_data sl L k x :
  Inv cmp sl L → hit cmp (skiplist.nodes sl) L k = Some x →
  ∃ sl',
    skiplist.Delete sl k = Ok (true, sl')
    ∧ Inv cmp sl' (removed cmp (skiplist.nodes sl) L k x)
    ∧ skiplist.size sl' = (skiplist.size sl - 1)%Z
    ∧ hit cmp (skiplist.nodes sl') (removed cmp (skiplist.nodes sl) L k x) k = None
    ∧ same_data (skiplist.nodes sl) (skiplist.nodes sl').
Proof.
  intros HInv Hhit.
  destruct (descend_update_run cmp sl L k HInv) as (u1 & Hrun & Hl1 & Hlo1 & Hhi1).
  destruct HInv as (Hhd & Hc & Hshape & Hsize).
  pose proof (sh_level _ _ _ _ Hshape) as Hlv.
  unfold skiplist.Delete. rewrite Hrun. cbn [rbind].
  rewrite (fwd_nxt _ _ _ _ (nxt_pred cmp _ _ L k Hshape 0
                              ltac:(unfold skiplist.maxLevel; lia))).
  cbn [rbind]. rewrite Hc, (found_hit cmp _ _ L k Hshape), Hhit. cbn [rbind].
  set (ns := skiplist.nodes sl) in *. set (level := skiplist.level sl) in *.
  destruct (height_exists cmp ns level L x Hshape) as (t & Ht & Hin & Hout).
  assert (∀ j, j < t → ∃ rest, upper (below cmp ns k) (L j) = x :: rest) as Hsplit.
  { intros j Hj. apply (hit_split cmp ns level L k x Hshape Hhit); [lia|by apply Hin]. }
  destruct (unlink_spec u1 x (pred cmp ns L k)
              (λ j, first (drop 1 (upper (below cmp ns k) (L j))) None)
              level 0 ns t) as (ns' & -> & (Hlen & Hkey & Hval) & Hnxt).
  - lia.
  - intros j Hj. apply Hlo1. lia.
  - intros j Hj. destruct (Hsplit j ltac:(lia)) as [rest Hup].
    rewrite (nxt_pred cmp ns level L k Hshape j) by lia. unfold succ.
    rewrite Hup. split; [done|]. cbn [drop]. rewrite drop_0.
    pose proof (sh_chain _ _ _ _ Hshape j ltac:(lia)) as Hseg.
    rewrite <- (lower_upper (below cmp ns k) (L j)), Hup in Hseg.
    apply seg_suffix in Hseg. by apply seg_first in Hseg.
  - intros Hlt. exists (succ cmp ns L k t). split.
    + apply (nxt_pred cmp ns level L k Hshape). lia.
    + intros Hs. apply succ_elem in Hs as [Hx _]. apply (Hout t); [lia|lia|done].
  - cbn [rbind].
    assert (∀ j b, nxt ns' j b
              = if decide (j < t ∧ b = pred cmp ns L k j)
                then Some (first (drop 1 (upper (below cmp ns k) (L j))) None)
                else nxt ns j b) as Hnxt'.
    { intros j b. rewrite Hnxt. destruct (decide (j < t ∧ b = pred cmp ns L k j)) as [[? ?]|Hno].
      - by rewrite decide_True by (split; [lia|done]).
      - rewrite decide_False; [done|]. intros [? ?]. apply Hno. split; [lia|done]. }
    destruct (shrink_spec ns' level level) as (level' & Hshrink & Hle & Hge & Hnil).
    { intros j Hj. rewrite Hnxt'. destruct (decide _); [by eexists|].
      pose proof (sh_chain _ _ _ _ Hshape j ltac:(lia)) as Hseg.
      apply seg_first in Hseg. by eexists. }
    rewrite Hhd, Hshrink. cbn [rbind].
    assert (shape cmp ns' level' (removed cmp ns L k x)) as Hshape'.
    { apply (shape_delete cmp ns level L k x Hshape Hhit ns' level' t); try done.
      split; [apply Hge|]; lia. }
    eexists. split; [done|]. split; [|split; [done|split; [|done]]].
    + split; [done|]. split; [done|]. split; [done|]. cbn [skiplist.size].
      rewrite Hsize.
      pose proof (hit_in_0 cmp ns L k x Hhit) as Hx0.
      destruct (hit_split cmp ns level L k x Hshape Hhit 0
                  ltac:(unfold skiplist.maxLevel; lia) Hx0) as [rest Hup].
      unfold removed. rewrite decide_True by done. rewrite Hup. cbn [drop].
      pose proof (f_equal length (lower_upper (below cmp ns k) (L 0))) as Hlu.
      rewrite Hup in Hlu. rewrite length_app in *. cbn [length] in Hlu.
      rewrite drop_0. lia.
    + cbn [skiplist.nodes]. by apply (removed_hit cmp ns level L k x Hshape Hhit).
Qed.

Lemma Delete_hit sl L k x :
  Inv cmp sl L → hit cmp (skiplist.nodes sl) L k = Some x →
  ∃ sl',
    skiplist.Delete sl k = Ok (true, sl')
    ∧ Inv cmp sl' (removed cmp (skiplist.nodes sl) L k x)
    ∧ skiplist.size sl' = (skiplist.size sl - 1)%Z
    ∧ hit cmp (skiplist.nodes sl') (removed cmp (skiplist.nodes sl) L k x) k = None.
Proof.
  intros HInv Hhit.
  destruct (Delete_hit_data sl L k x HInv Hhit) as (sl' & ? & ? & ? & ? & _).
  by exists sl'.
Qed.

End delete_run.

(** * Every list that the code builds satisfies the invariant *)

Section reach.

Context {K V : Type} (cmp : skiplist.Comparator K) {laws : spec.ComparatorLaws cmp}.

Abbreviation Node := (skiplist.Node (K := K) (V := V)).
Abbreviation SkipList := (skiplist.SkipList (K := K) (V := V)).

Implicit Types (ns : list Node) (a b x y z : nat) (i j : nat) (l : list nat) (k : K)
  (L : nat → list nat) (sl : SkipList).

Lemma Inv_new seed :
  ∃ sl, skiplist.NewSkipList (V := V) (Some cmp) seed = Ok sl ∧ Inv cmp sl (λ _, []).
Proof.
  eexists. split; [done|]. split; [done|]. split; [done|]. split; [|done].
  cbn [skiplist.nodes skiplist.level]. split.
  - intros i Hi. cbn [seg].
    assert (∀ n : Node, nxt [n] i 0 = skiplist.forward n !! i) as -> by done.
    cbn [skiplist.forward]. by rewrite lookup_replicate_2.
  - intros i Hi. constructor.
  - intros i Hi. constructor.
  - intros i a _ Ha. by apply elem_of_nil in Ha.
  - unfold skiplist.maxLevel. lia.
  - done.
  - intros i Hi. cbn. lia.
Qed.

Lemma Inv_run ops : ∀ sl L,
  Inv cmp sl L → ∃ sl' L', spec.run ops sl = Ok sl' ∧ Inv cmp sl' L'.
Proof.
  induction ops as [|[k v|k] ops IH]; intros sl L HInv; cbn [spec.run].
  - by exists sl, L.
  - destruct (hit cmp (skiplist.nodes sl) L k) as [y|] eqn:Hhit.
    + destruct (Insert_hit cmp sl L k v y HInv Hhit) as (sl' & -> & HInv' & _).
      cbn [rbind]. by eapply IH.
    + destruct (Insert_miss cmp sl L k v HInv Hhit) as (sl' & lvl & -> & HInv' & _).
      cbn [rbind]. by eapply IH.
  - destruct (hit cmp (skiplist.nodes sl) L k) as [y|] eqn:Hhit.
    + destruct (Delete_hit cmp sl L k y HInv Hhit) as (sl' & -> & HInv' & _).
      cbn [rbind snd]. by eapply IH.
    + rewrite (Delete_miss cmp sl L k HInv Hhit). cbn [rbind snd]. by eapply IH.
Qed.

Lemma Inv_build seed ops sl :
  spec.build cmp seed ops = Ok sl → ∃ L, Inv cmp sl L.
Proof.
  unfold spec.build. destruct (Inv_new seed) as (sl0 & -> & HInv0). cbn [rbind].
  destruct (Inv_run ops sl0 _ HInv0) as (sl' & L' & -> & HInv').
  intros [= <-]. by exists L'.
Qed.

Lemma build_total seed ops : ∃ sl, spec.build (V := V) cmp seed ops = Ok sl.
Proof.
  unfold spec.build. destruct (Inv_new seed) as (sl0 & -> & HInv0). cbn [rbind].
  destruct (Inv_run ops sl0 _ HInv0) as (sl' & L' & -> & HInv'). by exists sl'.
Qed.

(** ** What the iterations see *)

Lemma keys_from_seg ns i : ∀ l x fuel,
  seg ns i x l None → keyed ns l → length l ≤ fuel →
  spec.keys_from fuel ns i (first l None) = Ok (map (keyOf ns) l).
Proof.
  induction l as [|a l IH]; intros x fuel Hseg Hk Hfuel.
  - by destruct fuel.
  - destruct fuel as [|fuel]; [cbn in Hfuel; lia|].
    destruct Hseg as [_ Hseg]. apply Forall_cons in Hk as [[_ [ka Hka]] Hk].
    cbn [first spec.keys_from].
    destruct (deref_valueOf ns a ka Hka) as (n & -> & Hn & _). cbn [rbind].
    rewrite (fwd_nxt _ _ _ _ (seg_first _ _ _ _ _ Hseg)). cbn [rbind].
    rewrite (IH a fuel) by (try done; cbn in Hfuel; lia). cbn [rbind map].
    by rewrite Hn, Hka.
Qed.

Lemma level_keys_spec sl L i :
  Inv cmp sl L → i < skiplist.maxLevel →
  spec.level_keys sl i = Ok (map (keyOf (skiplist.nodes sl)) (L i)).
Proof.
  intros (Hhd & Hc & Hshape & Hsize) Hi. unfold spec.level_keys. rewrite Hhd.
  pose proof (sh_chain _ _ _ _ Hshape i Hi) as Hseg.
  rewrite (fwd_nxt _ _ _ _ (seg_first _ _ _ _ _ Hseg)). cbn [rbind].
  apply (keys_from_seg _ i (L i) 0); [done|by apply (sh_keyed _ _ _ _ Hshape)|].
  pose proof (sh_fuel _ _ _ _ Hshape i Hi). lia.
Qed.

Lemma iterate_seg sl : ∀ l x fuel,
  seg (skiplist.nodes sl) 0 x l None → keyed (skiplist.nodes sl) l →
  length l ≤ fuel →
  spec.iterate fuel sl (skiplist.mkIterator (first l None))
  = Ok (map (λ a, (keyOf (skiplist.nodes sl) a, valueOf (skiplist.nodes sl) a)) l).
Proof.
  induction l as [|a l IH]; intros x fuel Hseg Hk Hfuel.
  - by destruct fuel.
  - destruct fuel as [|fuel]; [cbn in Hfuel; lia|].
    destruct Hseg as [_ Hseg]. apply Forall_cons in Hk as [[_ [ka Hka]] Hk].
    cbn [first spec.iterate skiplist.Valid skiplist.current].
    unfold skiplist.Iterator_Key, skiplist.Iterator_Value, skiplist.Iterator_Next.
    cbn [skiplist.current].
    destruct (deref_valueOf _ a ka Hka) as (n & -> & Hn & Hv). cbn [rbind].
    rewrite (fwd_nxt _ _ _ _ (seg_first _ _ _ _ _ Hseg)). cbn [rbind].
    rewrite (IH a fuel) by (try done; cbn in Hfuel; lia). cbn [rbind map].
    by rewrite Hn, Hv, Hka.
Qed.

Lemma entries_spec sl L :
  Inv cmp sl L →
  spec.entries sl
  = Ok (map (λ a, (keyOf (skiplist.nodes sl) a, valueOf (skiplist.nodes sl) a)) (L 0)).
Proof.
  intros (Hhd & Hc & Hshape & Hsize).
  assert (0 < skiplist.maxLevel) as H0 by (unfold skiplist.maxLevel; lia).
  unfold spec.entries, skiplist.NewIterator. rewrite Hhd.
  pose proof (sh_chain _ _ _ _ Hshape 0 H0) as Hseg.
  rewrite (fwd_nxt _ _ _ _ (seg_first _ _ _ _ _ Hseg)). cbn [rbind].
  apply (iterate_seg sl (L 0) 0); [done|by apply (sh_keyed _ _ _ _ Hshape)|].
  pose proof (sh_fuel _ _ _ _ Hshape 0 H0). lia.
Qed.

(** The keys of an ordered chain are strictly increasing. *)
Lemma ordered_keys ns l :
  ordered cmp ns l → keyed ns l →
  ∃ ks, map (keyOf ns) l = map Some ks ∧ StronglySorted (spec.lt cmp) ks.
Proof.
  induction 1 as [|a l Hord IH Hall]; intros Hk.
  - exists []. split; [done|constructor].
  - apply Forall_cons in Hk as [[_ [ka Hka]] Hk].
    destruct (IH Hk) as (ks & Hks & Hsorted).
    exists (ka :: ks). split; [cbn; by rewrite Hka, Hks|].
    constructor; [done|]. apply Forall_forall. intros kb Hkb.
    assert (Some kb ∈ map (keyOf ns) l) as Hin.
    { rewrite Hks. apply list_elem_of_fmap. by exists kb. }
    apply list_elem_of_fmap in Hin as (b & Hb & Hbl).
    rewrite Forall_forall in Hall.
    destruct (Hall b Hbl) as (ka' & kb' & Hka' & Hkb' & Hlt).
    rewrite Hka in Hka'. injection Hka' as <-.
    rewrite <- Hb in Hkb'. injection Hkb' as <-. done.
Qed.

Lemma sorted_distinct (ks : list K) :
  StronglySorted (spec.lt cmp) ks →
  ∀ i j ki kj, i < j → ks !! i = Some ki → ks !! j = Some kj →
               (skiplist.Compare ki kj < 0)%Z.
Proof.
  induction 1 as [|k ks Hs IH Hall]; intros i j ki kj Hij Hi Hj; [done|].
  destruct j as [|j]; [lia|]. cbn in Hj. destruct i as [|i].
  - cbn in Hi. injection Hi as <-. rewrite Forall_forall in Hall.
    apply Hall. by eapply list_elem_of_lookup_2.
  - cbn in Hi. apply (IH i j); [lia|done..].
Qed.

End reach.

(** * Theorems on the skip list *)

Lemma IntComparator_laws : spec.ComparatorLaws skiplist.IntComparator.
Proof.
  split; intros *; cbn;
    repeat match goal with
           | |- context [(?a <? ?b)%Z] => destruct (Z.ltb_spec a b)
           end; lia.
Qed.

Section hit_stable.

Context {K V : Type} (cmp : skiplist.Comparator K).

Lemma upper_ext (p q : nat → bool) l : (∀ a, p a = q a) → upper p l = upper q l.
Proof.
  intros H. induction l as [|a l IH]; cbn; [done|]. by rewrite H, IH.
Qed.

Lemma hit_same (ns ns' : list (skiplist.Node (K := K) (V := V))) L k :
  (∀ b, keyOf ns' b = keyOf ns b) → hit cmp ns' L k = hit cmp ns L k.
Proof.
  intros Hk. unfold hit, succ.
  rewrite (upper_ext (below cmp ns' k) (below cmp ns k)).
  - destruct (first _ _); [|done]. by rewrite Hk.
  - intros a. unfold below. by rewrite Hk.
Qed.

End hit_stable.

(** C5.  For a comparator that is a strict total order, every sequence of
    [Insert] and [Delete] on a new list runs to its end, and then at every
    level the keys of the forward-linked nodes are strictly increasing; a
    full iteration from a new iterator yields strictly increasing keys, no
    two of which compare EQUAL. *)
Theorem skiplist_levels_strictly_increasing {K V : Type}
    (cmp : skiplist.Comparator K) (laws : spec.ComparatorLaws cmp)
    (seed : nat → bool) (ops : list (spec.op (K := K) (V := V))) :
  ∃ sl,
    spec.build cmp seed ops = Ok sl
    ∧ (∀ i, i < skiplist.maxLevel →
            ∃ ks, spec.level_keys sl i = Ok (map Some ks)
                  ∧ StronglySorted (spec.lt cmp) ks)
    ∧ ∃ es ks,
        spec.entries sl = Ok es ∧ map fst es = map Some ks
        ∧ StronglySorted (spec.lt cmp) ks
        ∧ ∀ i j ki kj, i ≠ j → ks !! i = Some ki → ks !! j = Some kj →
                       skiplist.Compare ki kj ≠ 0%Z.
Proof.
  destruct (build_total cmp seed ops) as [sl Hsl]. exists sl. split; [done|].
  destruct (Inv_build cmp seed ops sl Hsl) as [L HInv].
  pose proof HInv as (Hhd & Hc & Hshape & Hsize). split.
  - intros i Hi. rewrite (level_keys_spec cmp sl L i HInv Hi).
    destruct (ordered_keys cmp _ (L i) (sh_ordered _ _ _ _ Hshape i Hi)
                (sh_keyed _ _ _ _ Hshape i Hi)) as (ks & -> & Hks).
    by exists ks.
  - assert (0 < skiplist.maxLevel) as H0 by (unfold skiplist.maxLevel; lia).
    rewrite (entries_spec cmp sl L HInv).
    destruct (ordered_keys cmp _ (L 0) (sh_ordered _ _ _ _ Hshape 0 H0)
                (sh_keyed _ _ _ _ Hshape 0 H0)) as (ks & Hks & Hsorted).
    eexists _, ks. split; [done|]. split; [|split; [done|]].
    + rewrite <- Hks. rewrite <- list_fmap_compose. done.
    + intros i j ki kj Hij Hi Hj.
      destruct (Nat.lt_total i j) as [Hlt|[?|Hlt]]; [|done|].
      * pose proof (sorted_distinct cmp ks Hsorted i j ki kj Hlt Hi Hj). lia.
      * pose proof (sorted_distinct cmp ks Hsorted j i kj ki Hlt Hj Hi) as H.
        apply spec.gt_lt in H. lia.
Qed.

Lemma skiplist_levels_strictly_increasing_witness :
  ∃ sl,
    spec.build skiplist.IntComparator Nat.even ops_example = Ok sl
    ∧ spec.level_keys sl 0 = Ok [Some 1; Some 3; Some 5]%Z
    ∧ spec.entries sl = Ok [(Some 1, Some 10); (Some 3, Some 31); (Some 5, Some 50)]%Z.
Proof.
  destruct (skiplist_levels_strictly_increasing skiplist.IntComparator
              IntComparator_laws Nat.even ops_example) as (sl & Hsl & _).
  exists sl. split; [exact Hsl|].
  vm_compute in Hsl. injection Hsl as <-. split; vm_compute; reflexivity.
Defined.

(** C6.  On a list built by [Insert] and [Delete] that holds a key EQUAL
    to [k], [Insert k v] replaces the value in place: [Find k] then returns
    [v], [Size] is unchanged, the iteration yields the same keys as before,
    and exactly one of its entries has a key EQUAL to [k], with value [v]. *)
Theorem Insert_existing_key_replaces_value {K V : Type}
    (cmp : skiplist.Comparator K) (laws : spec.ComparatorLaws cmp)
    (seed : nat → bool) (ops : list (spec.op (K := K) (V := V)))
    (sl : skiplist.SkipList) (k : K) (v : V) :
  spec.build cmp seed ops = Ok sl →
  (∃ v0, skiplist.Find sl k = Ok (v0, true)) →
  ∃ sl',
    skiplist.Insert sl k v = Ok sl'
    ∧ skiplist.Find sl' k = Ok (Some v, true)
    ∧ skiplist.Size sl' = skiplist.Size sl
    ∧ ∃ es es1 kx es2,
        spec.entries sl = Ok es
        ∧ spec.entries sl' = Ok (es1 ++ (Some kx, Some v) :: es2)
        ∧ map fst (es1 ++ (Some kx, Some v) :: es2) = map fst es
        ∧ skiplist.Compare kx k = 0%Z
        ∧ ∀ e k', e ∈ es1 ++ es2 → e.1 = Some k' → skiplist.Compare k' k ≠ 0%Z.
Proof.
  intros Hsl [v0 Hfind].
  destruct (Inv_build cmp seed ops sl Hsl) as [L HInv].
  pose proof HInv as (Hhd & Hc & Hshape & Hsize).
  assert (0 < skiplist.maxLevel) as H0 by (unfold skiplist.maxLevel; lia).
  rewrite (Find_spec cmp _ _ L k Hshape sl eq_refl Hc eq_refl Hhd) in Hfind.
  destruct (hit cmp (skiplist.nodes sl) L k) as [y|] eqn:Hhit; [|done].
  destruct (Insert_hit cmp sl L k v y HInv Hhit)
    as (sl' & Hins & HInv' & Hsz & Hlen & Hkey & Hnxt & Hvy & Hvo).
  pose proof HInv' as (Hhd' & Hc' & Hshape' & Hsize').
  exists sl'. split; [done|]. split; [|split; [done|]].
  - rewrite (Find_spec cmp _ _ L k Hshape' sl' eq_refl Hc' eq_refl Hhd').
    rewrite (hit_same cmp _ _ L k Hkey), Hhit. by rewrite Hvy.
  - rewrite (entries_spec cmp sl L HInv), (entries_spec cmp sl' L HInv').
    destruct (hit_node cmp _ L k y Hhit) as [_ (kx & Hkx & Heq)].
    destruct (hit_split cmp _ _ L k y Hshape Hhit 0 H0 (hit_in_0 cmp _ L k y Hhit))
      as [rest Hup].
    pose proof (lower_upper (below cmp (skiplist.nodes sl) k) (L 0)) as HL.
    rewrite Hup in HL.
    pose proof (sh_ordered _ _ _ _ Hshape 0 H0) as Hord.
    pose proof (lower_Forall (below cmp (skiplist.nodes sl) k) (L 0)) as Hlo.
    remember (lower (below cmp (skiplist.nodes sl) k) (L 0)) as lo eqn:Elo. clear Elo.
    rewrite <- HL in *. clear HL.
    set (f' := λ a, (keyOf (skiplist.nodes sl') a, valueOf (skiplist.nodes sl') a)).
    set (f := λ a, (keyOf (skiplist.nodes sl) a, valueOf (skiplist.nodes sl) a)).
    exists (map f (lo ++ y :: rest)), (map f' lo), kx, (map f' rest).
    split; [done|]. split; [|split; [|split; [done|]]].
    + rewrite map_app. cbn [map]. unfold f' at 2. by rewrite Hkey, Hkx, Hvy.
    + rewrite !map_app. cbn [map].
      rewrite !map_map. f_equal; [|f_equal].
      * apply map_ext. intros a. unfold f, f'. cbn [fst]. by rewrite Hkey.
      * unfold f. cbn [fst]. by rewrite Hkx.
      * apply map_ext. intros a. unfold f, f'. cbn [fst]. by rewrite Hkey.
    + intros e k' He Hek. apply elem_of_app in He as [He|He].
      * apply list_elem_of_fmap in He as (a & -> & Ha). cbn in Hek.
        rewrite Forall_forall in Hlo. specialize (Hlo a Ha).
        unfold below in Hlo. rewrite Hkey in Hek. rewrite Hek in Hlo.
        apply Z.ltb_lt in Hlo. lia.
      * apply list_elem_of_fmap in He as (a & -> & Ha). cbn in Hek.
        apply StronglySorted_app in Hord as (_ & _ & Hhi).
        apply StronglySorted_cons in Hhi as [Hall _]. rewrite Forall_forall in Hall.
        destruct (Hall a Ha) as (kx' & ka & Hkx' & Hka & Hlt).
        rewrite Hkx in Hkx'. injection Hkx' as <-.
        rewrite Hkey, Hka in Hek. injection Hek as <-.
        pose proof (spec.eq_lt_r _ _ _ Heq Hlt) as Hlt'.
        apply spec.gt_lt in Hlt'. lia.
Qed.

Lemma Insert_existing_key_replaces_value_witness :
  ∃ sl sl',
    spec.build skiplist.IntComparator Nat.even ops_example = Ok sl
    ∧ skiplist.Find sl 5%Z = Ok (Some 50%Z, true)
    ∧ skiplist.Insert sl 5%Z 51%Z = Ok sl'
    ∧ skiplist.Find sl' 5%Z = Ok (Some 51%Z, true)
    ∧ skiplist.Size sl' = skiplist.Size sl.
Proof.
  destruct (spec.build skiplist.IntComparator Nat.even ops_example)
    as [sl| | |] eqn:Hsl; [|vm_compute in Hsl; discriminate Hsl..].
  assert (skiplist.Find sl 5%Z = Ok (Some 50%Z, true)) as Hfind.
  { vm_compute in Hsl. injection Hsl as <-. vm_compute. reflexivity. }
  destruct (Insert_existing_key_replaces_value skiplist.IntComparator
              IntComparator_laws Nat.even ops_example sl 5%Z 51%Z Hsl
              (ex_intro _ _ Hfind)) as (sl' & Hins & Hfind' & Hsz & _).
  exists sl, sl'.
  exact (conj eq_refl (conj Hfind (conj Hins (conj Hfind' Hsz)))).
Defined.

(** C7.  On a list built by [Insert] and [Delete], [Find] answers; [Delete]
    of a key that [Find] finds returns true, after which [Find] does not
    find it and [Size] is one less; [Delete] of a key that [Find] does not
    find returns false and leaves the list, as a whole, as it was. *)
Theorem Delete_present_and_absent {K V : Type}
    (cmp : skiplist.Comparator K) (laws : spec.ComparatorLaws cmp)
    (seed : nat → bool) (ops : list (spec.op (K := K) (V := V)))
    (sl : skiplist.SkipList) (k : K) :
  spec.build cmp seed ops = Ok sl →
  ((∃ v0, skiplist.Find sl k = Ok (v0, true))
   ∨ skiplist.Find sl k = Ok (None, false))
  ∧ ((∃ v0, skiplist.Find sl k = Ok (v0, true)) →
     ∃ sl',
       skiplist.Delete sl k = Ok (true, sl')
       ∧ skiplist.Find sl' k = Ok (None, false)
       ∧ skiplist.Size sl' = (skiplist.Size sl - 1)%Z)
  ∧ (skiplist.Find sl k = Ok (None, false) →
     skiplist.Delete sl k = Ok (false, sl)).
Proof.
  intros Hsl.
  destruct (Inv_build cmp seed ops sl Hsl) as [L HInv].
  pose proof HInv as (Hhd & Hc & Hshape & Hsize).
  rewrite (Find_spec cmp _ _ L k Hshape sl eq_refl Hc eq_refl Hhd).
  destruct (hit cmp (skiplist.nodes sl) L k) as [y|] eqn:Hhit.
  - split; [left; by eexists|]. split; [|done]. intros _.
    destruct (Delete_hit cmp sl L k y HInv Hhit) as (sl' & Hdel & HInv' & Hsz & Hhit').
    pose proof HInv' as (Hhd' & Hc' & Hshape' & Hsize').
    exists sl'. split; [done|]. split; [|done].
    rewrite (Find_spec cmp _ _ _ k Hshape' sl' eq_refl Hc' eq_refl Hhd').
    by rewrite Hhit'.
  - split; [by right|]. split; [by intros [v0 ?]|]. intros _.
    by apply (Delete_miss cmp sl L k HInv Hhit).
Qed.

Lemma Delete_present_and_absent_witness :
  ∃ sl sl',
    spec.build skiplist.IntComparator Nat.even ops_example = Ok sl
    ∧ skiplist.Find sl 5%Z = Ok (Some 50%Z, true)
    ∧ skiplist.Delete sl 5%Z = Ok (true, sl')
    ∧ skiplist.Find sl' 5%Z = Ok (None, false)
    ∧ skiplist.Size sl' = (skiplist.Size sl - 1)%Z
    ∧ skiplist.Find sl 7%Z = Ok (None, false)
    ∧ skiplist.Delete sl 7%Z = Ok (false, sl).
Proof.
  destruct (spec.build skiplist.IntComparator Nat.even ops_example)
    as [sl| | |] eqn:Hsl; [|vm_compute in Hsl; discriminate Hsl..].
  assert (skiplist.Find sl 5%Z = Ok (Some 50%Z, true)) as Hfind5.
  { vm_compute in Hsl. injection Hsl as <-. vm_compute. reflexivity. }
  assert (skiplist.Find sl 7%Z = Ok (None, false)) as Hfind7.
  { vm_compute in Hsl. injection Hsl as <-. vm_compute. reflexivity. }
  destruct (Delete_present_and_absent skiplist.IntComparator IntComparator_laws
              Nat.even ops_example sl 5%Z Hsl) as (_ & Hpresent & _).
  destruct (Hpresent (ex_intro _ _ Hfind5)) as (sl' & Hdel & Hfind' & Hsz).
  destruct (Delete_present_and_absent skiplist.IntComparator IntComparator_laws
              Nat.even ops_example sl 7%Z Hsl) as (_ & _ & Habsent).
  exists sl, sl'.
  exact (conj eq_refl (conj Hfind5 (conj Hdel (conj Hfind' (conj Hsz
           (conj Hfind7 (Habsent Hfind7))))))).
Defined.

(** * The comparators *)

Section comparators.

Implicit Types a b c : list byte.

Lemma to_N_inj (x y : byte) : Byte.to_N x = Byte.to_N y → x = y.
Proof. intros H. by rewrite <- (byte_of_to_N x), <- (byte_of_to_N y), H. Qed.

Lemma BytesComparator_bytes_compare a b :
  skiplist.Compare (Comparator := skiplist.BytesComparator) a b
  = skiplist.bytes_compare a b.
Proof.
  cbn. revert b. induction a as [|x a IH]; intros [|y b]; cbn; try done.
  destruct (N.ltb_spec (Byte.to_N x) (Byte.to_N y)); [done|].
  destruct (N.ltb_spec (Byte.to_N y) (Byte.to_N x)); [done|].
  rewrite <- IH. destruct (skiplist.bytes_loop a b); [done|].
  by repeat match goal with
            | |- context [(?m <? ?n)%nat] => destruct (Nat.ltb_spec m n)
            end; try lia.
Qed.

Lemma bytes_compare_range a : ∀ b,
  skiplist.bytes_compare a b = (-1)%Z ∨ skiplist.bytes_compare a b = 0%Z
  ∨ skiplist.bytes_compare a b = 1%Z.
Proof.
  induction a as [|x a IH]; intros [|y b]; cbn; auto.
  destruct (_ <? _)%N; [auto|]. destruct (_ <? _)%N; auto.
Qed.

Lemma bytes_compare_eq a : ∀ b, skiplist.bytes_compare a b = 0%Z ↔ a = b.
Proof.
  induction a as [|x a IH]; intros [|y b]; cbn; try done.
  destruct (N.ltb_spec (Byte.to_N x) (Byte.to_N y)).
  { split; [done|]. intros [= -> _]. lia. }
  destruct (N.ltb_spec (Byte.to_N y) (Byte.to_N x)).
  { split; [done|]. intros [= -> _]. lia. }
  rewrite IH. assert (x = y) as -> by (apply to_N_inj; lia).
  split; [by intros ->|by intros [= ->]].
Qed.

Lemma bytes_compare_flip a : ∀ b,
  skiplist.bytes_compare b a = (- skiplist.bytes_compare a b)%Z.
Proof.
  induction a as [|x a IH]; intros [|y b]; cbn; try done.
  destruct (N.ltb_spec (Byte.to_N x) (Byte.to_N y));
    destruct (N.ltb_spec (Byte.to_N y) (Byte.to_N x)); try done; lia.
Qed.

Lemma bytes_compare_trans a : ∀ b c,
  (skiplist.bytes_compare a b < 0 → skiplist.bytes_compare b c < 0
   → skiplist.bytes_compare a c < 0)%Z.
Proof.
  induction a as [|x a IH]; intros [|y b] [|z c]; cbn; try lia.
  repeat match goal with
         | |- context [(?m <? ?n)%N] => destruct (N.ltb_spec m n)
         end; try lia.
  apply IH.
Qed.

Lemma bytes_compare_laws :
  spec.ComparatorLaws {| skiplist.Compare := skiplist.bytes_compare |}.
Proof.
  split; cbn.
  - intros a b c. apply bytes_compare_trans.
  - intros a b. rewrite (bytes_compare_flip a b). lia.
  - intros a b c Hab. by apply bytes_compare_eq in Hab as ->.
  - intros a b c Hab. by apply bytes_compare_eq in Hab as ->.
Qed.

Lemma bytes_compare_lt a : ∀ b,
  (skiplist.bytes_compare a b < 0)%Z
  ↔ (∃ y b', b = a ++ y :: b')
    ∨ (∃ p x y a' b', a = p ++ x :: a' ∧ b = p ++ y :: b'
                      ∧ (Byte.to_N x < Byte.to_N y)%N).
Proof.
  induction a as [|x a IH]; intros [|y b]; cbn.
  - split; [lia|]. intros [(y & b' & H)|(p & x & y & a' & b' & H & _)]; [done|].
    by destruct p.
  - split; [|lia]. intros _. left. by exists y, b.
  - split; [lia|]. intros [(y & b' & H)|(p & x' & y & a' & b' & _ & H & _)]; [done|].
    by destruct p.
  - destruct (N.ltb_spec (Byte.to_N x) (Byte.to_N y)) as [Hxy|Hxy].
    { split; [|lia]. intros _. right. by exists [], x, y, a, b. }
    destruct (N.ltb_spec (Byte.to_N y) (Byte.to_N x)) as [Hyx|Hyx].
    { split; [lia|].
      intros [(y' & b' & [= -> _])|(p & x' & y' & a' & b' & Ha & Hb & Hlt)]; [lia|].
      destruct p as [|z p]; cbn in Ha, Hb.
      - injection Ha as -> _. injection Hb as -> _. lia.
      - injection Ha as -> _. injection Hb as -> _. lia. }
    assert (x = y) as -> by (apply to_N_inj; lia).
    rewrite IH. split.
    + intros [(y' & b' & ->)|(p & x' & y' & a' & b' & -> & -> & Hlt)].
      * left. by exists y', b'.
      * right. by exists (y :: p), x', y', a', b'.
    + intros [(y' & b' & [= ->])|(p & x' & y' & a' & b' & Ha & Hb & Hlt)].
      * left. by exists y', b'.
      * destruct p as [|z p]; cbn in Ha, Hb.
        { injection Ha as -> _. injection Hb as -> _. lia. }
        injection Ha as _ ->. injection Hb as _ ->.
        right. by exists p, x', y', a', b'.
Qed.

Lemma BytesComparator_laws : spec.ComparatorLaws skiplist.BytesComparator.
Proof.
  destruct bytes_compare_laws as [H1 H2 H3 H4].
  split; intros *; rewrite !BytesComparator_bytes_compare;
    [apply H1|apply H2|apply H3|apply H4].
Qed.

End comparators.

(** X1.  [IntComparator] orders the integers as [<] does: it answers
    a negative number exactly when [a < b], zero exactly when [a = b], a
    positive number exactly when [a > b], and it is a strict total order. *)
Theorem IntComparator_orders_integers :
  spec.ComparatorLaws skiplist.IntComparator
  ∧ ∀ a b : Z,
      (skiplist.Compare (Comparator := skiplist.IntComparator) a b < 0 ↔ a < b)%Z
      ∧ (skiplist.Compare (Comparator := skiplist.IntComparator) a b = 0 ↔ a = b)%Z
      ∧ (0 < skiplist.Compare (Comparator := skiplist.IntComparator) a b ↔ b < a)%Z.
Proof.
  split; [exact IntComparator_laws|].
  intros a b. cbn.
  destruct (Z.ltb_spec a b); [lia|]. destruct (Z.ltb_spec b a); lia.
Qed.

(** X2.  [BytesComparator] is the lexicographic order of byte strings:
    [a] is LESS than [b] exactly when [a] is a proper prefix of [b] or the
    first byte at which they differ is smaller in [a]; it answers EQUAL
    exactly for equal strings, and only -1, 0 or 1. *)
Theorem BytesComparator_lexicographic (a b : list byte) :
  ((skiplist.Compare (Comparator := skiplist.BytesComparator) a b < 0)%Z
   ↔ (∃ y b', b = a ++ y :: b')
     ∨ (∃ p x y a' b', a = p ++ x :: a' ∧ b = p ++ y :: b'
                       ∧ (Byte.to_N x < Byte.to_N y)%N))
  ∧ (skiplist.Compare (Comparator := skiplist.BytesComparator) a b = 0%Z ↔ a = b)
  ∧ (skiplist.Compare (Comparator := skiplist.BytesComparator) a b = (-1)%Z
     ∨ skiplist.Compare (Comparator := skiplist.BytesComparator) a b = 0%Z
     ∨ skiplist.Compare (Comparator := skiplist.BytesComparator) a b = 1%Z).
Proof.
  rewrite !BytesComparator_bytes_compare.
  split; [apply bytes_compare_lt|]. split; [apply bytes_compare_eq|].
  apply bytes_compare_range.
Qed.

(** X3.  [BytesComparator] and [StringComparator] are strict total orders,
    and they order the same bytes in the same way. *)
Theorem byte_comparators_are_strict_total_orders :
  spec.ComparatorLaws skiplist.BytesComparator
  ∧ spec.ComparatorLaws skiplist.StringComparator
  ∧ ∀ a b : list byte,
      skiplist.Compare (Comparator := skiplist.StringComparator) a b
      = skiplist.Compare (Comparator := skiplist.BytesComparator) a b.
Proof.
  split; [|split].
  - exact BytesComparator_laws.
  - exact bytes_compare_laws.
  - intros a b. by rewrite BytesComparator_bytes_compare.
Qed.

(** * Lookups against the iteration *)

Section lookup.

Context {K V : Type} (cmp : skiplist.Comparator K) {laws : spec.ComparatorLaws cmp}.

Abbreviation Node := (skiplist.Node (K := K) (V := V)).
Abbreviation SkipList := (skiplist.SkipList (K := K) (V := V)).

Implicit Types (ns : list Node) (a b x y z : nat) (i j : nat) (l : list nat) (k : K)
  (L : nat → list nat) (sl : SkipList).

Lemma cmp_refl k : skiplist.Compare k k = 0%Z.
Proof.
  pose proof (spec.gt_lt k k).
  destruct (Z.lt_trichotomy (skiplist.Compare k k) 0) as [|[|]]; lia.
Qed.

Lemma cmp_eq_join k1 k2 k3 :
  skiplist.Compare k1 k2 = 0%Z → skiplist.Compare k1 k3 = 0%Z →
  skiplist.Compare k3 k2 = 0%Z.
Proof.
  intros H12 H13.
  pose proof (cmp_eq_sym cmp _ _ H12) as H21.
  pose proof (cmp_eq_sym cmp _ _ H13) as H31.
  destruct (Z.lt_trichotomy (skiplist.Compare k3 k2) 0) as [Hlt|[|Hgt]]; [|done|].
  - pose proof (spec.eq_lt_l _ _ _ H21 Hlt). lia.
  - apply spec.gt_lt in Hgt. pose proof (spec.eq_lt_l _ _ _ H31 Hgt). lia.
Qed.

Lemma cmp_ne_sym k1 k2 :
  skiplist.Compare k1 k2 ≠ 0%Z → skiplist.Compare k2 k1 ≠ 0%Z.
Proof. intros H H'. by apply H, cmp_eq_sym. Qed.

Lemma ordered_total ns l a b :
  ordered cmp ns l → a ∈ l → b ∈ l → a = b ∨ klt cmp ns a b ∨ klt cmp ns b a.
Proof.
  unfold ordered. induction 1 as [|c l Hl IH Hall]; [by intros ?%elem_of_nil|].
  rewrite Forall_forall in Hall.
  intros [->|Ha]%elem_of_cons [->|Hb]%elem_of_cons; auto.
Qed.

Section facts_lookup.

Context (ns : list Node) (level : nat) (L : nat → list nat).
Context (Hshape : shape cmp ns level L).

Lemma zero_lt_maxLevel : 0 < skiplist.maxLevel.
Proof. unfold skiplist.maxLevel. lia. Qed.

Lemma hit_miss_keys k a ka :
  hit cmp ns L k = None → a ∈ L 0 → keyOf ns a = Some ka →
  skiplist.Compare ka k ≠ 0%Z.
Proof using Hshape laws.
  intros Hhit Ha Hka. destruct (below cmp ns k a) eqn:Hb.
  - unfold below in Hb. rewrite Hka in Hb. apply Z.ltb_lt in Hb. lia.
  - destruct (absent_gt cmp ns level L Hshape k a Hhit Ha Hb) as (kz & Hkz & Hlt).
    rewrite Hka in Hkz. injection Hkz as <-. apply spec.gt_lt in Hlt. lia.
Qed.

Lemma hit_unique k a ka :
  a ∈ L 0 → keyOf ns a = Some ka → skiplist.Compare ka k = 0%Z →
  hit cmp ns L k = Some a.
Proof using Hshape laws.
  intros Ha Hka Heq. destruct (hit cmp ns L k) as [y|] eqn:Hhit.
  - destruct (hit_node cmp ns L k y Hhit) as [_ (ky & Hky & Hyk)].
    pose proof (hit_in_0 cmp ns L k y Hhit) as Hy.
    destruct (ordered_total ns (L 0) a y
                (sh_ordered _ _ _ _ Hshape 0 zero_lt_maxLevel) Ha Hy)
      as [->|[Hlt|Hlt]]; [done| |];
      destruct Hlt as (k1 & k2 & H1 & H2 & Hlt);
      [assert (k1 = ka) as -> by congruence; assert (k2 = ky) as -> by congruence
      |assert (k1 = ky) as -> by congruence; assert (k2 = ka) as -> by congruence].
    + pose proof (cmp_eq_join k ky ka (cmp_eq_sym cmp _ _ Hyk)
                    (cmp_eq_sym cmp _ _ Heq)). lia.
    + pose proof (cmp_eq_join k ka ky (cmp_eq_sym cmp _ _ Heq)
                    (cmp_eq_sym cmp _ _ Hyk)). lia.
  - by destruct (hit_miss_keys k a ka Hhit Ha Hka).
Qed.

End facts_lookup.

(** [Find] in terms of the chain of level 0. *)
Lemma Find_found sl L k a ka :
  Inv cmp sl L → a ∈ L 0 → keyOf (skiplist.nodes sl) a = Some ka →
  skiplist.Compare ka k = 0%Z →
  skiplist.Find sl k = Ok (valueOf (skiplist.nodes sl) a, true).
Proof.
  intros (Hhd & Hc & Hshape & Hsize) Ha Hka Heq.
  rewrite (Find_spec cmp _ _ L k Hshape sl eq_refl Hc eq_refl Hhd).
  by rewrite (hit_unique _ _ L Hshape k a ka).
Qed.

Lemma Find_missing sl L k :
  Inv cmp sl L →
  (∀ a ka, a ∈ L 0 → keyOf (skiplist.nodes sl) a = Some ka →
           skiplist.Compare ka k ≠ 0%Z) →
  skiplist.Find sl k = Ok (None, false).
Proof.
  intros (Hhd & Hc & Hshape & Hsize) Hno.
  rewrite (Find_spec cmp _ _ L k Hshape sl eq_refl Hc eq_refl Hhd).
  destruct (hit cmp (skiplist.nodes sl) L k) as [y|] eqn:Hhit; [|done].
  destruct (hit_node cmp _ L k y Hhit) as [_ (ky & Hky & Hyk)].
  by destruct (Hno y ky (hit_in_0 cmp _ L k y Hhit) Hky).
Qed.

Lemma Find_cases sl L k :
  Inv cmp sl L →
  (skiplist.Find sl k = Ok (None, false)
   ∧ hit cmp (skiplist.nodes sl) L k = None
   ∧ ∀ a ka, a ∈ L 0 → keyOf (skiplist.nodes sl) a = Some ka →
             skiplist.Compare ka k ≠ 0%Z)
  ∨ (∃ a ka, a ∈ L 0 ∧ keyOf (skiplist.nodes sl) a = Some ka
             ∧ skiplist.Compare ka k = 0%Z
             ∧ hit cmp (skiplist.nodes sl) L k = Some a
             ∧ skiplist.Find sl k = Ok (valueOf (skiplist.nodes sl) a, true)).
Proof.
  intros HInv. pose proof HInv as (Hhd & Hc & Hshape & Hsize).
  rewrite (Find_spec cmp _ _ L k Hshape sl eq_refl Hc eq_refl Hhd).
  destruct (hit cmp (skiplist.nodes sl) L k) as [y|] eqn:Hhit.
  - right. destruct (hit_node cmp _ L k y Hhit) as [_ (ky & Hky & Hyk)].
    exists y, ky. by pose proof (hit_in_0 cmp _ L k y Hhit).
  - left. split; [done|]. split; [done|]. intros a ka.
    by apply (hit_miss_keys _ _ L Hshape).
Qed.

End lookup.

(** * The operations of the skip list against its iteration *)

Section effects.

Context {K V : Type} (cmp : skiplist.Comparator K) {laws : spec.ComparatorLaws cmp}.

Abbreviation Node := (skiplist.Node (K := K) (V := V)).
Abbreviation SkipList := (skiplist.SkipList (K := K) (V := V)).

Implicit Types (ns : list Node) (a b x y z : nat) (i j : nat) (l : list nat) (k : K)
  (L : nat → list nat) (sl : SkipList).

(** The entry of node [a]. *)
Abbreviation entry ns := (λ a, (keyOf ns a, valueOf ns a)).

Lemma seg_split ns i l1 : ∀ x l2 e,
  seg ns i x (l1 ++ l2) e → seg ns i (default x (last l1)) l2 e.
Proof.
  induction l1 as [|a l1 IH]; intros x l2 e; [done|].
  intros [_ Hseg]. apply IH in Hseg.
  destruct l1 as [|b l1]; [exact Hseg|]. rewrite last_cons_cons.
  destruct (last (b :: l1)) eqn:E; [exact Hseg|]. by apply last_None in E.
Qed.

Lemma Insert_absent sl L k v :
  Inv cmp sl L → hit cmp (skiplist.nodes sl) L k = None →
  ∃ sl' L',
    skiplist.Insert sl k v = Ok sl' ∧ Inv cmp sl' L'
    ∧ skiplist.size sl' = (skiplist.size sl + 1)%Z
    ∧ L' 0 = lower (below cmp (skiplist.nodes sl) k) (L 0)
             ++ length (skiplist.nodes sl)
                :: upper (below cmp (skiplist.nodes sl) k) (L 0)
    ∧ (∀ b, b < length (skiplist.nodes sl) →
            entry (skiplist.nodes sl') b = entry (skiplist.nodes sl) b)
    ∧ entry (skiplist.nodes sl') (length (skiplist.nodes sl)) = (Some k, Some v).
Proof.
  intros HInv Hhit.
  destruct (Insert_miss_data cmp sl L k v HInv Hhit)
    as (sl' & lvl & Hins & HInv' & Hlvl & Hsz & Hold & Hnk & Hnv).
  eexists sl', _. split; [done|]. split; [exact HInv'|]. split; [done|].
  split; [|split].
  - unfold inserted. by rewrite decide_True by lia.
  - intros b Hb. destruct (Hold b Hb) as [-> ->]. done.
  - by rewrite Hnk, Hnv.
Qed.

Lemma entries_old sl sl' L l :
  Inv cmp sl L → l ⊆ L 0 →
  (∀ b, b < length (skiplist.nodes sl) →
        entry (skiplist.nodes sl') b = entry (skiplist.nodes sl) b) →
  map (entry (skiplist.nodes sl')) l = map (entry (skiplist.nodes sl)) l.
Proof.
  intros (_ & _ & Hshape & _) Hl Hold. apply map_ext_in. intros a Ha.
  apply Hold. apply (chain_lt cmp _ _ L Hshape 0 a zero_lt_maxLevel).
  apply Hl. by apply list_elem_of_In.
Qed.

Lemma Insert_frame sl L k v sl' k' :
  Inv cmp sl L → skiplist.Insert sl k v = Ok sl' →
  skiplist.Compare k' k ≠ 0%Z →
  skiplist.Find sl' k' = skiplist.Find sl k'.
Proof.
  intros HInv Hins Hne. pose proof HInv as (Hhd & Hc & Hshape & Hsize).
  destruct (hit cmp (skiplist.nodes sl) L k) as [y|] eqn:Hhit.
  - destruct (Insert_hit cmp sl L k v y HInv Hhit)
      as (sl0 & Hins0 & HInv' & _ & _ & Hkey & _ & _ & Hval).
    rewrite Hins in Hins0. injection Hins0 as <-.
    destruct (Find_cases cmp sl L k' HInv)
      as [(-> & _ & Hno)|(a & ka & Ha & Hka & Heq & _ & ->)].
    + apply (Find_missing cmp sl' L k' HInv'). intros a ka Ha Hka.
      rewrite Hkey in Hka. by apply (Hno a ka).
    + rewrite (Find_found cmp sl' L k' a ka HInv' Ha) by (by rewrite ?Hkey).
      rewrite Hval; [done|]. intros ->.
      destruct (hit_node cmp _ L k y Hhit) as [_ (ky & Hky & Hyk)].
      assert (ky = ka) as -> by congruence.
      by pose proof (cmp_eq_join cmp _ _ _ Hyk Heq).
  - destruct (Insert_absent sl L k v HInv Hhit)
      as (sl0 & L' & Hins0 & HInv' & _ & HL' & Hold & Hnew).
    rewrite Hins in Hins0. injection Hins0 as <-.
    assert (∀ a, a ∈ L 0 → entry (skiplist.nodes sl') a = entry (skiplist.nodes sl) a)
      as Hsame.
    { intros a Ha. apply Hold.
      by apply (chain_lt cmp _ _ L Hshape 0 a zero_lt_maxLevel). }
    assert (∀ a, a ∈ L' 0 ↔ a ∈ L 0 ∨ a = length (skiplist.nodes sl)) as HinL'.
    { intros a. rewrite HL'.
      rewrite <- (lower_upper (below cmp (skiplist.nodes sl) k) (L 0)) at 3.
      rewrite !elem_of_app, elem_of_cons. naive_solver. }
    destruct (Find_cases cmp sl L k' HInv)
      as [(-> & _ & Hno)|(a & ka & Ha & Hka & Heq & _ & ->)].
    + apply (Find_missing cmp sl' L' k' HInv'). intros a ka [Ha| ->]%HinL' Hka.
      * pose proof (Hsame a Ha) as [= Hk _]. rewrite Hk in Hka. by apply (Hno a ka).
      * injection Hnew as Hk _. assert (ka = k) as -> by congruence.
        by apply cmp_ne_sym.
    + pose proof (Hsame a Ha) as [= Hk Hv].
      rewrite (Find_found cmp sl' L' k' a ka HInv'); [by rewrite Hv| |by rewrite Hk|done].
      apply HinL'. by left.
Qed.

Lemma Delete_frame sl L k (r : bool) sl' k' :
  Inv cmp sl L → skiplist.Delete sl k = Ok (r, sl') →
  skiplist.Compare k' k ≠ 0%Z →
  skiplist.Find sl' k' = skiplist.Find sl k'.
Proof.
  intros HInv Hdel Hne. pose proof HInv as (Hhd & Hc & Hshape & Hsize).
  destruct (hit cmp (skiplist.nodes sl) L k) as [x|] eqn:Hhit.
  - destruct (Delete_hit_data cmp sl L k x HInv Hhit)
      as (sl0 & Hdel0 & HInv' & _ & _ & (_ & Hkey & Hval)).
    rewrite Hdel in Hdel0. injection Hdel0 as -> <-.
    destruct (Find_cases cmp sl L k' HInv)
      as [(-> & _ & Hno)|(a & ka & Ha & Hka & Heq & _ & ->)].
    + apply (Find_missing cmp sl' _ k' HInv'). intros a ka Ha Hka.
      apply (elem_of_removed cmp _ _ L k x Hshape Hhit 0 a zero_lt_maxLevel) in Ha
        as [Ha _].
      rewrite Hkey in Hka. by apply (Hno a ka).
    + rewrite (Find_found cmp sl' _ k' a ka HInv'); [by rewrite Hval| |by rewrite Hkey|done].
      apply (elem_of_removed cmp _ _ L k x Hshape Hhit 0 a zero_lt_maxLevel).
      split; [done|]. intros ->.
      destruct (hit_node cmp _ L k x Hhit) as [_ (kx & Hkx & Hxk)].
      assert (kx = ka) as -> by congruence.
      by pose proof (cmp_eq_join cmp _ _ _ Hxk Heq).
  - rewrite (Delete_miss cmp sl L k HInv Hhit) in Hdel. by injection Hdel as _ <-.
Qed.

Lemma Seek_spec sl L (iter : skiplist.Iterator) k :
  Inv cmp sl L →
  skiplist.Iterator_Seek sl iter k
  = Ok (skiplist.mkIterator
          (first (upper (below cmp (skiplist.nodes sl) k) (L 0)) None)).
Proof.
  intros (Hhd & Hc & Hshape & Hsize).
  pose proof (sh_level _ _ _ _ Hshape) as Hlv.
  unfold skiplist.Iterator_Seek.
  rewrite (descend_spec cmp _ _ L k Hshape sl (skiplist.level sl) (skiplist.head sl)
             eq_refl Hc) by (lia || by left).
  rewrite pos_match by lia. cbn [rbind].
  by rewrite (fwd_nxt _ _ _ _ (nxt_pred cmp _ _ L k Hshape 0 zero_lt_maxLevel)).
Qed.

Lemma Insert_finds sl L k v :
  Inv cmp sl L →
  ∃ sl' L',
    skiplist.Insert sl k v = Ok sl' ∧ Inv cmp sl' L'
    ∧ skiplist.Find sl' k = Ok (Some v, true).
Proof.
  intros HInv. destruct (hit cmp (skiplist.nodes sl) L k) as [y|] eqn:Hhit.
  - destruct (Insert_hit cmp sl L k v y HInv Hhit)
      as (sl' & Hins & HInv' & _ & _ & Hkey & _ & Hvy & _).
    exists sl', L. split; [done|]. split; [done|].
    destruct (hit_node cmp _ L k y Hhit) as [_ (ky & Hky & Hyk)].
    rewrite <- Hvy.
    apply (Find_found cmp sl' L k y ky HInv'); [|by rewrite Hkey|done].
    by apply (hit_in_0 cmp (skiplist.nodes sl) L k y).
  - destruct (Insert_absent sl L k v HInv Hhit)
      as (sl' & L' & Hins & HInv' & _ & HL' & _ & Hnew).
    exists sl', L'. split; [done|]. split; [done|].
    pose proof Hnew as [= Hk Hv]. rewrite <- Hv.
    apply (Find_found cmp sl' L' k _ k HInv'); [|done|apply (cmp_refl cmp)].
    rewrite HL'. apply elem_of_app. right. apply list_elem_of_here.
Qed.

Lemma Delete_loses sl L k :
  Inv cmp sl L →
  ∃ r sl' L',
    skiplist.Delete sl k = Ok (r, sl') ∧ Inv cmp sl' L'
    ∧ skiplist.Find sl' k = Ok (None, false).
Proof.
  intros HInv. pose proof HInv as (Hhd & Hc & Hshape & Hsize).
  destruct (hit cmp (skiplist.nodes sl) L k) as [y|] eqn:Hhit.
  - destruct (Delete_hit cmp sl L k y HInv Hhit) as (sl' & Hdel & HInv' & _ & Hhit').
    eexists true, sl', _. split; [done|]. split; [exact HInv'|].
    pose proof HInv' as (Hhd' & Hc' & Hshape' & _).
    rewrite (Find_spec cmp _ _ _ k Hshape' sl' eq_refl Hc' eq_refl Hhd').
    by rewrite Hhit'.
  - exists false, sl, L. split; [exact (Delete_miss cmp sl L k HInv Hhit)|].
    split; [done|].
    rewrite (Find_spec cmp _ _ L k Hshape sl eq_refl Hc eq_refl Hhd).
    by rewrite Hhit.
Qed.

Lemma run_app (ops1 ops2 : list (spec.op (K := K) (V := V))) : ∀ sl,
  spec.run (ops1 ++ ops2) sl = (sl' <~ spec.run ops1 sl ;; spec.run ops2 sl').
Proof.
  induction ops1 as [|[k v|k] ops1 IH]; intros sl; cbn; [done| |].
  - destruct (skiplist.Insert sl k v); cbn; [apply IH|done..].
  - destruct (skiplist.Delete sl k); cbn; [apply IH|done..].
Qed.

Lemma build_snoc seed ops (o : spec.op (K := K) (V := V)) sl :
  spec.build cmp seed ops = Ok sl →
  spec.build cmp seed (ops ++ [o]) = spec.run [o] sl.
Proof.
  unfold spec.build. cbn [skiplist.NewSkipList rbind]. rewrite run_app.
  by intros ->.
Qed.

End effects.

(** * Further theorems on the skip list *)

(** X4.  On a list built by [Insert] and [Delete], [Find] answers what a
    scan of the full iteration finds: it returns [(v, true)] exactly when
    the iteration has an entry with value [v] whose key is EQUAL to [k], and
    [(nil, false)] exactly when no entry has a key EQUAL to [k]. *)
Theorem Find_agrees_with_iteration {K V : Type}
    (cmp : skiplist.Comparator K) (laws : spec.ComparatorLaws cmp)
    (seed : nat → bool) (ops : list (spec.op (K := K) (V := V)))
    (sl : skiplist.SkipList) (k : K) :
  spec.build cmp seed ops = Ok sl →
  ∃ es,
    spec.entries sl = Ok es
    ∧ (∀ v, skiplist.Find sl k = Ok (v, true)
            ↔ ∃ k', (Some k', v) ∈ es ∧ skiplist.Compare k' k = 0%Z)
    ∧ (skiplist.Find sl k = Ok (None, false)
       ↔ ∀ k' v, (Some k', v) ∈ es → skiplist.Compare k' k ≠ 0%Z).
Proof.
  intros Hsl. destruct (Inv_build cmp seed ops sl Hsl) as [L HInv].
  rewrite (entries_spec cmp sl L HInv). eexists. split; [done|].
  set (f := λ a, (keyOf (skiplist.nodes sl) a, valueOf (skiplist.nodes sl) a)).
  assert (∀ k' v, (Some k', v) ∈ map f (L 0)
                  ↔ ∃ a, a ∈ L 0 ∧ keyOf (skiplist.nodes sl) a = Some k'
                         ∧ valueOf (skiplist.nodes sl) a = v) as Hin.
  { intros k' v. rewrite list_elem_of_fmap. unfold f. split.
    - intros (a & [= ? ?] & Ha). by exists a.
    - intros (a & Ha & <- & <-). by exists a. }
  split.
  - intros v. split.
    + intros Hfind.
      destruct (Find_cases cmp sl L k HInv)
        as [(Hf & _)|(a & ka & Ha & Hka & Heq & _ & Hf)];
        rewrite Hf in Hfind; [done|]. injection Hfind as <-.
      exists ka. split; [|done]. apply Hin. by exists a.
    + intros (k' & (a & Ha & Hka & <-)%Hin & Heq).
      by apply (Find_found cmp sl L k a k').
  - split.
    + intros Hfind k' v (a & Ha & Hka & _)%Hin.
      destruct (Find_cases cmp sl L k HInv)
        as [(_ & _ & Hno)|(b & kb & _ & _ & _ & _ & Hf)].
      * by apply (Hno a k').
      * by rewrite Hf in Hfind.
    + intros Hno. apply (Find_missing cmp sl L k HInv). intros a ka Ha Hka.
      apply (Hno ka (valueOf (skiplist.nodes sl) a)). apply Hin. by exists a.
Qed.

Lemma Find_agrees_with_iteration_witness :
  ∃ sl,
    spec.build skiplist.IntComparator Nat.even ops_example = Ok sl
    ∧ spec.entries sl = Ok [(Some 1, Some 10); (Some 3, Some 31); (Some 5, Some 50)]%Z
    ∧ skiplist.Find sl 3%Z = Ok (Some 31%Z, true)
    ∧ skiplist.Find sl 4%Z = Ok (None, false).
Proof.
  destruct (spec.build skiplist.IntComparator Nat.even ops_example)
    as [sl| | |] eqn:Hsl; [|vm_compute in Hsl; discriminate Hsl..].
  exists sl. split; [done|].
  destruct (Find_agrees_with_iteration skiplist.IntComparator IntComparator_laws
              Nat.even ops_example sl 3%Z Hsl) as (es & Hes & Hfound & _).
  destruct (Find_agrees_with_iteration skiplist.IntComparator IntComparator_laws
              Nat.even ops_example sl 4%Z Hsl) as (es' & Hes' & _ & Hnone).
  assert (spec.entries sl
          = Ok [(Some 1, Some 10); (Some 3, Some 31); (Some 5, Some 50)]%Z) as He.
  { vm_compute in Hsl. injection Hsl as <-. vm_compute. reflexivity. }
  split; [exact He|]. rewrite He in Hes, Hes'.
  injection Hes as <-. injection Hes' as <-. split.
  - apply Hfound. exists 3%Z. split; [|reflexivity].
    apply list_elem_of_further, list_elem_of_here.
  - apply Hnone. intros k' v Hin.
    repeat (apply elem_of_cons in Hin as [[= -> ->]|Hin]; [by vm_compute|]).
    exact (False_ind _ (proj1 (elem_of_nil _) Hin)).
Defined.

(** X5.  [Insert] of a key that [Find] does not find adds one entry: the
    insertion succeeds, [Find] then returns the value, [Size] grows by one,
    and the iteration is the old one with the new entry put after the keys
    LESS than [k] and before the keys GREATER than [k]. *)
Theorem Insert_new_key_adds_entry {K V : Type}
    (cmp : skiplist.Comparator K) (laws : spec.ComparatorLaws cmp)
    (seed : nat → bool) (ops : list (spec.op (K := K) (V := V)))
    (sl : skiplist.SkipList) (k : K) (v : V) :
  spec.build cmp seed ops = Ok sl →
  skiplist.Find sl k = Ok (None, false) →
  ∃ sl' es1 es2,
    skiplist.Insert sl k v = Ok sl'
    ∧ skiplist.Find sl' k = Ok (Some v, true)
    ∧ skiplist.Size sl' = (skiplist.Size sl + 1)%Z
    ∧ spec.entries sl = Ok (es1 ++ es2)
    ∧ spec.entries sl' = Ok (es1 ++ (Some k, Some v) :: es2)
    ∧ (∀ e k', e ∈ es1 → e.1 = Some k' → (skiplist.Compare k' k < 0)%Z)
    ∧ (∀ e k', e ∈ es2 → e.1 = Some k' → (skiplist.Compare k k' < 0)%Z).
Proof.
  intros Hsl Hfind. destruct (Inv_build cmp seed ops sl Hsl) as [L HInv].
  pose proof HInv as (Hhd & Hc & Hshape & Hsize).
  destruct (Find_cases cmp sl L k HInv)
    as [(_ & Hhit & _)|(a & ka & _ & _ & _ & _ & Hf)]; [|by rewrite Hf in Hfind].
  destruct (Insert_absent cmp sl L k v HInv Hhit)
    as (sl' & L' & Hins & HInv' & Hsz & HL' & Hold & Hnew).
  set (f := λ a, (keyOf (skiplist.nodes sl) a, valueOf (skiplist.nodes sl) a)) in *.
  set (f' := λ a, (keyOf (skiplist.nodes sl') a, valueOf (skiplist.nodes sl') a)) in *.
  set (lo := lower (below cmp (skiplist.nodes sl) k) (L 0)) in *.
  set (hi := upper (below cmp (skiplist.nodes sl) k) (L 0)) in *.
  assert (L 0 = lo ++ hi) as HL by (symmetry; apply lower_upper).
  assert (∀ a, a ∈ L 0 → f' a = f a) as Hsame.
  { intros a Ha. apply Hold.
    by apply (chain_lt cmp _ _ L Hshape 0 a zero_lt_maxLevel). }
  exists sl', (map f lo), (map f hi).
  split; [done|]. split; [|split; [done|split; [|split; [|split]]]].
  - pose proof Hnew as [= Hk Hv]. rewrite <- Hv.
    apply (Find_found cmp sl' L' k _ k HInv'); [|done|apply (cmp_refl cmp)].
    rewrite HL'. apply elem_of_app. right. apply list_elem_of_here.
  - rewrite (entries_spec cmp sl L HInv), HL. by rewrite map_app.
  - rewrite (entries_spec cmp sl' L' HInv'), HL'. f_equal.
    rewrite map_app. cbn [map]. fold f'. rewrite Hnew. f_equal; [|f_equal].
    + apply map_ext_in. intros a Ha%list_elem_of_In. apply Hsame.
      rewrite HL. apply elem_of_app. by left.
    + apply map_ext_in. intros a Ha%list_elem_of_In. apply Hsame.
      rewrite HL. apply elem_of_app. by right.
  - intros e k' (a & -> & Ha)%list_elem_of_fmap Hk. cbn in Hk.
    destruct (lower_keys cmp _ L k 0 a zero_lt_maxLevel Ha) as (ka & Hka & Hlt).
    congruence.
  - intros e k' (a & -> & Ha)%list_elem_of_fmap Hk. cbn in Hk.
    destruct (upper_keys cmp _ _ L Hshape k 0 a Hhit zero_lt_maxLevel Ha)
      as (ka & Hka & Hlt).
    congruence.
Qed.

Lemma Insert_new_key_adds_entry_witness :
  ∃ sl sl',
    spec.build skiplist.IntComparator Nat.even ops_example = Ok sl
    ∧ skiplist.Find sl 4%Z = Ok (None, false)
    ∧ skiplist.Insert sl 4%Z 40%Z = Ok sl'
    ∧ skiplist.Find sl' 4%Z = Ok (Some 40%Z, true)
    ∧ skiplist.Size sl' = (skiplist.Size sl + 1)%Z.
Proof.
  destruct (spec.build skiplist.IntComparator Nat.even ops_example)
    as [sl| | |] eqn:Hsl; [|vm_compute in Hsl; discriminate Hsl..].
  assert (skiplist.Find sl 4%Z = Ok (None, false)) as Hfind.
  { vm_compute in Hsl. injection Hsl as <-. vm_compute. reflexivity. }
  destruct (Insert_new_key_adds_entry skiplist.IntComparator IntComparator_laws
              Nat.even ops_example sl 4%Z 40%Z Hsl Hfind)
    as (sl' & es1 & es2 & Hins & Hfind' & Hsz & _).
  exists sl, sl'.
  exact (conj eq_refl (conj Hfind (conj Hins (conj Hfind' Hsz)))).
Defined.

(** X6.  [Insert] leaves every other key alone: for a key that is not
    EQUAL to the inserted one, [Find] answers after the insertion what it
    answered before. *)
Theorem Insert_keeps_other_keys {K V : Type}
    (cmp : skiplist.Comparator K) (laws : spec.ComparatorLaws cmp)
    (seed : nat → bool) (ops : list (spec.op (K := K) (V := V)))
    (sl sl' : skiplist.SkipList) (k k' : K) (v : V) :
  spec.build cmp seed ops = Ok sl →
  skiplist.Insert sl k v = Ok sl' →
  skiplist.Compare k' k ≠ 0%Z →
  skiplist.Find sl' k' = skiplist.Find sl k'.
Proof.
  intros Hsl Hins Hne. destruct (Inv_build cmp seed ops sl Hsl) as [L HInv].
  by apply (Insert_frame cmp sl L k v sl' k').
Qed.

Lemma Insert_keeps_other_keys_witness :
  ∃ sl sl',
    spec.build skiplist.IntComparator Nat.even ops_example = Ok sl
    ∧ skiplist.Insert sl 4%Z 40%Z = Ok sl'
    ∧ skiplist.Find sl' 5%Z = skiplist.Find sl 5%Z.
Proof.
  destruct (spec.build skiplist.IntComparator Nat.even ops_example)
    as [sl| | |] eqn:Hsl; [|vm_compute in Hsl; discriminate Hsl..].
  destruct (skiplist.Insert sl 4%Z 40%Z) as [sl'| | |] eqn:Hins.
  2-4: vm_compute in Hsl; injection Hsl as <-; vm_compute in Hins; discriminate Hins.
  exists sl, sl'. split; [done|]. split; [done|].
  apply (Insert_keeps_other_keys skiplist.IntComparator IntComparator_laws
           Nat.even ops_example sl sl' 4%Z 5%Z 40%Z Hsl Hins).
  by vm_compute.
Defined.

(** X7.  [Delete] of a key that [Find] finds removes exactly its entry:
    the iteration afterwards is the old one without the entry whose key is
    EQUAL to [k], the other entries keeping their order and values. *)
Theorem Delete_removes_one_entry {K V : Type}
    (cmp : skiplist.Comparator K) (laws : spec.ComparatorLaws cmp)
    (seed : nat → bool) (ops : list (spec.op (K := K) (V := V)))
    (sl : skiplist.SkipList) (k : K) (v0 : option V) :
  spec.build cmp seed ops = Ok sl →
  skiplist.Find sl k = Ok (v0, true) →
  ∃ sl' es1 kx es2,
    skiplist.Delete sl k = Ok (true, sl')
    ∧ spec.entries sl = Ok (es1 ++ (Some kx, v0) :: es2)
    ∧ skiplist.Compare kx k = 0%Z
    ∧ spec.entries sl' = Ok (es1 ++ es2).
Proof.
  intros Hsl Hfind. destruct (Inv_build cmp seed ops sl Hsl) as [L HInv].
  pose proof HInv as (Hhd & Hc & Hshape & Hsize).
  destruct (Find_cases cmp sl L k HInv)
    as [(Hf & _)|(a & ka & Ha & Hka & Heq & Hhit & Hf)];
    rewrite Hf in Hfind; [done|]. injection Hfind as <-.
  destruct (Delete_hit_data cmp sl L k a HInv Hhit)
    as (sl' & Hdel & HInv' & _ & _ & (_ & Hkey & Hval)).
  destruct (hit_split cmp _ _ L k a Hshape Hhit 0 zero_lt_maxLevel Ha) as [rest Hup].
  pose proof (lower_upper (below cmp (skiplist.nodes sl) k) (L 0)) as HL.
  rewrite Hup in HL.
  pose (f := λ a, (keyOf (skiplist.nodes sl) a, valueOf (skiplist.nodes sl) a)).
  exists sl', (map f (lower (below cmp (skiplist.nodes sl) k) (L 0))), ka, (map f rest).
  split; [done|]. split; [|split; [done|]].
  - rewrite (entries_spec cmp sl L HInv). rewrite <- HL at 1.
    rewrite map_app. cbn [map]. unfold f. by rewrite Hka.
  - rewrite (entries_spec cmp sl' _ HInv'). unfold removed.
    rewrite decide_True by done. rewrite Hup. cbn [drop]. rewrite drop_0.
    rewrite <- map_app. f_equal. apply map_ext. intros b. unfold f.
    by rewrite Hkey, Hval.
Qed.

Lemma Delete_removes_one_entry_witness :
  ∃ sl sl',
    spec.build skiplist.IntComparator Nat.even ops_example = Ok sl
    ∧ skiplist.Find sl 3%Z = Ok (Some 31%Z, true)
    ∧ skiplist.Delete sl 3%Z = Ok (true, sl')
    ∧ spec.entries sl' = Ok [(Some 1, Some 10); (Some 5, Some 50)]%Z.
Proof.
  destruct (spec.build skiplist.IntComparator Nat.even ops_example)
    as [sl| | |] eqn:Hsl; [|vm_compute in Hsl; discriminate Hsl..].
  assert (skiplist.Find sl 3%Z = Ok (Some 31%Z, true)) as Hfind.
  { vm_compute in Hsl. injection Hsl as <-. vm_compute. reflexivity. }
  destruct (Delete_removes_one_entry skiplist.IntComparator IntComparator_laws
              Nat.even ops_example sl 3%Z (Some 31%Z) Hsl Hfind)
    as (sl' & es1 & kx & es2 & Hdel & Hes & Hkx & Hes').
  exists sl, sl'. split; [done|]. split; [done|]. split; [done|].
  vm_compute in Hsl. injection Hsl as <-.
  vm_compute in Hdel. injection Hdel as <-. vm_compute. reflexivity.
Defined.

(** X8.  [Delete] leaves every other key alone: for a key that is not
    EQUAL to the deleted one, [Find] answers after the deletion what it
    answered before, whether or not the deleted key was there. *)
Theorem Delete_keeps_other_keys {K V : Type}
    (cmp : skiplist.Comparator K) (laws : spec.ComparatorLaws cmp)
    (seed : nat → bool) (ops : list (spec.op (K := K) (V := V)))
    (sl sl' : skiplist.SkipList) (k k' : K) (r : bool) :
  spec.build cmp seed ops = Ok sl →
  skiplist.Delete sl k = Ok (r, sl') →
  skiplist.Compare k' k ≠ 0%Z →
  skiplist.Find sl' k' = skiplist.Find sl k'.
Proof.
  intros Hsl Hdel Hne. destruct (Inv_build cmp seed ops sl Hsl) as [L HInv].
  by apply (Delete_frame cmp sl L k r sl' k').
Qed.

Lemma Delete_keeps_other_keys_witness :
  ∃ sl sl',
    spec.build skiplist.IntComparator Nat.even ops_example = Ok sl
    ∧ skiplist.Delete sl 3%Z = Ok (true, sl')
    ∧ skiplist.Find sl' 5%Z = skiplist.Find sl 5%Z.
Proof.
  destruct (spec.build skiplist.IntComparator Nat.even ops_example)
    as [sl| | |] eqn:Hsl; [|vm_compute in Hsl; discriminate Hsl..].
  destruct (skiplist.Delete sl 3%Z) as [[r sl']| | |] eqn:Hdel.
  2-4: vm_compute in Hsl; injection Hsl as <-; vm_compute in Hdel; discriminate Hdel.
  assert (r = true) as ->.
  { vm_compute in Hsl. injection Hsl as <-. vm_compute in Hdel. congruence. }
  exists sl, sl'. split; [done|]. split; [done|].
  apply (Delete_keeps_other_keys skiplist.IntComparator IntComparator_laws
           Nat.even ops_example sl sl' 3%Z 5%Z true Hsl Hdel).
  by vm_compute.
Defined.

(** X9.  [Size] counts the entries of the iteration. *)
Theorem Size_counts_entries {K V : Type}
    (cmp : skiplist.Comparator K) (laws : spec.ComparatorLaws cmp)
    (seed : nat → bool) (ops : list (spec.op (K := K) (V := V)))
    (sl : skiplist.SkipList) :
  spec.build cmp seed ops = Ok sl →
  ∃ es, spec.entries sl = Ok es ∧ skiplist.Size sl = Z.of_nat (length es).
Proof.
  intros Hsl. destruct (Inv_build cmp seed ops sl Hsl) as [L HInv].
  rewrite (entries_spec cmp sl L HInv). eexists. split; [done|].
  destruct HInv as (_ & _ & _ & Hsize). unfold skiplist.Size.
  by rewrite length_map.
Qed.

Lemma Size_counts_entries_witness :
  ∃ sl,
    spec.build skiplist.IntComparator Nat.even ops_example = Ok sl
    ∧ skiplist.Size sl = 3%Z.
Proof.
  destruct (spec.build skiplist.IntComparator Nat.even ops_example)
    as [sl| | |] eqn:Hsl; [|vm_compute in Hsl; discriminate Hsl..].
  exists sl. split; [done|].
  destruct (Size_counts_entries skiplist.IntComparator IntComparator_laws
              Nat.even ops_example sl Hsl) as (es & Hes & ->).
  vm_compute in Hsl. injection Hsl as <-. vm_compute in Hes.
  by injection Hes as <-.
Defined.

(** X10.  [Seek] puts the iterator on the first entry whose key is not
    LESS than [k]: the iteration from there yields the entries of the full
    iteration from which the keys LESS than [k], and only these, were
    dropped at the front. *)
Theorem Seek_stops_at_first_key_not_less {K V : Type}
    (cmp : skiplist.Comparator K) (laws : spec.ComparatorLaws cmp)
    (seed : nat → bool) (ops : list (spec.op (K := K) (V := V)))
    (sl : skiplist.SkipList) (iter : skiplist.Iterator) (k : K) :
  spec.build cmp seed ops = Ok sl →
  ∃ iter' es1 es2,
    skiplist.Iterator_Seek sl iter k = Ok iter'
    ∧ spec.entries sl = Ok (es1 ++ es2)
    ∧ spec.iterate (length (skiplist.nodes sl)) sl iter' = Ok es2
    ∧ (∀ e k', e ∈ es1 → e.1 = Some k' → (skiplist.Compare k' k < 0)%Z)
    ∧ (∀ e k', e ∈ es2 → e.1 = Some k' → (0 ≤ skiplist.Compare k' k)%Z).
Proof.
  intros Hsl. destruct (Inv_build cmp seed ops sl Hsl) as [L HInv].
  pose proof HInv as (Hhd & Hc & Hshape & Hsize).
  pose proof (sh_level _ _ _ _ Hshape) as Hlv.
  pose proof (sh_chain _ _ _ _ Hshape 0 zero_lt_maxLevel) as Hseg.
  pose proof (sh_keyed _ _ _ _ Hshape 0 zero_lt_maxLevel) as Hkeyed.
  pose proof (sh_ordered _ _ _ _ Hshape 0 zero_lt_maxLevel) as Hord.
  pose proof (sh_fuel _ _ _ _ Hshape 0 zero_lt_maxLevel) as Hfuel.
  pose (f := λ a, (keyOf (skiplist.nodes sl) a, valueOf (skiplist.nodes sl) a)).
  pose proof (lower_upper (below cmp (skiplist.nodes sl) k) (L 0)) as HL.
  exists (skiplist.mkIterator
            (first (upper (below cmp (skiplist.nodes sl) k) (L 0)) None)),
    (map f (lower (below cmp (skiplist.nodes sl) k) (L 0))),
    (map f (upper (below cmp (skiplist.nodes sl) k) (L 0))).
  split; [|split; [|split; [|split]]].
  - apply (Seek_spec cmp sl L iter k HInv).
  - rewrite (entries_spec cmp sl L HInv). rewrite <- HL at 1. by rewrite map_app.
  - rewrite <- HL in Hseg, Hkeyed, Hfuel. apply seg_split in Hseg.
    unfold keyed in Hkeyed. apply Forall_app in Hkeyed as [_ Hkeyed].
    rewrite length_app in Hfuel.
    apply (iterate_seg sl _ _ _ Hseg); [done|lia].
  - intros e k' (a & -> & Ha)%list_elem_of_fmap Hk. cbn in Hk.
    destruct (lower_keys cmp _ L k 0 a zero_lt_maxLevel Ha) as (ka & Hka & Hlt).
    congruence.
  - intros e k' (a & -> & Ha)%list_elem_of_fmap Hk. cbn in Hk.
    pose proof (upper_not_below cmp _ k _ a Hord Ha) as Hb.
    unfold below in Hb. rewrite Hk in Hb. by apply Z.ltb_ge in Hb.
Qed.

Lemma Seek_stops_at_first_key_not_less_witness :
  ∃ sl iter',
    spec.build skiplist.IntComparator Nat.even ops_example = Ok sl
    ∧ skiplist.Iterator_Seek sl (skiplist.mkIterator None) 2%Z = Ok iter'
    ∧ spec.iterate (length (skiplist.nodes sl)) sl iter'
      = Ok [(Some 3, Some 31); (Some 5, Some 50)]%Z.
Proof.
  destruct (spec.build skiplist.IntComparator Nat.even ops_example)
    as [sl| | |] eqn:Hsl; [|vm_compute in Hsl; discriminate Hsl..].
  destruct (Seek_stops_at_first_key_not_less skiplist.IntComparator
              IntComparator_laws Nat.even ops_example sl
              (skiplist.mkIterator None) 2%Z Hsl)
    as (iter' & es1 & es2 & Hseek & _).
  exists sl, iter'. split; [done|]. split; [done|].
  vm_compute in Hsl. injection Hsl as <-.
  vm_compute in Hseek. injection Hseek as <-. vm_compute. reflexivity.
Defined.

(** X11.  On a list built by [Insert] and [Delete], the operations run to
    their end: [Find], [Insert], [Delete], [NewIterator], [Seek] and the
    full iteration dereference no nil pointer, index no slice out of its
    range, and none of their loops goes on forever. *)
Theorem skiplist_operations_never_panic {K V : Type}
    (cmp : skiplist.Comparator K) (laws : spec.ComparatorLaws cmp)
    (seed : nat → bool) (ops : list (spec.op (K := K) (V := V)))
    (sl : skiplist.SkipList) (iter : skiplist.Iterator) (k : K) (v : V) :
  spec.build cmp seed ops = Ok sl →
  (∃ r, skiplist.Find sl k = Ok r)
  ∧ (∃ sl', skiplist.Insert sl k v = Ok sl')
  ∧ (∃ r sl', skiplist.Delete sl k = Ok (r, sl'))
  ∧ (∃ iter', skiplist.NewIterator sl = Ok iter')
  ∧ (∃ iter', skiplist.Iterator_Seek sl iter k = Ok iter')
  ∧ (∃ es, spec.entries sl = Ok es).
Proof.
  intros Hsl. destruct (Inv_build cmp seed ops sl Hsl) as [L HInv].
  pose proof HInv as (Hhd & Hc & Hshape & Hsize).
  split; [|split; [|split; [|split; [|split]]]].
  - destruct (Find_cases cmp sl L k HInv) as [(-> & _)|(a & ka & _ & _ & _ & _ & ->)];
      by eexists.
  - destruct (hit cmp (skiplist.nodes sl) L k) as [y|] eqn:Hhit.
    + destruct (Insert_hit cmp sl L k v y HInv Hhit) as (sl' & -> & _). by eexists.
    + destruct (Insert_miss cmp sl L k v HInv Hhit) as (sl' & lvl & -> & _).
      by eexists.
  - destruct (hit cmp (skiplist.nodes sl) L k) as [y|] eqn:Hhit.
    + destruct (Delete_hit cmp sl L k y HInv Hhit) as (sl' & -> & _). by eexists _, _.
    + rewrite (Delete_miss cmp sl L k HInv Hhit). by eexists _, _.
  - unfold skiplist.NewIterator. rewrite Hhd.
    pose proof (sh_chain _ _ _ _ Hshape 0 zero_lt_maxLevel) as Hseg.
    apply seg_first in Hseg. rewrite (fwd_nxt _ _ _ _ Hseg). by eexists.
  - rewrite (Seek_spec cmp sl L iter k HInv). by eexists.
  - rewrite (entries_spec cmp sl L HInv). by eexists.
Qed.

Lemma skiplist_operations_never_panic_witness :
  ∃ sl,
    spec.build skiplist.IntComparator Nat.even ops_example = Ok sl
    ∧ (∃ r, skiplist.Find sl 9%Z = Ok r)
    ∧ (∃ sl', skiplist.Insert sl 9%Z 90%Z = Ok sl')
    ∧ (∃ r sl', skiplist.Delete sl 9%Z = Ok (r, sl')).
Proof.
  destruct (spec.build skiplist.IntComparator Nat.even ops_example)
    as [sl| | |] eqn:Hsl; [|vm_compute in Hsl; discriminate Hsl..].
  destruct (skiplist_operations_never_panic skiplist.IntComparator
              IntComparator_laws Nat.even ops_example sl
              (skiplist.mkIterator None) 9%Z 90%Z Hsl)
    as (Hfind & Hins & Hdel & _).
  exists sl. exact (conj eq_refl (conj Hfind (conj Hins Hdel))).
Defined.

(** X12.  The levels are nested and bounded: the active level of the list
    stays between 1 and [maxLevel], no node is linked at or above the active
    level, and every key linked at level [i + 1] is linked at level [i]. *)
Theorem levels_are_nested {K V : Type}
    (cmp : skiplist.Comparator K) (laws : spec.ComparatorLaws cmp)
    (seed : nat → bool) (ops : list (spec.op (K := K) (V := V)))
    (sl : skiplist.SkipList) :
  spec.build cmp seed ops = Ok sl →
  1 ≤ skiplist.level sl ≤ skiplist.maxLevel
  ∧ (∀ i, skiplist.level sl ≤ i → i < skiplist.maxLevel →
          spec.level_keys sl i = Ok [])
  ∧ (∀ i, S i < skiplist.maxLevel →
          ∃ ks ks', spec.level_keys sl i = Ok ks
                    ∧ spec.level_keys sl (S i) = Ok ks'
                    ∧ ks' ⊆ ks).
Proof.
  intros Hsl. destruct (Inv_build cmp seed ops sl Hsl) as [L HInv].
  pose proof HInv as (Hhd & Hc & Hshape & Hsize).
  split; [exact (sh_level _ _ _ _ Hshape)|]. split.
  - intros i Hi Hmax. rewrite (level_keys_spec cmp sl L i HInv Hmax).
    by rewrite (sh_top _ _ _ _ Hshape i Hi Hmax).
  - intros i Hi. eexists _, _.
    rewrite (level_keys_spec cmp sl L i HInv) by lia.
    rewrite (level_keys_spec cmp sl L (S i) HInv) by lia.
    split; [done|]. split; [done|].
    intros ko (a & -> & Ha)%list_elem_of_fmap.
    apply list_elem_of_fmap. exists a. split; [done|].
    by apply (sh_tower _ _ _ _ Hshape i a).
Qed.

Lemma levels_are_nested_witness :
  ∃ sl,
    spec.build skiplist.IntComparator Nat.even ops_example = Ok sl
    ∧ 1 ≤ skiplist.level sl ≤ skiplist.maxLevel
    ∧ spec.level_keys sl 31 = Ok [].
Proof.
  destruct (spec.build skiplist.IntComparator Nat.even ops_example)
    as [sl| | |] eqn:Hsl; [|vm_compute in Hsl; discriminate Hsl..].
  destruct (levels_are_nested skiplist.IntComparator IntComparator_laws
              Nat.even ops_example sl Hsl) as (Hlv & Htop & _).
  exists sl. split; [done|]. split; [done|].
  vm_compute in Hsl. injection Hsl as <-. vm_compute. reflexivity.
Defined.

(** The loop of [randomLevel], turn by turn. *)
Lemma randomLevel_loop_draws n : ∀ level r,
  1 ≤ level ≤ skiplist.maxLevel → skiplist.maxLevel - level < n →
  let lvl := (skiplist.randomLevel_loop n level r).1 in
  let r' := (skiplist.randomLevel_loop n level r).2 in
  level ≤ lvl ≤ skiplist.maxLevel
  ∧ skiplist.coins r' = skiplist.coins r
  ∧ (∀ j, j < lvl - level → skiplist.coins r (skiplist.drawn r + j) = true)
  ∧ (lvl < skiplist.maxLevel →
     skiplist.coins r (skiplist.drawn r + (lvl - level)) = false
     ∧ skiplist.drawn r' = skiplist.drawn r + (lvl - level) + 1)
  ∧ (lvl = skiplist.maxLevel →
     skiplist.drawn r' = skiplist.drawn r + (lvl - level)).
Proof.
  induction n as [|n IH]; intros level r Hlevel Hn; [lia|].
  cbn [skiplist.randomLevel_loop].
  destruct (Nat.ltb_spec level skiplist.maxLevel) as [Hlt|Hge].
  - unfold skiplist.Float64_lt_probability.
    destruct (skiplist.coins r (skiplist.drawn r)) eqn:Hcoin.
    + specialize (IH (level + 1) (skiplist.mkRand (skiplist.coins r) (S (skiplist.drawn r)))
                     ltac:(lia) ltac:(lia)).
      cbn zeta in IH. cbn [skiplist.coins skiplist.drawn] in IH.
      destruct IH as (Hb & Hc & Htrue & Hstop & Hcap).
      set (lvl := (skiplist.randomLevel_loop n (level + 1) _).1) in *.
      cbn zeta. split; [lia|]. split; [done|]. split; [|split].
      * intros j Hj. destruct j as [|j]; [by rewrite Nat.add_0_r|].
        rewrite <- (Htrue j) by lia. f_equal. lia.
      * intros Hl. destruct (Hstop Hl) as [Hf Hd]. split.
        -- rewrite <- Hf. f_equal. lia.
        -- rewrite Hd. lia.
      * intros Hl. rewrite (Hcap Hl). lia.
    + cbn zeta. cbn [fst snd skiplist.coins skiplist.drawn].
      split; [lia|]. split; [done|]. split; [intros j; lia|]. split.
      * intros _. rewrite Nat.sub_diag, Nat.add_0_r. split; [done|lia].
      * lia.
  - cbn zeta. cbn [fst snd]. split; [lia|]. split; [done|].
    split; [intros j; lia|]. split; [lia|]. intros _. lia.
Qed.

(** X13.  [randomLevel] returns one more than the number of draws in a row
    that fall below [probability], and never more than [maxLevel]: the level
    is between 1 and [maxLevel], each draw before the last one succeeded,
    and below [maxLevel] the last draw failed. *)
Theorem randomLevel_counts_successes (r : skiplist.Rand) :
  let lvl := (skiplist.randomLevel r).1 in
  let r' := (skiplist.randomLevel r).2 in
  1 ≤ lvl ≤ skiplist.maxLevel
  ∧ (∀ j, j < lvl - 1 → skiplist.coins r (skiplist.drawn r + j) = true)
  ∧ (lvl < skiplist.maxLevel →
     skiplist.coins r (skiplist.drawn r + (lvl - 1)) = false
     ∧ skiplist.drawn r' = skiplist.drawn r + lvl)
  ∧ (lvl = skiplist.maxLevel →
     skiplist.drawn r' = skiplist.drawn r + (skiplist.maxLevel - 1)).
Proof.
  destruct (randomLevel_loop_draws skiplist.maxLevel 1 r)
    as (Hb & _ & Htrue & Hstop & Hcap);
    [unfold skiplist.maxLevel; lia..|].
  cbn zeta. fold (skiplist.randomLevel r) in *.
  split; [done|]. split; [done|]. split.
  - intros Hl. destruct (Hstop Hl) as [Hf Hd]. split; [done|]. rewrite Hd. lia.
  - intros Hl. rewrite (Hcap Hl). lia.
Qed.

(** X25.  [Delete] undoes [Insert] of a new key: after a key that [Find]
    does not find is inserted and then deleted, the deletion having returned
    true, the iteration yields the entries it yielded before and [Size] is
    what it was. *)
Theorem Insert_then_Delete_restores {K V : Type}
    (cmp : skiplist.Comparator K) (laws : spec.ComparatorLaws cmp)
    (seed : nat → bool) (ops : list (spec.op (K := K) (V := V)))
    (sl : skiplist.SkipList) (k : K) (v : V) :
  spec.build cmp seed ops = Ok sl →
  skiplist.Find sl k = Ok (None, false) →
  ∃ sl1 sl2,
    skiplist.Insert sl k v = Ok sl1
    ∧ skiplist.Delete sl1 k = Ok (true, sl2)
    ∧ spec.entries sl2 = spec.entries sl
    ∧ skiplist.Size sl2 = skiplist.Size sl.
Proof.
  intros Hsl Hfind. destruct (Inv_build cmp seed ops sl Hsl) as [L HInv].
  pose proof HInv as (Hhd & Hc & Hshape & Hsize).
  destruct (Find_cases cmp sl L k HInv)
    as [(_ & Hhit & _)|(a & ka & _ & _ & _ & _ & Hf)]; [|by rewrite Hf in Hfind].
  destruct (Insert_absent cmp sl L k v HInv Hhit)
    as (sl1 & L1 & Hins & HInv1 & Hsz1 & HL1 & Hold & Hnew).
  pose proof HInv1 as (_ & _ & Hshape1 & _).
  pose proof Hnew as [= Hnk Hnv].
  set (nw := length (skiplist.nodes sl)) in *.
  set (lo := lower (below cmp (skiplist.nodes sl) k) (L 0)) in *.
  set (hi := upper (below cmp (skiplist.nodes sl) k) (L 0)) in *.
  assert (L 0 = lo ++ hi) as HL by (symmetry; apply lower_upper).
  assert (nw ∈ L1 0) as Hin1.
  { rewrite HL1. apply elem_of_app. right. apply list_elem_of_here. }
  pose proof (hit_unique cmp _ _ L1 Hshape1 k nw k Hin1 Hnk (cmp_refl cmp k)) as Hhit1.
  destruct (Delete_hit_data cmp sl1 L1 k nw HInv1 Hhit1)
    as (sl2 & Hdel & HInv2 & Hsz2 & _ & (_ & Hkey2 & Hval2)).
  exists sl1, sl2. split; [done|]. split; [done|]. split.
  - rewrite (entries_spec cmp sl2 _ HInv2), (entries_spec cmp sl L HInv).
    f_equal.
    assert (∀ a, a ∈ L 0 →
              (keyOf (skiplist.nodes sl1) a, valueOf (skiplist.nodes sl1) a)
              = (keyOf (skiplist.nodes sl) a, valueOf (skiplist.nodes sl) a))
      as Hsame.
    { intros a Ha. apply Hold.
      by apply (chain_lt cmp _ _ L Hshape 0 a zero_lt_maxLevel). }
    assert (Forall (λ a, below cmp (skiplist.nodes sl1) k a = true) lo) as Hlo.
    { apply Forall_forall. intros a Ha.
      pose proof (lower_Forall (below cmp (skiplist.nodes sl) k) (L 0)) as Hb.
      rewrite Forall_forall in Hb. specialize (Hb a Ha).
      assert (a ∈ L 0) as HaL by (rewrite HL; apply elem_of_app; by left).
      pose proof (Hsame a HaL) as [= Hk _].
      unfold below in *. by rewrite Hk. }
    assert (below cmp (skiplist.nodes sl1) k nw = false) as Hnb.
    { unfold below. rewrite Hnk. rewrite (cmp_refl cmp k). done. }
    unfold removed. rewrite decide_True by done. rewrite HL1.
    rewrite (lower_app _ lo _ Hlo), (upper_app _ lo _ Hlo).
    cbn [lower upper]. rewrite Hnb. cbn [drop]. rewrite drop_0, app_nil_r.
    rewrite <- HL. apply map_ext_in. intros a Ha%list_elem_of_In.
    rewrite Hkey2, Hval2. by apply Hsame.
  - unfold skiplist.Size. lia.
Qed.

Lemma Insert_then_Delete_restores_witness :
  ∃ sl sl1 sl2,
    spec.build skiplist.IntComparator Nat.even ops_example = Ok sl
    ∧ skiplist.Find sl 4%Z = Ok (None, false)
    ∧ skiplist.Insert sl 4%Z 40%Z = Ok sl1
    ∧ skiplist.Delete sl1 4%Z = Ok (true, sl2)
    ∧ spec.entries sl2 = spec.entries sl.
Proof.
  destruct (spec.build skiplist.IntComparator Nat.even ops_example)
    as [sl| | |] eqn:Hsl; [|vm_compute in Hsl; discriminate Hsl..].
  assert (skiplist.Find sl 4%Z = Ok (None, false)) as Hfind.
  { vm_compute in Hsl. injection Hsl as <-. vm_compute. reflexivity. }
  destruct (Insert_then_Delete_restores skiplist.IntComparator IntComparator_laws
              Nat.even ops_example sl 4%Z 40%Z Hsl Hfind)
    as (sl1 & sl2 & Hins & Hdel & Hes & _).
  exists sl, sl1, sl2.
  exact (conj eq_refl (conj Hfind (conj Hins (conj Hdel Hes)))).
Defined.

(** * The log beyond one round trip *)

Section log_more.

Lemma wrote_appending w os buf :
  appending w os →
  appending (wrote w os buf).1 (wrote w os buf).2
  ∧ name (wal.file (wrote w os buf).1) = name (wal.file w)
  ∧ wal.syncOps (wrote w os buf).1 = wal.syncOps w
  ∧ contents (wrote w os buf).2 (name (wal.file w))
    = contents os (name (wal.file w)) ++ buf.
Proof.
  intros (Hs & Hex & Hpos & Hsz). unfold wrote, appending.
  cbn [fst snd wal.file wal.size wal.syncOps].
  rewrite put_script, put_name, put_pos, (put_contents _ _ _ Hpos), length_app.
  split; [|done]. split; [done|]. split; [by apply put_exists|]. split; lia.
Qed.


Lemma replay_layouts w os rs :
  script os = [] → is_Some (files os !! name (wal.file w)) →
  contents os (name (wal.file w)) = concat (map spec.layout rs) →
  wal.size w = Z.of_nat (length (concat (map spec.layout rs))) →
  Forall spec.put_or_delete rs → Forall spec.go_slices rs →
  spec.replay w os = Some (map Ok rs ++ [Err EOF]).
Proof.
  intros Hs Hex Hc Hsz Hty Hsl. unfold spec.replay.
  rewrite NewIterator_quiet by done. f_equal.
  apply (Next_all_layouts rs _ _ []); try done.
  rewrite Hsz, Nat2Z.id. pose proof (layouts_length rs). lia.
Qed.

End log_more.

(** * Further theorems on the write-ahead log *)

(** X14.  [readUvarint] decodes what [encodeVarint] encodes: on a file that
    holds at the handle the encoding of [x < 2^64], it returns [x] and the
    number of bytes of the encoding, which is between 1 and 10, and leaves
    the handle right after them. *)
Theorem varint_roundtrip (x : N) (f : File) (os : OS) (pre rest : list byte) :
  (x < 2 ^ 64)%N → script os = [] →
  contents os (name f) = pre ++ wal.encodeVarint x ++ rest →
  pos f = length pre →
  wal.readUvarint f os
  = (Ok (x, length (wal.encodeVarint x)),
     mkFile (name f) (pos f + length (wal.encodeVarint x)), os)
  ∧ 1 ≤ length (wal.encodeVarint x) ≤ 10.
Proof.
  intros Hx Hs Hc Hp. split.
  - by apply (readUvarint_put x f os pre rest).
  - pose proof (PutUvarint_length_pos 9 x). pose proof (PutUvarint_length_le 9 x).
    unfold wal.encodeVarint. lia.
Qed.

Lemma varint_roundtrip_witness :
  wal.readUvarint (mkFile "wal" 1) (mkOS {[ "wal" := [x01; xac; x02; x61] ]} [])
  = (Ok (300%N, 2), mkFile "wal" 3, mkOS {[ "wal" := [x01; xac; x02; x61] ]} [])
  ∧ 1 ≤ 2 ≤ 10.
Proof.
  exact (varint_roundtrip 300 (mkFile "wal" 1)
           (mkOS {[ "wal" := [x01; xac; x02; x61] ]} []) [x01] [x61]
           eq_refl eq_refl eq_refl eq_refl).
Defined.

(** X15.  [Write] and [WriteBatch] keep [w.size] in step with their result,
    whatever the operating system does: they return nil and [w.size] has
    grown by the length of what was encoded, or they return the error of the
    failed write or sync and [w.size] is unchanged; they do not panic. *)
Theorem Write_size_accounting (w : wal.WAL) (r : wal.Record_)
    (rs : list wal.Record_) (os : OS) :
  match (wal.Write w r os).1.1 with
  | Ok _ =>
      wal.size (wal.Write w r os).1.2
      = (wal.size w + Z.of_nat (length (spec.layout r)))%Z
  | Err _ => wal.size (wal.Write w r os).1.2 = wal.size w
  | Panic _ | OutOfFuel => False
  end
  ∧ match (wal.WriteBatch w rs os).1.1 with
    | Ok _ =>
        wal.size (wal.WriteBatch w rs os).1.2
        = (wal.size w + Z.of_nat (length (concat (map spec.layout rs))))%Z
    | Err _ => wal.size (wal.WriteBatch w rs os).1.2 = wal.size w
    | Panic _ | OutOfFuel => False
    end.
Proof.
  assert (∀ buf,
    match (wal.on_file w (_ <- file_Write buf ;;
                          if wal.syncOps w then file_Sync else ret tt) os).1.1 with
    | Ok _ | Err _ => True
    | _ => False
    end
    ∧ wal.size (wal.on_file w (_ <- file_Write buf ;;
                               if wal.syncOps w then file_Sync else ret tt) os).1.2
      = wal.size w
    ∧ wal.syncOps (wal.on_file w (_ <- file_Write buf ;;
                                  if wal.syncOps w then file_Sync else ret tt) os).1.2
      = wal.syncOps w) as Hflush.
  { intros buf. unfold wal.on_file, bind, file_Write, file_Sync, ret.
    destruct (next_fault os) as [[[e|n e]|] os1]; cbn.
    - done.
    - by destruct (take n buf).
    - destruct buf as [|b buf]; destruct (wal.syncOps w); cbn; try done;
        by destruct (next_fault _) as [[[e|n e]|] os2]. }
  split.
  - unfold wal.Write. rewrite Write_buf_layout.
    destruct (Hflush (spec.layout r)) as (Hres & Hsz & Hsync).
    destruct (wal.on_file _ _ _) as [[res w1] os1]. cbn [fst snd] in *.
    destruct res; cbn; try done. by rewrite Hsz.
  - unfold wal.WriteBatch. rewrite WriteBatch_buf_layout, WriteBatch_totalSize_sum.
    destruct (Hflush (concat (map spec.layout rs))) as (Hres & Hsz & Hsync).
    destruct (wal.on_file _ _ _) as [[res w1] os1]. cbn [fst snd] in *.
    destruct res; cbn; try done. by rewrite Hsz.
Qed.

(** X16.  When the handle of the log is at the end of its file and no
    fault is injected, [Write] and [WriteBatch] append: the file afterwards
    is the file before followed by the encoded records, the handle is again
    at the end and [w.size] is again the length of the file.  An empty batch
    changes nothing. *)
Theorem writes_append_at_end (w : wal.WAL) (r : wal.Record_)
    (rs : list wal.Record_) (os : OS) :
  appending w os →
  (∃ w' os',
     wal.Write w r os = (Ok tt, w', os') ∧ appending w' os'
     ∧ name (wal.file w') = name (wal.file w)
     ∧ contents os' (name (wal.file w))
       = contents os (name (wal.file w)) ++ spec.layout r)
  ∧ (∃ w' os',
       wal.WriteBatch w rs os = (Ok tt, w', os') ∧ appending w' os'
       ∧ name (wal.file w') = name (wal.file w)
       ∧ contents os' (name (wal.file w))
         = contents os (name (wal.file w)) ++ concat (map spec.layout rs))
  ∧ wal.WriteBatch w [] os = (Ok tt, w, os).
Proof.
  intros Happ. pose proof Happ as (Hs & _). split; [|split].
  - rewrite (Write_quiet w r os Hs).
    destruct (wrote_appending w os (spec.layout r) Happ) as (? & ? & ? & ?).
    by eexists _, _.
  - rewrite (WriteBatch_quiet w rs os Hs).
    destruct (wrote_appending w os (concat (map spec.layout rs)) Happ)
      as (? & ? & ? & ?).
    by eexists _, _.
  - rewrite (WriteBatch_quiet w [] os Hs). cbn [map concat].
    by rewrite wrote_nil.
Qed.

Lemma writes_append_at_end_witness :
  let w := wal.mkWAL (mkFile "wal" 0) 0 true in
  let os := mkOS {[ "wal" := [] ]} [] in
  let r := wal.mkRecord wal.TypePut [x61] [x31] in
  appending w os
  ∧ ∃ w' os', wal.Write w r os = (Ok tt, w', os')
              ∧ contents os' "wal" = spec.layout r.
Proof.
  intros w os r.
  assert (appending w os) as Happ.
  { split; [done|]. split; [by eexists|]. split; reflexivity. }
  split; [exact Happ|].
  destruct (writes_append_at_end w r [] os Happ)
    as ((w' & os' & Hw & _ & _ & Hc) & _).
  by exists w', os'.
Defined.

(** X17.  [Truncate] empties the log: when it returns nil the file is
    empty, the handle is at offset 0 and [w.size] is 0, after which the log
    appends again; when the truncation or the seek fails it returns that
    error and [w.size] is unchanged. *)
Theorem Truncate_resets_log (w : wal.WAL) (os : OS) :
  match (wal.Truncate w os).1.1 with
  | Ok _ =>
      wal.size (wal.Truncate w os).1.2 = 0%Z
      ∧ pos (wal.file (wal.Truncate w os).1.2) = 0
      ∧ contents (wal.Truncate w os).2 (name (wal.file w)) = []
  | Err _ => wal.size (wal.Truncate w os).1.2 = wal.size w
  | Panic _ | OutOfFuel => False
  end
  ∧ (script os = [] →
     ∃ w' os', wal.Truncate w os = (Ok tt, w', os') ∧ appending w' os'
               ∧ name (wal.file w') = name (wal.file w)).
Proof.
  split.
  - unfold wal.Truncate, wal.on_file, bind, file_Truncate0, file_Seek, next_fault.
    destruct (script os) as [|[x|] [|[y|] s]] eqn:E; cbn; rewrite ?E; cbn;
      try done;
      (split; [done|]; split; [done|]);
      unfold contents; cbn; by rewrite lookup_insert_eq.
  - intros Hs. unfold wal.Truncate, wal.on_file, bind, file_Truncate0, file_Seek.
    rewrite (next_fault_quiet os Hs).
    rewrite (next_fault_quiet (set_contents os _ [])) by done. cbn.
    eexists _, _. split; [done|]. split; [|done].
    unfold appending. cbn. rewrite contents_set.
    split; [done|]. split; [|done]. rewrite lookup_insert_eq. by eexists.
Qed.

Lemma Truncate_resets_log_witness :
  let w := wal.mkWAL (mkFile "wal" 7) 7 false in
  let os := mkOS {[ "wal" := [x00; x00; x00; x00; x00; x00; x00] ]} [] in
  ∃ w' os', wal.Truncate w os = (Ok tt, w', os') ∧ appending w' os'
            ∧ contents os' "wal" = [].
Proof.
  intros w os.
  destruct (proj2 (Truncate_resets_log w os) eq_refl) as (w' & os' & Ht & Happ & _).
  exists w', os'. split; [done|]. split; [done|].
  vm_compute in Ht. by injection Ht as <- <-.
Defined.

(** X18.  The read path of a recovery: on a file that holds the records
    [rs] and nothing else, [Open] followed by a full iteration yields [rs],
    in order, and then the end-of-log signal. *)
Theorem Open_then_replay_reads_log (path : string) (syncOps : bool)
    (rs : list wal.Record_) (os : OS) :
  script os = [] → contents os path = concat (map spec.layout rs) →
  Forall spec.put_or_delete rs → Forall spec.go_slices rs →
  ∃ w os',
    wal.Open path syncOps os = (Ok w, os')
    ∧ wal.size w = Z.of_nat (length (concat (map spec.layout rs)))
    ∧ spec.replay w os' = Some (map Ok rs ++ [Err EOF]).
Proof.
  intros Hs Hc Hty Hsl.
  destruct (Open_quiet path syncOps os Hs) as (os0 & Hopen & Hs0 & Hc0 & Hex).
  eexists _, os0. split; [exact Hopen|]. cbn [wal.size]. rewrite Hc.
  split; [done|]. apply replay_layouts; try done.
  cbn [wal.file name]. by rewrite Hc0.
Qed.

Lemma Open_then_replay_reads_log_witness :
  ∃ w os',
    wal.Open "wal" false recovery_example = (Ok w, os')
    ∧ spec.replay w os'
      = Some [Ok (wal.mkRecord wal.TypePut [x61] [x31]);
              Ok (wal.mkRecord wal.TypePut [x62] [x32]);
              Ok (wal.mkRecord wal.TypeDelete [x61] []);
              Ok (wal.mkRecord wal.TypePut [x61] [x33]); Err EOF].
Proof.
  destruct (Open_then_replay_reads_log "wal" false
              [ wal.mkRecord wal.TypePut [x61] [x31];
                wal.mkRecord wal.TypePut [x62] [x32];
                wal.mkRecord wal.TypeDelete [x61] [];
                wal.mkRecord wal.TypePut [x61] [x33] ] recovery_example)
    as (w & os' & Hopen & _ & Hreplay).
  - reflexivity.
  - reflexivity.
  - repeat (apply Forall_cons_2; [first [by left | by right]|]). apply Forall_nil_2.
  - repeat constructor.
  - by exists w, os'.
Defined.



(** X20.  [Next] rejects a record whose type byte is neither [TypePut] nor
    [TypeDelete] with [ErrInvalidRecord], and does not advance. *)
Theorem Next_rejects_unknown_type (it : wal.Iterator.t) (os : OS)
    (pre post : list byte) (b : byte) :
  script os = [] →
  contents os (name (wal.Iterator.file it)) = pre ++ b :: post →
  wal.Iterator.offset it = Z.of_nat (length pre) →
  (wal.Iterator.offset it < wal.Iterator.fileEnd it)%Z →
  b ≠ wal.TypePut → b ≠ wal.TypeDelete →
  (wal.Iterator.Next it os).1.1 = Err ErrInvalidRecord
  ∧ wal.Iterator.offset (wal.Iterator.Next it os).1.2 = wal.Iterator.offset it.
Proof.
  intros Hs Hc Hoff Hlt Hp Hd. unfold wal.Iterator.Next.
  destruct (Z.leb_spec (wal.Iterator.fileEnd it) (wal.Iterator.offset it)); [lia|].
  unfold wal.Iterator.Next_read.
  destruct (file_Seek_at (wal.Iterator.file it) os pre (b :: post) Hs Hc)
    as (f' & Hseek & Hname & Hat).
  rewrite Hoff. rewrite (bind_ok Hseek).
  rewrite (bind_ok (file_Read1_at f' os pre b post Hat)).
  cbn [nth].
  destruct (Byte.eqb b wal.TypePut) eqn:E1.
  { by apply Byte.byte_dec_bl in E1. }
  destruct (Byte.eqb b wal.TypeDelete) eqn:E2.
  { by apply Byte.byte_dec_bl in E2. }
  done.
Qed.

Lemma Next_rejects_unknown_type_witness :
  (wal.Iterator.Next (it_example 1) (mkOS {[ "wal" := [x00] ]} [])).1.1
  = Err ErrInvalidRecord.
Proof.
  apply (Next_rejects_unknown_type (it_example 1) (mkOS {[ "wal" := [x00] ]} [])
           [] [] x00); try reflexivity; discriminate.
Defined.

(** X21.  When the file is no longer than the offset of the iterator,
    [Next] returns [io.EOF] and does not advance, also when the end offset
    recorded at creation lies further: a file shorter than the size that the
    log recorded ends the iteration like a clean end of the log. *)
Theorem Next_past_the_file_is_EOF (it : wal.Iterator.t) (os : OS) :
  script os = [] →
  (Z.of_nat (length (contents os (name (wal.Iterator.file it))))
   ≤ wal.Iterator.offset it)%Z →
  (wal.Iterator.Next it os).1.1 = Err EOF
  ∧ wal.Iterator.offset (wal.Iterator.Next it os).1.2 = wal.Iterator.offset it.
Proof.
  intros Hs Hlen. unfold wal.Iterator.Next.
  destruct (wal.Iterator.fileEnd it <=? wal.Iterator.offset it)%Z; [done|].
  unfold wal.Iterator.Next_read, bind, file_Seek, file_Read.
  rewrite (next_fault_quiet os Hs).
  destruct (Z.ltb_spec (wal.Iterator.offset it) 0); [lia|].
  rewrite (next_fault_quiet os Hs). cbn [N.eqb name pos].
  rewrite drop_ge by lia. done.
Qed.

Lemma Next_past_the_file_is_EOF_witness :
  (wal.Iterator.Next (it_example 19) (mkOS {[ "wal" := [] ]} [])).1.1 = Err EOF.
Proof.
  apply (Next_past_the_file_is_EOF (it_example 19) (mkOS {[ "wal" := [] ]} []));
    [reflexivity|by vm_compute].
Defined.

(** * Further theorems on the memtable *)

Lemma bytes_ne_compare (a b : list byte) :
  a ≠ b → skiplist.Compare (Comparator := skiplist.BytesComparator) a b ≠ 0%Z.
Proof.
  intros Hne. rewrite BytesComparator_bytes_compare. by rewrite bytes_compare_eq.
Qed.

(** X22.  [Put] on a memtable whose index was built by [Insert] and
    [Delete], with no fault injected: it returns nil, the log has received
    the Put record, the index is the old one after [Insert key value], so
    that a lookup of [key] finds [value] and every other key is found as
    before. *)
Theorem Put_then_Find (m : memtable.MemTable) (seed : nat → bool)
    (ops : list spec.op) (key value : list byte) (os : OS) :
  spec.build skiplist.BytesComparator seed ops = Ok (memtable.skipList m) →
  script os = [] →
  ∃ m' os',
    memtable.Put m key value os = (Ok tt, m', os')
    ∧ wal.Write (memtable.log m) (wal.mkRecord wal.TypePut key value) os
      = (Ok tt, memtable.log m', os')
    ∧ spec.build skiplist.BytesComparator seed (ops ++ [spec.OpInsert key value])
      = Ok (memtable.skipList m')
    ∧ skiplist.Find (memtable.skipList m') key = Ok (Some value, true)
    ∧ ∀ key', key' ≠ key →
              skiplist.Find (memtable.skipList m') key'
              = skiplist.Find (memtable.skipList m) key'.
Proof.
  intros Hsl Hs.
  destruct (Inv_build (laws := BytesComparator_laws) _ seed ops _ Hsl) as [L HInv].
  destruct (Insert_finds (laws := BytesComparator_laws) _ _ L key value HInv)
    as (sl' & L' & Hins & HInv' & Hfind).
  unfold memtable.Put. rewrite (Write_quiet _ _ os Hs), Hins.
  eexists _, _. split; [done|]. cbn [memtable.log memtable.skipList].
  split; [done|]. split; [|split; [done|]].
  - rewrite (build_snoc _ seed ops _ _ Hsl). cbn. by rewrite Hins.
  - intros key' Hne.
    apply (Insert_frame (laws := BytesComparator_laws) _ _ L key value sl' key' HInv Hins).
    by apply bytes_ne_compare.
Qed.

Lemma Put_then_Find_witness :
  ∃ m' os',
    memtable.Put memtable_example [x61] [x31] (mkOS {[ "wal" := [] ]} [])
    = (Ok tt, m', os')
    ∧ skiplist.Find (memtable.skipList m') [x61] = Ok (Some [x31], true).
Proof.
  destruct (Put_then_Find memtable_example (λ _, false) [] [x61] [x31]
              (mkOS {[ "wal" := [] ]} []) eq_refl eq_refl)
    as (m' & os' & Hput & _ & _ & Hfind & _).
  by exists m', os'.
Defined.

(** X23.  [Delete] on such a memtable, with no fault injected: it returns
    nil whether or not the key was there, the log has received the Delete
    record, the index is the old one after [Delete key], so that a lookup of
    [key] finds nothing and every other key is found as before. *)
Theorem Delete_then_Find (m : memtable.MemTable) (seed : nat → bool)
    (ops : list spec.op) (key : list byte) (os : OS) :
  spec.build skiplist.BytesComparator seed ops = Ok (memtable.skipList m) →
  script os = [] →
  ∃ m' os',
    memtable.Delete m key os = (Ok tt, m', os')
    ∧ wal.Write (memtable.log m) (wal.mkRecord wal.TypeDelete key []) os
      = (Ok tt, memtable.log m', os')
    ∧ spec.build skiplist.BytesComparator seed (ops ++ [spec.OpDelete key])
      = Ok (memtable.skipList m')
    ∧ skiplist.Find (memtable.skipList m') key = Ok (None, false)
    ∧ ∀ key', key' ≠ key →
              skiplist.Find (memtable.skipList m') key'
              = skiplist.Find (memtable.skipList m) key'.
Proof.
  intros Hsl Hs.
  destruct (Inv_build (laws := BytesComparator_laws) _ seed ops _ Hsl) as [L HInv].
  destruct (Delete_loses (laws := BytesComparator_laws) _ _ L key HInv)
    as (r & sl' & L' & Hdel & HInv' & Hfind).
  unfold memtable.Delete. rewrite (Write_quiet _ _ os Hs), Hdel.
  eexists _, _. split; [done|]. cbn [memtable.log memtable.skipList].
  split; [done|]. split; [|split; [done|]].
  - rewrite (build_snoc _ seed ops _ _ Hsl). cbn. by rewrite Hdel.
  - intros key' Hne.
    apply (Delete_frame (laws := BytesComparator_laws) _ _ L key r sl' key' HInv Hdel).
    by apply bytes_ne_compare.
Qed.

Lemma Delete_then_Find_witness :
  ∃ m' os',
    memtable.Delete memtable_example [x61] (mkOS {[ "wal" := [] ]} [])
    = (Ok tt, m', os')
    ∧ skiplist.Find (memtable.skipList m') [x61] = Ok (None, false).
Proof.
  destruct (Delete_then_Find memtable_example (λ _, false) [] [x61]
              (mkOS {[ "wal" := [] ]} []) eq_refl eq_refl)
    as (m' & os' & Hdel & _ & _ & Hfind & _).
  by exists m', os'.
Defined.

Lemma New_replay_layouts os rs : ∀ iter pre list fuel,
  script os = [] →
  contents os (name (wal.Iterator.file iter)) = pre ++ concat (map spec.layout rs) →
  wal.Iterator.offset iter = Z.of_nat (length pre) →
  wal.Iterator.fileEnd iter = Z.of_nat (length (pre ++ concat (map spec.layout rs))) →
  Forall spec.put_or_delete rs → Forall spec.go_slices rs →
  length rs < fuel →
  (memtable.New_replay fuel list iter os).1.1 = spec.run (map op_of rs) list.
Proof.
  induction rs as [|r rs IH]; intros iter pre list fuel Hs Hc Hoff Hend Hty Hsl Hn;
    (destruct fuel as [|fuel]; [cbn in Hn; lia|]);
    cbn [memtable.New_replay map concat app spec.run] in *.
  - unfold wal.Iterator.Next. rewrite app_nil_r in Hend.
    by destruct (Z.leb_spec (wal.Iterator.fileEnd iter) (wal.Iterator.offset iter));
      [|lia].
  - inversion Hty as [|? ? Hr Hty']; inversion Hsl; subst.
    rewrite (Next_layout iter os pre r (concat (map spec.layout rs))); try done.
    2:{ rewrite Hoff, Hend, !length_app, layout_length. lia. }
    assert (∀ applied,
      applied = spec.run [op_of r] list →
      (match applied with
       | Ok list' =>
           memtable.New_replay fuel list'
             (wal.Iterator.mk
                (mkFile (name (wal.Iterator.file iter))
                   (length pre + length (spec.payload r)))
                (Z.of_nat (length (pre ++ spec.layout r)))
                (wal.Iterator.fileEnd iter)) os
       | other =>
           (other,
            wal.Iterator.mk
              (mkFile (name (wal.Iterator.file iter))
                 (length pre + length (spec.payload r)))
              (Z.of_nat (length (pre ++ spec.layout r)))
              (wal.Iterator.fileEnd iter), os)
       end).1.1 = spec.run (op_of r :: map op_of rs) list) as Hstep.
    { intros applied ->. unfold op_of.
      destruct (Byte.eqb (wal.Type_ r) wal.TypePut); cbn [spec.run].
      - destruct (skiplist.Insert list (wal.Key r) (wal.Value r)) as [l'| | |];
          cbn [rbind]; try done.
        apply (IH _ (pre ++ spec.layout r)); try done.
        + cbn [wal.Iterator.file name]. by rewrite Hc, <- app_assoc.
        + cbn [wal.Iterator.fileEnd]. by rewrite Hend, <- app_assoc.
        + cbn in Hn. lia.
      - destruct (skiplist.Delete list (wal.Key r)) as [[? l']| | |];
          cbn [rbind snd]; try done.
        apply (IH _ (pre ++ spec.layout r)); try done.
        + cbn [wal.Iterator.file name]. by rewrite Hc, <- app_assoc.
        + cbn [wal.Iterator.fileEnd]. by rewrite Hend, <- app_assoc.
        + cbn in Hn. lia. }
    apply Hstep. unfold op_of.
    destruct Hr as [Hr|Hr]; rewrite Hr.
    + change (Byte.eqb wal.TypePut wal.TypePut) with true. cbn [spec.run rbind].
      by destruct (skiplist.Insert _ _ _).
    + change (Byte.eqb wal.TypeDelete wal.TypePut) with false.
      change (Byte.eqb wal.TypeDelete wal.TypeDelete) with true.
      cbn [spec.run rbind].
      by destruct (skiplist.Delete _ _) as [[? ?]| | |].
Qed.

(** X24.  The replay loop of [New] applies the records of the log in file
    order: on a file that holds the records [rs], read from offset 0 with
    the fuel that [New] gives the loop, it ends with the list that [Insert]
    for every Put record and [Delete] for every Delete record, in that
    order, make of the list it started from. *)
Theorem New_replay_applies_records_in_order (sl : skiplist.SkipList)
    (iter : wal.Iterator.t) (os : OS) (rs : list wal.Record_) :
  script os = [] →
  contents os (name (wal.Iterator.file iter)) = concat (map spec.layout rs) →
  wal.Iterator.offset iter = 0%Z →
  wal.Iterator.fileEnd iter = Z.of_nat (length (concat (map spec.layout rs))) →
  Forall spec.put_or_delete rs → Forall spec.go_slices rs →
  (memtable.New_replay (S (Z.to_nat (wal.Iterator.fileEnd iter))) sl iter os).1.1
  = spec.run (map op_of rs) sl.
Proof.
  intros Hs Hc Hoff Hend Hty Hsl.
  apply (New_replay_layouts os rs iter [] sl); try done.
  rewrite Hend, Nat2Z.id. pose proof (layouts_length rs). lia.
Qed.

Lemma New_replay_applies_records_in_order_witness :
  let rs := [ wal.mkRecord wal.TypePut [x61] [x31];
              wal.mkRecord wal.TypePut [x62] [x32];
              wal.mkRecord wal.TypeDelete [x61] [];
              wal.mkRecord wal.TypePut [x61] [x33] ] in
  (memtable.New_replay (S (Z.to_nat (wal.Iterator.fileEnd (it_example 35))))
     list_example (it_example 35) recovery_example).1.1
  = spec.run (map op_of rs) list_example
  ∧ ∃ sl, spec.run (map op_of rs) list_example = Ok sl
          ∧ spec.entries sl
            = Ok [(Some [x61], Some [x33]); (Some [x62], Some [x32])].
Proof.
  intros rs. split.
  - apply (New_replay_applies_records_in_order list_example (it_example 35)
             recovery_example rs); try reflexivity.
    + repeat (apply Forall_cons_2; [first [by left | by right]|]). apply Forall_nil_2.
    + repeat constructor.
  - eexists. split; vm_compute; reflexivity.
Defined.
